(** * aws-security-baseline: the Terraform text extractor and the wizard

  A shallow embedding of [audit/terraform_parser.py], [wizard/models.py],
  [wizard/validators.py], [wizard/cli.py] and [wizard/prompts.py], of the
  interactive mode of [wizard/main.py] and of the findings and summaries
  of [audit/audit.py]. The tfvars generator that
  [wizard/test_generator.py] exercises, [wizard/generator.py], is not among
  the sources at hand; it is modelled from the specification.

  Python [str] values are modelled by [string]; a character is a code
  point below 256. Dictionaries are [gmap]s, whose equality is the
  order-insensitive equality of Python dictionaries. Regular expressions
  are syntax trees that mirror the pattern strings of the source, run by a
  backtracking matcher that tries alternatives in the order of [re]. *)

From stdpp Require Import gmap strings list sorting.
From Stdlib Require Import Ascii ZArith Lia.


(* ===================================================================== *)
(** * Text primitives of the Python runtime                               *)
(* ===================================================================== *)

Module Text.

Definition code (c : ascii) : N := N_of_ascii c.

Definition in_range (lo hi c : ascii) : bool :=
  (code lo <=? code c)%N && (code c <=? code hi)%N.

Definition newline : ascii := "010"%char.
Definition dquote : ascii := "034"%char.
Definition backslash : ascii := "\"%char.

Definition is_newline (c : ascii) : bool := Ascii.eqb c newline.
Definition is_dquote (c : ascii) : bool := Ascii.eqb c dquote.

(** [str.isspace] on one character, which is also the class [\s] of
    [re] on [str] patterns: TAB..CR, FS..US, SPACE, NEL and NBSP. *)
Definition isspace (c : ascii) : bool :=
  let n := code c in
  ((9 <=? n)%N && (n <=? 13)%N) || ((28 <=? n)%N && (n <=? 32)%N)
  || (n =? 133)%N || (n =? 160)%N.

(** The class [\d] of [re]; below 256 the decimal digits are 0-9. *)
Definition isdigit (c : ascii) : bool := in_range "0" "9" c.

Definition islower (c : ascii) : bool := in_range "a" "z" c.
Definition isupper (c : ascii) : bool := in_range "A" "Z" c.

(** ASCII word characters [[A-Za-z0-9_]]. *)
Definition isword (c : ascii) : bool :=
  islower c || isupper c || isdigit c || Ascii.eqb c "_".

Fixpoint all (p : ascii → bool) (s : string) : bool :=
  match s with
  | EmptyString => true
  | String c s' => p c && all p s'
  end.

Fixpoint take (n : nat) (s : string) : string :=
  match n, s with
  | S n', String c s' => String c (take n' s')
  | _, _ => EmptyString
  end.

Fixpoint drop (n : nat) (s : string) : string :=
  match n, s with
  | S n', String _ s' => drop n' s'
  | _, _ => s
  end.

(** [s.count(c)] for a one-character needle. *)
Fixpoint count (c : ascii) (s : string) : nat :=
  match s with
  | EmptyString => 0
  | String x s' => (if Ascii.eqb x c then 1 else 0) + count c s'
  end.

(** Python's normalisation of one slice bound against a length. *)
Definition slice_bound (len i : Z) : Z :=
  if (i <? 0)%Z then Z.max 0 (len + i) else Z.min i len.

(** [s[a:b]] *)
Definition slice (s : string) (a b : Z) : string :=
  let len := Z.of_nat (String.length s) in
  let a' := slice_bound len a in
  let b' := slice_bound len b in
  take (Z.to_nat (b' - a')) (drop (Z.to_nat a') s).

Fixpoint lstrip (s : string) : string :=
  match s with
  | String c s' => if isspace c then lstrip s' else s
  | EmptyString => EmptyString
  end.

Fixpoint rstrip (s : string) : string :=
  match s with
  | EmptyString => EmptyString
  | String c s' =>
      match rstrip s' with
      | EmptyString => if isspace c then EmptyString else String c EmptyString
      | r => String c r
      end
  end.

(** [s.strip()] *)
Definition strip (s : string) : string := rstrip (lstrip s).

(** [s.startswith(p)], returning what follows the prefix. *)
Fixpoint strip_prefix (p s : string) : option string :=
  match p, s with
  | EmptyString, _ => Some s
  | String a p', String b s' =>
      if Ascii.eqb a b then strip_prefix p' s' else None
  | String _ _, EmptyString => None
  end.

(** [sep.join(parts)] for a one-character separator. *)
Fixpoint join (sep : ascii) (parts : list string) : string :=
  match parts with
  | [] => EmptyString
  | [p] => p
  | p :: ps => p +:+ String sep (join sep ps)
  end.

(** [s.split(sep)] for a one-character separator: always at least one part. *)
Fixpoint split (sep : ascii) (s : string) : list string :=
  match s with
  | EmptyString => [EmptyString]
  | String c s' =>
      if Ascii.eqb c sep then EmptyString :: split sep s'
      else match split sep s' with
           | p :: ps => String c p :: ps
           | [] => [String c EmptyString]
           end
  end.

(** [c in s] for a one-character needle. *)
Fixpoint occurs (c : ascii) (s : string) : bool :=
  match s with
  | EmptyString => false
  | String x s' => Ascii.eqb x c || occurs c s'
  end.

(** [s.partition(sep)] for a one-character separator: the text before the
    first separator, the separator, and the text after it; the whole text
    and two empty texts when there is no separator. *)
Fixpoint partition (sep : ascii) (s : string) : string * string * string :=
  match s with
  | EmptyString => (EmptyString, EmptyString, EmptyString)
  | String c s' =>
      if Ascii.eqb c sep then (EmptyString, String sep EmptyString, s')
      else let '(before, found, after) := partition sep s' in
           (String c before, found, after)
  end.

(** [s.upper()] on one character. Three characters below 256 have an
    upper case outside this range (181, 223 and 255); they are left as they
    are, which no comparison with an ASCII text can tell. *)
Definition upper_char (c : ascii) : ascii :=
  let n := code c in
  if ((97 <=? n)%N && (n <=? 122)%N)
     || ((224 <=? n)%N && (n <=? 254)%N && negb (n =? 247)%N)
  then ascii_of_N (n - 32) else c.

Fixpoint upper (s : string) : string :=
  match s with
  | EmptyString => EmptyString
  | String c s' => String (upper_char c) (upper s')
  end.

(** The blanks that [int] skips around a number: the ASCII ones and, above
    127, NEL and NBSP. The separators FS..US are not among them. *)
Definition int_space (c : ascii) : bool :=
  let n := code c in
  ((9 <=? n)%N && (n <=? 13)%N) || (n =? 32)%N || (n =? 133)%N || (n =? 160)%N.

Definition digit_value (c : ascii) : Z := Z.of_N (code c) - 48.

(** The digits of a number once its first digit is read: more digits, each
    possibly after one underscore, then blanks up to the end. *)
Fixpoint int_digits (acc : Z) (s : string) : option Z :=
  match s with
  | EmptyString => Some acc
  | String c s' =>
      if isdigit c then int_digits (10 * acc + digit_value c) s'
      else if Ascii.eqb c "_" then
        match s' with
        | String d s'' =>
            if isdigit d then int_digits (10 * acc + digit_value d) s'' else None
        | EmptyString => None
        end
      else if all int_space s then Some acc
      else None
  end.

Definition int_unsigned (s : string) : option Z :=
  match s with
  | String d s' => if isdigit d then int_digits (digit_value d) s' else None
  | EmptyString => None
  end.

Fixpoint int_skip (s : string) : string :=
  match s with
  | String c s' => if int_space c then int_skip s' else s
  | EmptyString => EmptyString
  end.

(** [int(s)] in base ten, [None] standing for [ValueError]: blanks, an
    optional sign, digits with single underscores between them, blanks.
    The bound that recent versions of the runtime put on the number of
    digits is left out; past it [int] raises [ValueError], and the callers
    modelled here go on alike in both cases. *)
Definition int (s : string) : option Z :=
  match int_skip s with
  | String c s' =>
      if Ascii.eqb c "-" then Z.opp <$> int_unsigned s'
      else if Ascii.eqb c "+" then int_unsigned s'
      else int_unsigned (String c s')
  | EmptyString => None
  end.

End Text.


(* ===================================================================== *)
(** * The fragment of Python's [re] that the program's patterns use       *)
(* ===================================================================== *)

Module Re.

(** Members of a bracketed class. *)
Inductive citem :=
| CChar (c : ascii)
| CRange (lo hi : ascii).

(** What matches exactly one character. *)
Inductive atom :=
| AChar (c : ascii)             (* a literal character *)
| ASet (items : list citem)     (* [...]  *)
| ANotSet (items : list citem)  (* [^...] *)
| ASpace                        (* \s *)
| ADigit                        (* \d *)
| ADot.                         (* .  *)

Inductive regex :=
| RAtom (a : atom)
| RLit (s : string)              (* a run of literal characters *)
| RStar (a : atom)               (* a*  *)
| RPlus (a : atom)               (* a+  *)
| RPlusLazy (a : atom)           (* a+? *)
| RRepeat (n : nat) (a : atom)   (* a{n} *)
| RSeq (r1 r2 : regex)
| RAlt (r1 r2 : regex)           (* r1|r2 *)
| RGroup (i : nat) (r : regex)   (* the i-th capturing group *)
| RLookahead (r : regex)         (* (?=r) *)
| RBol                           (* ^  *)
| REol                           (* $  *)
| REnd.                          (* \Z *)

Declare Scope regex_scope.
Delimit Scope regex_scope with re.
Notation "r1 ⨾ r2" := (RSeq r1 r2) (at level 60, right associativity) : regex_scope.

Record flags := { MULTILINE : bool; DOTALL : bool }.

Definition no_flags : flags := {| MULTILINE := false; DOTALL := false |}.

(** A position in the subject: the character before it, its index, and
    the text from it on. *)
Record cursor := { prev : option ascii; pos : nat; rest : string }.

Definition start_of (s : string) : cursor :=
  {| prev := None; pos := 0; rest := s |}.

Definition captures := list (nat * string).

(** [m.group(i)]: the latest text captured by group [i]. *)
Fixpoint group (caps : captures) (i : nat) : string :=
  match caps with
  | [] => EmptyString
  | (j, s) :: caps' => if Nat.eqb i j then s else group caps' i
  end.

Definition item_matches (it : citem) (c : ascii) : bool :=
  match it with
  | CChar x => Ascii.eqb c x
  | CRange lo hi => Text.in_range lo hi c
  end.

Definition atom_matches (fl : flags) (a : atom) (c : ascii) : bool :=
  match a with
  | AChar x => Ascii.eqb c x
  | ASet items => existsb (λ it, item_matches it c) items
  | ANotSet items => negb (existsb (λ it, item_matches it c) items)
  | ASpace => Text.isspace c
  | ADigit => Text.isdigit c
  | ADot => DOTALL fl || negb (Text.is_newline c)
  end.

Definition outcome := option (cursor * captures).
Definition cont := cursor → captures → outcome.

Definition accept : cont := λ c caps, Some (c, caps).

(** Greedy [a*] from [s]: the longest run first, shorter ones on failure
    of what follows. *)
Fixpoint star_greedy (fl : flags) (a : atom) (s : string) (p : option ascii)
    (n : nat) (caps : captures) (k : cont) : outcome :=
  match s with
  | String x s' =>
      if atom_matches fl a x then
        match star_greedy fl a s' (Some x) (S n) caps k with
        | Some r => Some r
        | None => k {| prev := p; pos := n; rest := s |} caps
        end
      else k {| prev := p; pos := n; rest := s |} caps
  | EmptyString => k {| prev := p; pos := n; rest := s |} caps
  end.

(** Lazy [a+?] from [s]: the shortest run first. *)
Fixpoint plus_lazy (fl : flags) (a : atom) (s : string) (n : nat)
    (caps : captures) (k : cont) : outcome :=
  match s with
  | String x s' =>
      if atom_matches fl a x then
        match k {| prev := Some x; pos := S n; rest := s' |} caps with
        | Some r => Some r
        | None => plus_lazy fl a s' (S n) caps k
        end
      else None
  | EmptyString => None
  end.

(** [a{m}] *)
Fixpoint repeat_exact (fl : flags) (a : atom) (m : nat) (s : string)
    (p : option ascii) (n : nat) (caps : captures) (k : cont) : outcome :=
  match m with
  | 0 => k {| prev := p; pos := n; rest := s |} caps
  | S m' =>
      match s with
      | String x s' =>
          if atom_matches fl a x
          then repeat_exact fl a m' s' (Some x) (S n) caps k
          else None
      | EmptyString => None
      end
  end.

(** A run of literal characters. *)
Fixpoint literal (l : string) (s : string) (p : option ascii) (n : nat)
    (caps : captures) (k : cont) : outcome :=
  match l with
  | EmptyString => k {| prev := p; pos := n; rest := s |} caps
  | String y l' =>
      match s with
      | String x s' =>
          if Ascii.eqb x y then literal l' s' (Some x) (S n) caps k else None
      | EmptyString => None
      end
  end.

(** [^]: the start of the subject, and with MULTILINE also after a newline. *)
Definition at_bol (fl : flags) (c : cursor) : bool :=
  match prev c with
  | None => true
  | Some x => MULTILINE fl && Text.is_newline x
  end.

(** [\Z]: the end of the subject. *)
Definition at_end (c : cursor) : bool :=
  match rest c with EmptyString => true | _ => false end.

(** [$]: the end of the subject or just before a newline that ends it;
    with MULTILINE before any newline. *)
Definition at_eol (fl : flags) (c : cursor) : bool :=
  match rest c with
  | EmptyString => true
  | String x s' =>
      Text.is_newline x &&
      (MULTILINE fl || match s' with EmptyString => true | _ => false end)
  end.

(** The backtracking matcher, in continuation-passing style: [k] is what
    remains to be matched after [r]. Alternatives are tried in the order
    [re] tries them. *)
Fixpoint run (fl : flags) (r : regex) (c : cursor) (caps : captures)
    (k : cont) : outcome :=
  match r with
  | RAtom a =>
      match rest c with
      | String x s' =>
          if atom_matches fl a x
          then k {| prev := Some x; pos := S (pos c); rest := s' |} caps
          else None
      | EmptyString => None
      end
  | RLit l => literal l (rest c) (prev c) (pos c) caps k
  | RStar a => star_greedy fl a (rest c) (prev c) (pos c) caps k
  | RPlus a =>
      match rest c with
      | String x s' =>
          if atom_matches fl a x
          then star_greedy fl a s' (Some x) (S (pos c)) caps k
          else None
      | EmptyString => None
      end
  | RPlusLazy a => plus_lazy fl a (rest c) (pos c) caps k
  | RRepeat m a => repeat_exact fl a m (rest c) (prev c) (pos c) caps k
  | RSeq r1 r2 => run fl r1 c caps (λ c1 caps1, run fl r2 c1 caps1 k)
  | RAlt r1 r2 =>
      match run fl r1 c caps k with
      | Some res => Some res
      | None => run fl r2 c caps k
      end
  | RGroup i r1 =>
      run fl r1 c caps
        (λ c1 caps1, k c1 ((i, Text.take (pos c1 - pos c) (rest c)) :: caps1))
  | RLookahead r1 =>
      match run fl r1 c caps accept with
      | Some _ => k c caps
      | None => None
      end
  | RBol => if at_bol fl c then k c caps else None
  | REol => if at_eol fl c then k c caps else None
  | REnd => if at_end c then k c caps else None
  end.

(** A match object: [m.start()], [m.end()] and the groups. *)
Record match_obj := { m_start : nat; m_end : nat; m_caps : captures }.

(** [pattern.match(s)] *)
Definition re_match (fl : flags) (r : regex) (s : string) : option match_obj :=
  match run fl r (start_of s) [] accept with
  | Some (c, caps) => Some {| m_start := 0; m_end := pos c; m_caps := caps |}
  | None => None
  end.

(** [pattern.fullmatch(s)] *)
Definition re_fullmatch (fl : flags) (r : regex) (s : string) : option match_obj :=
  match run fl r (start_of s) []
          (λ c caps, if at_end c then Some (c, caps) else None) with
  | Some (c, caps) => Some {| m_start := 0; m_end := pos c; m_caps := caps |}
  | None => None
  end.

(** The leftmost match at or after a position: the scan of [pattern.search]. *)
Fixpoint search_from (fl : flags) (r : regex) (s : string) (p : option ascii)
    (n : nat) : option (nat * (cursor * captures)) :=
  match run fl r {| prev := p; pos := n; rest := s |} [] accept with
  | Some res => Some (n, res)
  | None =>
      match s with
      | String x s' => search_from fl r s' (Some x) (S n)
      | EmptyString => None
      end
  end.

Definition search (fl : flags) (r : regex) (c : cursor)
  : option (nat * (cursor * captures)) :=
  search_from fl r (rest c) (prev c) (pos c).

(** One step past a cursor, used after an empty match. *)
Definition advance (c : cursor) : option cursor :=
  match rest c with
  | String x s' => Some {| prev := Some x; pos := S (pos c); rest := s' |}
  | EmptyString => None
  end.

(** The successive non-overlapping matches, left to right; after an empty
    match the scan resumes one character further, which is what [re] does
    for patterns that, like those of this program, match no empty text.
    Every round either ends the scan or moves the cursor forward, so the
    length of the subject plus one bounds the number of rounds. *)
Fixpoint finditer_from (fuel : nat) (fl : flags) (r : regex) (c : cursor)
  : list match_obj :=
  match fuel with
  | 0 => []
  | S fuel' =>
      match search fl r c with
      | None => []
      | Some (st, (c1, caps)) =>
          {| m_start := st; m_end := pos c1; m_caps := caps |} ::
          (if Nat.eqb (pos c1) st
           then match advance c1 with
                | Some c2 => finditer_from fuel' fl r c2
                | None => []
                end
           else finditer_from fuel' fl r c1)
      end
  end.

(** [re.finditer(pattern, s, flags)] *)
Definition finditer (fl : flags) (r : regex) (s : string) : list match_obj :=
  finditer_from (S (String.length s)) fl r (start_of s).

End Re.


(* ===================================================================== *)
(** * audit/terraform_parser.py                                           *)
(* ===================================================================== *)

Module Audit.
Import Re.

Local Open Scope regex_scope.

Definition nl : string := String Text.newline EmptyString.
Definition dq : string := String Text.dquote EmptyString.

(** The class [[^Q]], Q being the double quote. *)
Definition not_quote : atom := ANotSet [CChar Text.dquote].
(** The class [[a-z_]]. *)
Definition ident_start : atom := ASet [CRange "a" "z"; CChar "_"].
(** The class [[a-z0-9_]]. *)
Definition ident_rest : atom := ASet [CRange "a" "z"; CRange "0" "9"; CChar "_"].

Record TerraformResource := {
  resource_type : string;
  resource_name : string;
  attributes : gmap string string;
  file_path : string;
  line_number : nat
}.

Record TerraformModule := {
  module_path : string;
  resources : list TerraformResource;
  variables : gmap string (gmap string string);
  outputs : gmap string (gmap string string);
  locals : gmap string string
}.

(** The slashes that a path starts with. *)
Fixpoint leading_slashes (s : string) : nat :=
  match s with
  | String c s' => if Ascii.eqb c "/" then S (leading_slashes s') else 0
  | EmptyString => 0
  end.

(** The root of a POSIX path: none, one slash, or two slashes when the
    path starts with exactly two. *)
Definition path_root (s : string) : string :=
  match leading_slashes s with
  | 0 => EmptyString
  | 2 => "//"
  | _ => "/"
  end.

(** The components of a path: what stands between slashes, without the
    empty components and the dots. *)
Definition path_components (s : string) : list string :=
  List.filter (λ x, negb (String.eqb x EmptyString) && negb (String.eqb x "."))
              (Text.split "/" s).

(** [str(Path(text))] on a POSIX system: repeated slashes, a final slash
    and components that are a dot are dropped; the empty path is a dot. A
    [Path] is modelled by its text. *)
Definition Path (text : string) : string :=
  let root := path_root text in
  let rel := Text.join "/" (path_components text) in
  if String.eqb root EmptyString && String.eqb rel EmptyString then "."
  else root +:+ rel.

(** [TerraformModule(module_path)]: the path is kept as a [Path]. *)
Definition new_module (module_path : string) : TerraformModule :=
  {| module_path := Path module_path; resources := []; variables := ∅;
     outputs := ∅; locals := ∅ |}.

Definition get_resources_by_type (m : TerraformModule) (rtype : string)
  : list TerraformResource :=
  filter (λ r, resource_type r = rtype) (resources m).

(** The loop of [TerraformModule.get_resource] over [self.resources]. *)
Fixpoint get_resource_in (rs : list TerraformResource) (rtype rname : string)
  : option TerraformResource :=
  match rs with
  | [] => None
  | resource :: rs' =>
      if String.eqb (resource_type resource) rtype
         && String.eqb (resource_name resource) rname
      then Some resource
      else get_resource_in rs' rtype rname
  end.

Definition get_resource (m : TerraformModule) (rtype rname : string)
  : option TerraformResource :=
  get_resource_in (resources m) rtype rname.

Definition has_resource_type (m : TerraformModule) (rtype : string) : bool :=
  Nat.ltb 0 (length (get_resources_by_type m rtype)).

(** [resource_pattern], written with Q for the double quote:
    [resource\s+Q([^Q]+)Q\s+Q([^Q]+)Q\s*\{] *)
Definition resource_pattern : regex :=
  RLit "resource" ⨾ RPlus ASpace ⨾ RLit dq ⨾ RGroup 1 (RPlus not_quote) ⨾
  RLit dq ⨾ RPlus ASpace ⨾ RLit dq ⨾ RGroup 2 (RPlus not_quote) ⨾ RLit dq ⨾
  RStar ASpace ⨾ RLit "{".

(** [var_pattern]: [variable\s+Q([^Q]+)Q\s*\{] *)
Definition var_pattern : regex :=
  RLit "variable" ⨾ RPlus ASpace ⨾ RLit dq ⨾ RGroup 1 (RPlus not_quote) ⨾
  RLit dq ⨾ RStar ASpace ⨾ RLit "{".

(** [output_pattern]: [output\s+Q([^Q]+)Q\s*\{] *)
Definition output_pattern : regex :=
  RLit "output" ⨾ RPlus ASpace ⨾ RLit dq ⨾ RGroup 1 (RPlus not_quote) ⨾
  RLit dq ⨾ RStar ASpace ⨾ RLit "{".

(** [locals_pattern]: [locals\s*\{] *)
Definition locals_pattern : regex :=
  RLit "locals" ⨾ RStar ASpace ⨾ RLit "{".

(** The key of [attr_pattern]: [[a-z_][a-z0-9_]*]. *)
Definition attr_key : regex := RAtom ident_start ⨾ RStar ident_rest.

(** The lookahead of [attr_pattern]: [(?=\n\s*[a-z_]|\n\s*\}|\Z)]. *)
Definition attr_lookahead : regex :=
  RAlt (RLit nl ⨾ RStar ASpace ⨾ RAtom ident_start)
    (RAlt (RLit nl ⨾ RStar ASpace ⨾ RLit "}") REnd).

(** [attr_pattern], group by group: the line start and blanks [^\s*];
    group 1, the key; the equals sign [\s*=\s*]; group 2, the value
    [.+?]; and the lookahead. *)
Definition attr_pattern : regex :=
  RBol ⨾ RStar ASpace ⨾ RGroup 1 attr_key ⨾
  RStar ASpace ⨾ RLit "=" ⨾ RStar ASpace ⨾ RGroup 2 (RPlusLazy ADot) ⨾
  RLookahead attr_lookahead.

(** [re.MULTILINE | re.DOTALL] *)
Definition attr_flags : flags := {| MULTILINE := true; DOTALL := true |}.

(** The [while] loop of [_extract_block_content]: [s] is [content[pos:]]. *)
Fixpoint scan_braces (s : string) (brace_count : Z) (pos : nat) : nat :=
  match s with
  | EmptyString => pos
  | String c s' =>
      if (0 <? brace_count)%Z then
        scan_braces s'
          (if Ascii.eqb c "{" then brace_count + 1
           else if Ascii.eqb c "}" then brace_count - 1
           else brace_count)%Z
          (S pos)
      else pos
  end.

Definition _extract_block_content (content : string) (start_pos : nat) : string :=
  let pos := scan_braces (Text.drop start_pos content) 1 start_pos in
  Text.slice content (Z.of_nat start_pos) (Z.of_nat pos - 1).

Definition _parse_attributes (block_content : string) : gmap string string :=
  foldl (λ attributes m,
           <[group (m_caps m) 1 := Text.strip (group (m_caps m) 2)]> attributes)
        ∅ (finditer attr_flags attr_pattern block_content).

Definition _extract_resources (content file : string) : list TerraformResource :=
  map (λ m,
         {| resource_type := group (m_caps m) 1;
            resource_name := group (m_caps m) 2;
            attributes :=
              _parse_attributes (_extract_block_content content (m_end m));
            file_path := file;
            line_number :=
              Text.count Text.newline (Text.take (m_start m) content) + 1 |})
      (finditer no_flags resource_pattern content).

Definition _extract_variables (content : string) : gmap string (gmap string string) :=
  foldl (λ variables m,
           <[group (m_caps m) 1 :=
               _parse_attributes (_extract_block_content content (m_end m))]>
             variables)
        ∅ (finditer no_flags var_pattern content).

Definition _extract_outputs (content : string) : gmap string (gmap string string) :=
  foldl (λ outputs m,
           <[group (m_caps m) 1 :=
               _parse_attributes (_extract_block_content content (m_end m))]>
             outputs)
        ∅ (finditer no_flags output_pattern content).

(** [d.update(e)]: the entries of [e] win. *)
Definition dict_update {V} (d e : gmap string V) : gmap string V := e ∪ d.

Definition _extract_locals (content : string) : gmap string string :=
  foldl (λ locals_dict m,
           dict_update locals_dict
             (_parse_attributes (_extract_block_content content (m_end m))))
        ∅ (finditer no_flags locals_pattern content).

(** ** The directory as [parse_module] sees it *)

(** What [open(file_path).read()] does on one file. *)
Inductive read_result :=
| ReadOk (content : string)
| ReadError (message : string).

Record tf_file := { tf_path : string; tf_read : read_result }.

(** What lies at a path that exists: a directory, with the files that
    [glob] enumerates for *.tf in it, in enumeration order; or something
    that is not a directory. *)
Inductive node :=
| Directory (tf_files : list tf_file)
| NotADirectory.

(** The paths that exist, each under the text of its [Path]. *)
Definition filesystem := gmap string node.

(** [module_dir.glob(...)] for the pattern *.tf: nothing is enumerated
    under what is not a directory. *)
Definition glob_tf (n : node) : list tf_file :=
  match n with
  | Directory tf_files => tf_files
  | NotADirectory => []
  end.

(** The standard output: given the lines written so far and one more
    line, [None] when [print] writes the line, and otherwise the message
    of the exception that [print] raises, an encoding error for
    instance. *)
Definition console := list string → string → option string.

Inductive exn :=
| FileNotFoundError (message : string)
| RaisedByPrint (message : string).

Inductive result (A : Type) :=
| Ok (a : A)
| Raise (e : exn).
Arguments Ok {A} a.
Arguments Raise {A} e.

(** A module under construction together with what was printed so far. *)
Definition parse_state : Type := TerraformModule * list string.

(** The body of the [try] of [_parse_file] once the file is read. *)
Definition parse_content (content file : string) (module : TerraformModule)
  : TerraformModule :=
  {| module_path := module_path module;
     resources := resources module ++ _extract_resources content file;
     variables := dict_update (variables module) (_extract_variables content);
     outputs := dict_update (outputs module) (_extract_outputs content);
     locals := dict_update (locals module) (_extract_locals content) |}.

(** [_parse_file]: the body of the [try], or the handler, whose [print]
    stands outside any [try]: what it raises leaves [_parse_file]. *)
Definition _parse_file (out : console) (f : tf_file) (st : parse_state)
  : result TerraformModule * list string :=
  let '(module, printed) := st in
  match tf_read f with
  | ReadOk content => (Ok (parse_content content (tf_path f) module), printed)
  | ReadError e =>
      let line := "Warning: Error parsing " +:+ tf_path f +:+ ": " +:+ e in
      match out printed line with
      | None => (Ok module, printed ++ [line])
      | Some raised => (Raise (RaisedByPrint raised), printed)
      end
  end.

(** The [for] loop of [parse_module]: it ends at the first exception. *)
Fixpoint parse_files (out : console) (fs : list tf_file) (st : parse_state)
  : result TerraformModule * list string :=
  match fs with
  | [] => (Ok st.1, st.2)
  | f :: fs' =>
      match _parse_file out f st with
      | (Ok module, printed) => parse_files out fs' (module, printed)
      | (Raise e, printed) => (Raise e, printed)
      end
  end.

Definition parse_module (out : console) (fsys : filesystem) (module_path : string)
  : result TerraformModule * list string :=
  let module := new_module module_path in
  match fsys !! Path module_path with
  | None =>
      (Raise (FileNotFoundError ("Module directory not found: " +:+ module_path)), [])
  | Some module_dir => parse_files out (glob_tf module_dir) (module, [])
  end.

(** ** Accessors of a resource *)

(** [TerraformResource.full_name] *)
Definition full_name (r : TerraformResource) : string :=
  resource_type r +:+ "." +:+ resource_name r.

(** [TerraformResource.has_attribute] *)
Definition has_attribute (r : TerraformResource) (attr_name : string) : bool :=
  bool_decide (is_Some (attributes r !! attr_name)).

(** [TerraformResource.get_attribute]; [None] is Python's [None], the
    default of [default]. *)
Definition get_attribute (r : TerraformResource) (attr_name : string)
    (default : option string) : option string :=
  match attributes r !! attr_name with
  | Some value => Some value
  | None => default
  end.

(** ** The text of one resource *)

(** What a call that reads a file gives: a value, or the exception that
    [open] or [read] raised. *)
Inductive io_result (A : Type) :=
| Returned (a : A)
| Raised (message : string).
Arguments Returned {A} a.
Arguments Raised {A} message.

(** [read_file_content]: nothing is caught. *)
Definition read_file_content (f : tf_file) : io_result string :=
  match tf_read f with
  | ReadOk content => Returned content
  | ReadError e => Raised e
  end.

(** The pattern of [get_resource_snippet]; [re.escape] makes the type and
    the name match as literal texts:
    [resource\s+Q<type>Q\s+Q<name>Q\s*\{] *)
Definition snippet_pattern (rtype rname : string) : regex :=
  RLit "resource" ⨾ RPlus ASpace ⨾ RLit dq ⨾ RLit rtype ⨾ RLit dq ⨾
  RPlus ASpace ⨾ RLit dq ⨾ RLit rname ⨾ RLit dq ⨾ RStar ASpace ⨾ RLit "{".

(** [get_resource_snippet] once the content is read. *)
Definition snippet_in (content rtype rname : string) : option string :=
  match search no_flags (snippet_pattern rtype rname) (start_of content) with
  | None => None
  | Some (start_pos, (c1, _)) =>
      let block_start := pos c1 in
      let block_content := _extract_block_content content block_start in
      Some (Text.slice content (Z.of_nat start_pos)
              (Z.of_nat block_start + Z.of_nat (String.length block_content) + 1))
  end.

Definition get_resource_snippet (f : tf_file) (rtype rname : string)
  : io_result (option string) :=
  match read_file_content f with
  | Returned content => Returned (snippet_in content rtype rname)
  | Raised e => Raised e
  end.

(** [parse_terraform_module] *)
Definition parse_terraform_module (out : console) (fsys : filesystem)
    (module_path : string) : result TerraformModule * list string :=
  parse_module out fsys module_path.

End Audit.


(* ===================================================================== *)
(** * wizard/models.py, wizard/validators.py, wizard/cli.py               *)
(* ===================================================================== *)

Module Wizard.
Import Re.
Local Open Scope regex_scope.

(** ** models.py *)

Record ModuleInfo := {
  name : string;
  display_name : string;
  description : string;
  var_name : string
}.

Record WizardConfig := {
  modules : gmap string bool;
  region : string;
  environment : string;
  tags : gmap string string
}.

(** [WizardConfig()], the dataclass defaults. *)
Definition default_config : WizardConfig :=
  {| modules := ∅; region := "us-east-1"; environment := "dev"; tags := ∅ |}.

Definition set_modules (f : gmap string bool → gmap string bool) (c : WizardConfig)
  : WizardConfig :=
  {| modules := f (modules c); region := region c;
     environment := environment c; tags := tags c |}.

Definition set_region (r : string) (c : WizardConfig) : WizardConfig :=
  {| modules := modules c; region := r; environment := environment c;
     tags := tags c |}.

Definition set_environment (e : string) (c : WizardConfig) : WizardConfig :=
  {| modules := modules c; region := region c; environment := e;
     tags := tags c |}.

Definition set_tags (f : gmap string string → gmap string string) (c : WizardConfig)
  : WizardConfig :=
  {| modules := modules c; region := region c;
     environment := environment c; tags := f (tags c) |}.

Definition AVAILABLE_MODULES : list ModuleInfo := [
  {| name := "cloudtrail"; display_name := "CloudTrail";
     description := "API logging and audit trail";
     var_name := "enable_cloudtrail" |};
  {| name := "config"; display_name := "AWS Config";
     description := "Configuration change tracking";
     var_name := "enable_config" |};
  {| name := "guardduty"; display_name := "GuardDuty";
     description := "Threat detection service";
     var_name := "enable_guardduty" |};
  {| name := "detective"; display_name := "Detective";
     description := "Security investigation";
     var_name := "enable_detective" |};
  {| name := "securityhub"; display_name := "Security Hub";
     description := "Central security dashboard";
     var_name := "enable_securityhub" |};
  {| name := "accessanalyzer"; display_name := "IAM Access Analyzer";
     description := "External access analysis";
     var_name := "enable_accessanalyzer" |};
  {| name := "inspector"; display_name := "Inspector";
     description := "Vulnerability scanning";
     var_name := "enable_inspector" |};
  {| name := "macie"; display_name := "Macie";
     description := "Sensitive data discovery";
     var_name := "enable_macie" |}
].

Definition EXPECTED_MODULE_NAMES : gset string :=
  {[ "cloudtrail"; "config"; "guardduty"; "detective"; "securityhub";
     "accessanalyzer"; "inspector"; "macie" ]}.

(** ** validators.py *)

(** The Python values a validator can be handed. *)
Inductive pyval :=
| PyNone
| PyBool (b : bool)
| PyInt (z : Z)
| PyStr (s : string)
| PyOther (truth : bool).   (* any other object, with its truth value *)

(** Truth value testing: [not v] is [negb (truthy v)]. *)
Definition truthy (v : pyval) : bool :=
  match v with
  | PyNone => false
  | PyBool b => b
  | PyInt z => negb (z =? 0)%Z
  | PyStr s => negb (String.eqb s EmptyString)
  | PyOther truth => truth
  end.

(** [isinstance(v, str)] *)
Definition isinstance_str (v : pyval) : bool :=
  match v with PyStr _ => true | _ => false end.

Definition lower : atom := ASet [CRange "a" "z"].
Definition alnum_hyphen : atom :=
  ASet [CRange "a" "z"; CRange "A" "Z"; CRange "0" "9"; CChar "-"].

(** [re.compile(r"^[a-z]{2}-[a-z]+-\d+$")] *)
Definition AWS_REGION_PATTERN : regex :=
  RBol ⨾ RRepeat 2 lower ⨾ RLit "-" ⨾ RPlus lower ⨾ RLit "-" ⨾ RPlus ADigit ⨾ REol.

(** [re.compile(r"^[a-zA-Z0-9-]+$")] *)
Definition ENVIRONMENT_PATTERN : regex :=
  RBol ⨾ RPlus alnum_hyphen ⨾ REol.

Definition validate_region (region : pyval) : bool :=
  if negb (truthy region) || negb (isinstance_str region) then false
  else match region with
       | PyStr s => bool_decide (is_Some (re_match no_flags AWS_REGION_PATTERN s))
       | _ => false
       end.

Definition validate_environment (env : pyval) : bool :=
  if negb (truthy env) || negb (isinstance_str env) then false
  else match env with
       | PyStr s => bool_decide (is_Some (re_match no_flags ENVIRONMENT_PATTERN s))
       | _ => false
       end.

Definition validate_tag_key (key : pyval) : bool :=
  match key with
  | PyStr s => Nat.ltb 0 (String.length (Text.strip s))
  | _ => false
  end.

(** ** cli.py *)

(** The namespace that [parse_args] returns. *)
Record Namespace := {
  args_all_modules : bool;
  args_region : option string;
  args_env : option string;
  args_tags : option (list (string * string))
}.

(** The truth value of an optional string: [None] and the empty string
    are false. *)
Definition given (o : option string) : option string :=
  match o with
  | Some s => if String.eqb s EmptyString then None else Some s
  | None => None
  end.

Definition build_config_from_args (args : Namespace) : WizardConfig :=
  let config := default_config in
  let config :=
    if args_all_modules args
    then foldl (λ config module,
                  set_modules (λ ms, <[name module := true]> ms) config)
               config AVAILABLE_MODULES
    else config in
  let config :=
    match given (args_region args) with
    | Some r => set_region r config
    | None => config
    end in
  let config :=
    match given (args_env args) with
    | Some e => set_environment e config
    | None => config
    end in
  let config :=
    set_tags (λ _, <["ManagedBy" := "Terraform"]>
                     (<["Environment" := environment config]> ∅)) config in
  match args_tags args with
  | Some [] | None => config
  | Some user_tags =>
      foldl (λ config kv, set_tags (λ ts, <[kv.1 := kv.2]> ts) config)
            config user_tags
  end.

(** What a [type=] function of the argument parser gives: the converted
    value, or [argparse.ArgumentTypeError]. *)
Inductive converted (A : Type) :=
| Converted (a : A)
| ArgumentTypeError (message : string).
Arguments Converted {A} a.
Arguments ArgumentTypeError {A} message.

Definition parse_tag (tag_string : string) : converted (string * string) :=
  if negb (Text.occurs "=" tag_string) then
    ArgumentTypeError
      ("Invalid tag format: '" +:+ tag_string +:+ "'. Expected KEY=VALUE format.")
  else
    let '(key, _, value) := Text.partition "=" tag_string in
    if String.eqb key EmptyString then
      ArgumentTypeError
        ("Invalid tag format: '" +:+ tag_string +:+ "'. Tag key cannot be empty.")
    else Converted (key, value).

Definition validate_region_arg (region : string) : converted string :=
  if negb (validate_region (PyStr region)) then
    ArgumentTypeError
      ("Invalid region format: '" +:+ region +:+ "'. Expected format: us-east-1")
  else Converted region.

Definition validate_environment_arg (env : string) : converted string :=
  if negb (validate_environment (PyStr env)) then
    ArgumentTypeError
      ("Invalid environment name: '" +:+ env +:+
       "'. Use only letters, numbers, and hyphens.")
  else Converted env.

Definition has_cli_args (args : Namespace) : bool :=
  args_all_modules args
  || bool_decide (args_region args ≠ None)
  || bool_decide (args_env args ≠ None)
  || bool_decide (args_tags args ≠ None).

End Wizard.


(* ===================================================================== *)
(** * wizard/prompts.py and the interactive mode of wizard/main.py        *)
(* ===================================================================== *)

(** The prompts are functions of the answers they are given: the texts
    that successive calls of [Prompt.ask] return and the booleans that
    successive calls of [Confirm.ask] return. Each function returns its
    result with the answers it has not used, and [None] when the answers
    run out before it returns. What is printed to the console does not
    enter any result and is left out. *)

Module Interactive.
Import Wizard.

(** ** prompts.py *)

Definition COMMON_REGIONS : list string := [
  "us-east-1"; "us-east-2"; "us-west-1"; "us-west-2"; "eu-west-1";
  "eu-west-2"; "eu-central-1"; "ap-southeast-1"; "ap-southeast-2";
  "ap-northeast-1"
].

Definition DEFAULT_REGION : string := "us-east-1".

Definition SUGGESTED_ENVIRONMENTS : list string := ["dev"; "staging"; "prod"].

(** The loop of individual selection, one [Confirm.ask] per module. *)
Fixpoint confirm_each (ms : list ModuleInfo) (selections : gmap string bool)
    (confirmed : list bool) : option (gmap string bool * list bool) :=
  match ms with
  | [] => Some (selections, confirmed)
  | module :: ms' =>
      match confirmed with
      | [] => None
      | enabled :: confirmed' =>
          confirm_each ms' (<[name module := enabled]> selections) confirmed'
      end
  end.

Definition select_modules (asked : list string) (confirmed : list bool)
  : option (gmap string bool * list string * list bool) :=
  match asked with
  | [] => None
  | answer :: asked' =>
      let choice := Text.upper answer in
      if String.eqb choice "A" then
        Some (foldl (λ selections module, <[name module := true]> selections)
                    ∅ AVAILABLE_MODULES, asked', confirmed)
      else if String.eqb choice "N" then
        Some (foldl (λ selections module, <[name module := false]> selections)
                    ∅ AVAILABLE_MODULES, asked', confirmed)
      else
        match confirm_each AVAILABLE_MODULES ∅ confirmed with
        | Some (selections, confirmed') => Some (selections, asked', confirmed')
        | None => None
        end
  end.

(** The [while True] loop of [select_region]; every round takes one
    answer, and a second one for a custom region. Indexing
    [COMMON_REGIONS] is guarded by the range test. *)
Fixpoint select_region (asked : list string) : option (string * list string) :=
  match asked with
  | [] => None
  | choice :: asked' =>
      match Text.int choice with
      | Some choice_num =>
          if (1 <=? choice_num)%Z
             && (choice_num <=? Z.of_nat (length COMMON_REGIONS))%Z then
            match COMMON_REGIONS !! Z.to_nat (choice_num - 1) with
            | Some selected_region => Some (selected_region, asked')
            | None => None
            end
          else if (choice_num =? Z.of_nat (length COMMON_REGIONS) + 1)%Z then
            match asked' with
            | [] => None
            | custom_region :: asked'' =>
                if validate_region (PyStr custom_region)
                then Some (custom_region, asked'')
                else select_region asked''
            end
          else select_region asked'
      | None =>
          if validate_region (PyStr choice) then Some (choice, asked')
          else select_region asked'
      end
  end.

Fixpoint select_environment (asked : list string) : option (string * list string) :=
  match asked with
  | [] => None
  | choice :: asked' =>
      match Text.int choice with
      | Some choice_num =>
          if (1 <=? choice_num)%Z
             && (choice_num <=? Z.of_nat (length SUGGESTED_ENVIRONMENTS))%Z then
            match SUGGESTED_ENVIRONMENTS !! Z.to_nat (choice_num - 1) with
            | Some selected_env => Some (selected_env, asked')
            | None => None
            end
          else if validate_environment (PyStr choice) then Some (choice, asked')
          else select_environment asked'
      | None =>
          if validate_environment (PyStr choice) then Some (choice, asked')
          else select_environment asked'
      end
  end.

(** The loop of [configure_tags] that reads custom tags: an empty key
    ends it, a blank key is asked again, any other key is followed by its
    value. *)
Fixpoint read_tags (tags : gmap string string) (asked : list string)
  : option (gmap string string * list string) :=
  match asked with
  | [] => None
  | key :: asked' =>
      if String.eqb key EmptyString then Some (tags, asked')
      else if negb (validate_tag_key (PyStr key)) then read_tags tags asked'
      else
        match asked' with
        | [] => None
        | value :: asked'' => read_tags (<[key := value]> tags) asked''
        end
  end.

Definition configure_tags (environment : string) (asked : list string)
    (confirmed : list bool)
  : option (gmap string string * list string * list bool) :=
  let tags : gmap string string :=
    <["ManagedBy" := "Terraform"]> (<["Environment" := environment]> ∅) in
  match confirmed with
  | [] => None
  | add_custom :: confirmed' =>
      if add_custom then
        match read_tags tags asked with
        | Some (tags', asked') => Some (tags', asked', confirmed')
        | None => None
        end
      else Some (tags, asked, confirmed')
  end.

(** ** display.py *)

(** [display_summary]: the tables are printed and the confirmation is
    returned. *)
Definition display_summary (config : WizardConfig) (confirmed : list bool)
  : option (bool * list bool) :=
  match confirmed with
  | [] => None
  | answer :: confirmed' => Some (answer, confirmed')
  end.

(** ** main.py *)

(** The loop of [run_interactive_mode]. Every round ends with the
    confirmation of [display_summary], so the rounds are bounded by the
    number of confirmations at hand. *)
Fixpoint interactive_rounds (rounds : nat) (asked : list string)
    (confirmed : list bool) : option (WizardConfig * list string * list bool) :=
  match rounds with
  | 0 => None
  | S rounds' =>
      match select_modules asked confirmed with
      | None => None
      | Some (modules, asked1, confirmed1) =>
          match select_region asked1 with
          | None => None
          | Some (region, asked2) =>
              match select_environment asked2 with
              | None => None
              | Some (environment, asked3) =>
                  match configure_tags environment asked3 confirmed1 with
                  | None => None
                  | Some (tags, asked4, confirmed4) =>
                      let config :=
                        {| modules := modules; region := region;
                           environment := environment; tags := tags |} in
                      match display_summary config confirmed4 with
                      | None => None
                      | Some (true, confirmed5) => Some (config, asked4, confirmed5)
                      | Some (false, confirmed5) =>
                          interactive_rounds rounds' asked4 confirmed5
                      end
                  end
              end
          end
      end
  end.

Definition run_interactive_mode (asked : list string) (confirmed : list bool)
  : option (WizardConfig * list string * list bool) :=
  interactive_rounds (S (length confirmed)) asked confirmed.

End Interactive.


(* ===================================================================== *)
(** * audit/audit.py: findings and their summary                          *)
(* ===================================================================== *)

Module Report.

Inductive Severity := CRITICAL | HIGH | MEDIUM | LOW.

Inductive Category :=
| ENCRYPTION | ACCESS_CONTROL | LOGGING | MONITORING | COMPLIANCE | CONFIGURATION.

#[global] Instance Severity_eq_dec : EqDecision Severity.
Proof. solve_decision. Defined.

Record Finding := {
  module : string;
  resource : string;
  severity : Severity;
  category : Category;
  title : string;
  description : string;
  current_config : string;
  recommended_config : string;
  aws_doc_reference : string;
  terraform_doc_reference : string;
  breaking_change : bool;
  effort : string
}.

Record AuditSummary := {
  total_findings : nat;
  critical : nat;
  high : nat;
  medium : nat;
  low : nat;
  modules_audited : list string
}.

Record AuditReport := { findings : list Finding; timestamp : string }.

(** [AuditReport()] *)
Definition new_report : AuditReport := {| findings := []; timestamp := EmptyString |}.

Definition add_finding (report : AuditReport) (finding : Finding) : AuditReport :=
  {| findings := findings report ++ [finding]; timestamp := timestamp report |}.

(** [severity_counts[s] += 1] on the dictionary of the four counts. *)
Definition increment (s : Severity) (severity_counts : Severity → nat)
  : Severity → nat :=
  λ s', if decide (s' = s) then S (severity_counts s') else severity_counts s'.

(** [sorted(list(modules))]: the names in increasing order of their
    code points. *)
Definition sorted (modules : gset string) : list string :=
  merge_sort String.le (elements modules).

Definition get_summary (report : AuditReport) : AuditSummary :=
  let '(severity_counts, modules) :=
    foldl (λ '(severity_counts, modules) finding,
             (increment (severity finding) severity_counts,
              {[ module finding ]} ∪ modules))
          (λ _, 0, (∅ : gset string)) (findings report) in
  {| total_findings := length (findings report);
     critical := severity_counts CRITICAL;
     high := severity_counts HIGH;
     medium := severity_counts MEDIUM;
     low := severity_counts LOW;
     modules_audited := sorted modules |}.

Definition get_findings_by_severity (report : AuditReport) (s : Severity)
  : list Finding :=
  filter (λ f, severity f = s) (findings report).

Definition get_findings_by_module (report : AuditReport) (m : string)
  : list Finding :=
  filter (λ f, module f = m) (findings report).

Definition get_quick_wins (report : AuditReport) : list Finding :=
  filter (λ f, effort f = "low" ∧ severity f ∈ [HIGH; MEDIUM]) (findings report).

End Report.


(* ===================================================================== *)
(** * The tfvars generator and parser                                     *)
(* ===================================================================== *)

Module Generator.
Import Wizard.

(** Modelled from the spec: the double quote that delimits the string
    values written by [wizard/generator.py]. *)
Definition dq : string := String Text.dquote EmptyString.

(** Modelled from the spec: the escaping of the double quotes of a tag
    value in [generate_tfvars_content] of [wizard/generator.py]: a
    backslash before every double quote. *)
Fixpoint escape_quotes (s : string) : string :=
  match s with
  | EmptyString => EmptyString
  | String c s' =>
      if Text.is_dquote c
      then String Text.backslash (String Text.dquote (escape_quotes s'))
      else String c (escape_quotes s')
  end.

(** Modelled from the spec: the unescaping of a quoted value in
    [parse_tfvars_content] of [wizard/generator.py]: every backslash
    followed by a double quote, left to right, becomes a double quote. *)
Fixpoint unescape_quotes (s : string) : string :=
  match s with
  | EmptyString => EmptyString
  | String c s' =>
      match s' with
      | String d s'' =>
          if Ascii.eqb c Text.backslash && Text.is_dquote d
          then String Text.dquote (unescape_quotes s'')
          else String c (unescape_quotes s')
      | EmptyString => String c EmptyString
      end
  end.

(** Modelled from the spec: the boolean tokens of an assignment line of
    [wizard/generator.py] (bare lowercase [true] and [false]). *)
Definition bool_token (b : bool) : string := if b then "true" else "false".

(** Modelled from the spec: the region assignment line of
    [generate_tfvars_content], a double-quoted string value. *)
Definition region_line (c : WizardConfig) : string :=
  "aws_region  = " +:+ dq +:+ region c +:+ dq.

(** Modelled from the spec: the environment assignment line of
    [generate_tfvars_content]. *)
Definition environment_line (c : WizardConfig) : string :=
  "environment = " +:+ dq +:+ environment c +:+ dq.

(** Modelled from the spec: the boolean assignment line of one registered
    feature in [generate_tfvars_content], under its flag name, false when
    the feature is absent from the configuration. *)
Definition flag_line (c : WizardConfig) (m : ModuleInfo) : string :=
  var_name m +:+ " = " +:+ bool_token (default false (modules c !! name m)).

(** Modelled from the spec: one pair of the tag map literal written by
    [generate_tfvars_content]; the double quotes of the value are escaped. *)
Definition tag_line (kv : string * string) : string :=
  "  " +:+ dq +:+ kv.1 +:+ dq +:+ " = " +:+ dq +:+ escape_quotes kv.2 +:+ dq.

(** Modelled from the spec: the lines of [generate_tfvars_content] in
    their fixed order: region, environment, one flag per registered
    feature in registry order, and the tag map block. *)
Definition generate_lines (c : WizardConfig) : list string :=
  region_line c :: environment_line c ::
  map (flag_line c) AVAILABLE_MODULES ++
  "common_tags = {" :: map tag_line (map_to_list (tags c)) ++ ["}"].

(** Modelled from the spec: [generate_tfvars_content] of
    [wizard/generator.py], which is not part of the sources at hand. *)
Definition generate_tfvars_content (c : WizardConfig) : string :=
  Text.join Text.newline (generate_lines c).

(** Modelled from the spec: a helper of the line shapes of
    [parse_tfvars_content]: the longest prefix of characters of a class. *)
Fixpoint take_while (p : ascii → bool) (s : string) : string :=
  match s with
  | String c s' => if p c then String c (take_while p s') else EmptyString
  | EmptyString => EmptyString
  end.

(** Modelled from the spec: a helper of the line shapes of
    [parse_tfvars_content]: what follows that prefix. *)
Fixpoint drop_while (p : ascii → bool) (s : string) : string :=
  match s with
  | String c s' => if p c then drop_while p s' else s
  | EmptyString => EmptyString
  end.

(** Modelled from the spec: the head of an assignment line of the parser
    of [wizard/generator.py], blanks, a key of word characters, blanks, an
    equals sign, blanks; the key and what follows. *)
Definition split_assignment (line : string) : option (string * string) :=
  let s := Text.lstrip line in
  match take_while Text.isword s with
  | EmptyString => None
  | key =>
      match Text.lstrip (drop_while Text.isword s) with
      | String "=" s' => Some (key, Text.lstrip s')
      | _ => None
      end
  end.

(** Modelled from the spec: a helper of the quoted values of
    [parse_tfvars_content]: the text before the last double quote of [s],
    when only blanks follow that quote. *)
Fixpoint until_last_quote (s : string) : option string :=
  match s with
  | EmptyString => None
  | String c s' =>
      match until_last_quote s' with
      | Some v => Some (String c v)
      | None =>
          if Text.is_dquote c && Text.all Text.isspace s'
          then Some EmptyString else None
      end
  end.

(** Modelled from the spec: a double-quoted value that ends the line, as
    the parser of [wizard/generator.py] captures it, before unescaping. *)
Definition quoted_value (s : string) : option string :=
  match s with
  | String c s' => if Text.is_dquote c then until_last_quote s' else None
  | EmptyString => None
  end.

(** Modelled from the spec: the quoted-string assignment shape of
    [parse_tfvars_content], capturing the key and the unescaped value. *)
Definition match_string_assignment (line : string) : option (string * string) :=
  match split_assignment line with
  | Some (key, s) =>
      match quoted_value s with
      | Some v => Some (key, unescape_quotes v)
      | None => None
      end
  | None => None
  end.

(** Modelled from the spec: the boolean literal that ends a line of
    [parse_tfvars_content], [true] or [false] and then blanks only. *)
Definition bool_literal (s : string) : option bool :=
  match Text.strip_prefix "true" s with
  | Some r => if Text.all Text.isspace r then Some true else None
  | None =>
      match Text.strip_prefix "false" s with
      | Some r => if Text.all Text.isspace r then Some false else None
      | None => None
      end
  end.

(** Modelled from the spec: the bare-boolean assignment shape of
    [parse_tfvars_content], capturing the key and the boolean literal. *)
Definition match_bool_assignment (line : string) : option (string * bool) :=
  match split_assignment line with
  | Some (key, s) =>
      match bool_literal s with
      | Some b => Some (key, b)
      | None => None
      end
  | None => None
  end.

(** Modelled from the spec: the opening line of the tag map block that
    [parse_tfvars_content] recognises. *)
Definition is_tags_open (line : string) : bool :=
  match split_assignment line with
  | Some (key, String "{" r) =>
      String.eqb key "common_tags" && Text.all Text.isspace r
  | _ => false
  end.

(** Modelled from the spec: the closing line of the tag map block. *)
Definition is_block_close (line : string) : bool :=
  match Text.lstrip line with
  | String "}" r => Text.all Text.isspace r
  | _ => false
  end.

(** Modelled from the spec: the characters of a quoted key in
    [parse_tfvars_content], any but the double quote. *)
Definition not_dquote (c : ascii) : bool := negb (Text.is_dquote c).

(** Modelled from the spec: a quoted-key, quoted-value pair inside the tag
    map block, as [parse_tfvars_content] captures it. *)
Definition match_tag_pair (line : string) : option (string * string) :=
  match Text.lstrip line with
  | String q s =>
      if Text.is_dquote q then
        match take_while not_dquote s, drop_while not_dquote s with
        | String k0 k', String _ s' =>
            match Text.lstrip s' with
            | String "=" s'' =>
                match quoted_value (Text.lstrip s'') with
                | Some v => Some (String k0 k', unescape_quotes v)
                | None => None
                end
            | _ => None
            end
        | _, _ => None
        end
      else None
  | EmptyString => None
  end.

(** Modelled from the spec: the reverse mapping from a registered flag
    name to its feature name. *)
Definition flag_to_name (flag : string) : option string :=
  name <$> List.find (λ m, String.eqb (var_name m) flag) AVAILABLE_MODULES.

(** Modelled from the spec: where [parse_tfvars_content] routes a
    quoted-string assignment: the two named scalars. *)
Definition route_string (key v : string) (c : WizardConfig) : WizardConfig :=
  if String.eqb key "aws_region" then set_region v c
  else if String.eqb key "environment" then set_environment v c
  else c.

(** Modelled from the spec: where [parse_tfvars_content] routes a boolean
    assignment: the feature map, for a registered flag name. *)
Definition route_bool (key : string) (b : bool) (c : WizardConfig) : WizardConfig :=
  match flag_to_name key with
  | Some n => set_modules (λ ms, <[n := b]> ms) c
  | None => c
  end.

(** Modelled from the spec: the states of the parser of
    [wizard/generator.py]. *)
Inductive parser_state := SCANNING | IN_TAG_BLOCK | DONE.

(** Modelled from the spec: one line of input in [parse_tfvars_content]. *)
Definition parse_line (st : parser_state * WizardConfig) (line : string)
  : parser_state * WizardConfig :=
  match st with
  | (SCANNING, c) =>
      if is_tags_open line then (IN_TAG_BLOCK, c)
      else match match_string_assignment line with
           | Some (key, v) => (SCANNING, route_string key v c)
           | None =>
               match match_bool_assignment line with
               | Some (key, b) => (SCANNING, route_bool key b c)
               | None => (SCANNING, c)
               end
           end
  | (IN_TAG_BLOCK, c) =>
      if is_block_close line then (SCANNING, c)
      else match match_tag_pair line with
           | Some (key, v) => (IN_TAG_BLOCK, set_tags (λ ts, <[key := v]> ts) c)
           | None => (IN_TAG_BLOCK, c)
           end
  | (DONE, c) => (DONE, c)
  end.

(** Modelled from the spec: the single forward pass over the lines, which
    ends in [DONE] at the end of the input. *)
Definition parse_run (text : string) : parser_state * WizardConfig :=
  let '(_, c) := foldl parse_line (SCANNING, default_config)
                   (Text.split Text.newline text) in
  (DONE, c).

(** Modelled from the spec: [parse_tfvars_content] of
    [wizard/generator.py], which is not part of the sources at hand. *)
Definition parse_tfvars_content (text : string) : WizardConfig :=
  (parse_run text).2.

(** Modelled from the spec: whether a line is a boolean assignment to
    [flag], by the boolean assignment shape of [parse_tfvars_content]. *)
Definition assigns_flag (flag line : string) : bool :=
  match match_bool_assignment line with
  | Some (key, _) => String.eqb key flag
  | None => false
  end.

(** Modelled from the spec: the boolean assignment lines of a text that
    assign to [flag]. *)
Definition flag_lines_of (flag text : string) : list string :=
  List.filter (assigns_flag flag) (Text.split Text.newline text).

End Generator.


(* ===================================================================== *)
(** * Auxiliary notions used to state the properties                      *)
(* ===================================================================== *)

Module Props.
Import Re Audit Wizard Generator.

(** A text between double quotes. *)
Definition q (s : string) : string := Audit.dq +:+ s +:+ Audit.dq.

Definition no_newline (s : string) : bool :=
  Text.all (λ c, negb (Text.is_newline c)) s.

Definition no_dquote (s : string) : bool :=
  Text.all (λ c, negb (Text.is_dquote c)) s.

(** Whether a resource has the given type and name. *)
Definition is_named (rtype rname : string) (r : TerraformResource) : Prop :=
  resource_type r = rtype ∧ resource_name r = rname.

(** The pairs that [--tag] collected, none when the option was absent. *)
Definition user_tags (args : Namespace) : list (string * string) :=
  default [] (args_tags args).

(** The value of the last pair with key [k]. *)
Fixpoint last_value (k : string) (l : list (string * string)) : option string :=
  match l with
  | [] => None
  | (k', v) :: l' =>
      match last_value k l' with
      | Some w => Some w
      | None => if String.eqb k' k then Some v else None
      end
  end.

Definition is_readable (f : tf_file) : bool :=
  match tf_read f with ReadOk _ => true | ReadError _ => false end.

(** The warning printed for a file that cannot be read. *)
Definition warning_of (f : tf_file) : list string :=
  match tf_read f with
  | ReadOk _ => []
  | ReadError e => ["Warning: Error parsing " +:+ tf_path f +:+ ": " +:+ e]
  end.

(** Whether a file can be read and declares the variable [n]. *)
Definition declares_variable (n : string) (f : tf_file) : Prop :=
  match tf_read f with
  | ReadOk content => is_Some (_extract_variables content !! n)
  | ReadError _ => False
  end.

(** What the last readable file that declares the variable [n] extracts
    for it. *)
Fixpoint last_declaration (n : string) (fs : list tf_file)
  : option (gmap string string) :=
  match fs with
  | [] => None
  | f :: fs' =>
      match last_declaration n fs' with
      | Some v => Some v
      | None =>
          match tf_read f with
          | ReadOk content => _extract_variables content !! n
          | ReadError _ => None
          end
      end
  end.

(** The entries of a dictionary under the key [k]. *)
Definition entries_for {V} (k : string) (d : gmap string V) : list (string * V) :=
  filter (λ kv, kv.1 = k) (map_to_list d).

(** The text that follows the opening brace at [start_pos] never closes
    it: the scan of [_extract_block_content] ends with a positive count. *)
Fixpoint never_closed (s : string) (brace_count : Z) : bool :=
  match s with
  | EmptyString => (0 <? brace_count)%Z
  | String c s' =>
      (0 <? brace_count)%Z &&
      never_closed s'
        (if Ascii.eqb c "{" then brace_count + 1
         else if Ascii.eqb c "}" then brace_count - 1
         else brace_count)%Z
  end.

(** [needle in s] *)
Fixpoint contains (needle s : string) : bool :=
  match Text.strip_prefix needle s with
  | Some _ => true
  | None =>
      match s with
      | String _ s' => contains needle s'
      | EmptyString => false
      end
  end.

(** The character before the position reached after reading [t]. *)
Fixpoint prev_after (p : option ascii) (t : string) : option ascii :=
  match t with
  | EmptyString => p
  | String x t' => prev_after (Some x) t'
  end.

(** [s] is empty or starts with a character that [a] does not match. *)
Definition stops (fl : flags) (a : atom) (s : string) : Prop :=
  match s with
  | EmptyString => True
  | String x _ => atom_matches fl a x = false
  end.

(** A key as [attr_pattern] captures it: [[a-z_][a-z0-9_]*]. *)
Definition is_identifier (k : string) : bool :=
  match k with
  | String c k' =>
      atom_matches attr_flags ident_start c
      && Text.all (atom_matches attr_flags ident_rest) k'
  | EmptyString => false
  end.

(** A value on one line, not empty, with no blank at either end. *)
Definition is_raw_value (v : string) : bool :=
  match v with
  | String c _ => negb (Text.isspace c)
  | EmptyString => false
  end && no_newline v && String.eqb (Text.rstrip v) v.

(** Assignments, one per line, indented as the body of a nested block,
    followed by [tail]. *)
Fixpoint block_lines (kvs : list (string * string)) (tail : string) : string :=
  match kvs with
  | [] => tail
  | (k, v) :: kvs' =>
      "    " +:+ k +:+ " = " +:+ v +:+ nl +:+ block_lines kvs' tail
  end.

(** A block body that consists of the nested block [rule { ... }] with the
    given assignments. *)
Definition nested_rule (kvs : list (string * string)) : string :=
  nl +:+ "  rule {" +:+ nl +:+ block_lines kvs ("  }" +:+ nl).

(** The text of the nested block itself, braces included. *)
Definition rule_block (kvs : list (string * string)) : string :=
  "rule {" +:+ nl +:+ block_lines kvs "  }".

(** After a value and a newline, [R] lets the lookahead of [attr_pattern]
    succeed: the value ends there. *)
Definition value_end (R : string) : Prop :=
  ∀ p n caps,
    is_Some (run attr_flags attr_lookahead
               {| prev := p; pos := n; rest := nl +:+ R |} caps accept).

(** The key and the raw value of a match of [attr_pattern]. *)
Definition key_value (m : match_obj) : string * string :=
  (group (m_caps m) 1, group (m_caps m) 2).

(** [c'] is [c] moved forward over a text whose characters satisfy [P]. *)
Definition moved (P : ascii → bool) (c c' : cursor) : Prop :=
  ∃ t, rest c = t +:+ rest c' ∧ Text.all P t = true
       ∧ pos c' = pos c + String.length t.

(** Every character that a match of [r] consumes satisfies [P]. *)
Fixpoint consumes_only (fl : flags) (P : ascii → bool) (r : regex) : Prop :=
  match r with
  | RAtom a | RStar a | RPlus a | RPlusLazy a | RRepeat _ a =>
      ∀ x, atom_matches fl a x = true → P x = true
  | RLit l => Text.all P l = true
  | RSeq r1 r2 | RAlt r1 r2 => consumes_only fl P r1 ∧ consumes_only fl P r2
  | RGroup _ r1 => consumes_only fl P r1
  | RLookahead _ | RBol | REol | REnd => True
  end.

(** A lower bound on the number of characters that a match of [r]
    consumes. *)
Fixpoint min_len (r : regex) : nat :=
  match r with
  | RAtom _ | RPlus _ | RPlusLazy _ => 1
  | RLit l => String.length l
  | RRepeat m _ => m
  | RSeq r1 r2 => min_len r1 + min_len r2
  | RAlt r1 r2 => Nat.min (min_len r1) (min_len r2)
  | RGroup _ r1 => min_len r1
  | RStar _ | RLookahead _ | RBol | REol | REnd => 0
  end.

(** A pattern without groups, lookahead, [$] and [\Z]. *)
Fixpoint simple (r : regex) : Prop :=
  match r with
  | RAtom _ | RLit _ | RStar _ | RPlus _ | RPlusLazy _ | RRepeat _ _ | RBol => True
  | RSeq r1 r2 | RAlt r1 r2 => simple r1 ∧ simple r2
  | RGroup _ _ | RLookahead _ | REol | REnd => False
  end.

(** [w] is empty or starts with a character outside [P]. *)
Definition starts_outside (P : ascii → bool) (w : string) : Prop :=
  match w with
  | String x _ => P x = false
  | EmptyString => True
  end.

(** [k], on the subject followed by [w], and [k'], on the subject alone,
    succeed at the same positions that follow a prefix of [u] made of
    characters of [P]. *)
Definition agree (P : ascii → bool) (w u : string) (k k' : cont) : Prop :=
  ∀ t u' p n caps,
    u = t +:+ u' → Text.all P t = true →
    is_Some (k {| prev := p; pos := n; rest := u' +:+ w |} caps)
    ↔ is_Some (k' {| prev := p; pos := n; rest := u' |} caps).

(** The two validation patterns without their anchors. *)
Definition region_body : regex :=
  (RRepeat 2 lower ⨾ RLit "-" ⨾ RPlus lower ⨾ RLit "-" ⨾ RPlus ADigit)%re.

Definition environment_body : regex := RPlus alnum_hyphen.

(** [pattern.match] succeeds on [s] for the pattern [^body$]. *)
Definition matches_anchored (body : regex) (s : string) : Prop :=
  is_Some (run no_flags (RBol ⨾ body)%re (start_of s) []
             (λ c caps, run no_flags REol c caps accept)).

(** [pattern.fullmatch] succeeds on [s] for the pattern [^body$]. *)
Definition fullmatches_anchored (body : regex) (s : string) : Prop :=
  is_Some (run no_flags (RBol ⨾ body)%re (start_of s) []
             (λ c caps, run no_flags REol c caps
                          (λ c caps, if at_end c then Some (c, caps) else None))).

(** The characters of a region name. *)
Definition region_char (x : ascii) : bool :=
  Text.islower x || Text.isdigit x || Ascii.eqb x "-".

(** The characters of an environment name. *)
Definition environment_char (x : ascii) : bool :=
  Text.islower x || Text.isupper x || Text.isdigit x || Ascii.eqb x "-".

(** The whole of [s] matches the region pattern, as [re.fullmatch] decides. *)
Definition is_region (s : string) : bool :=
  bool_decide (is_Some (re_fullmatch no_flags AWS_REGION_PATTERN s)).

(** The whole of [s] matches the environment pattern. *)
Definition is_environment (s : string) : bool :=
  bool_decide (is_Some (re_fullmatch no_flags ENVIRONMENT_PATTERN s)).

(** No newline in the region, in the environment, or in a tag. *)
Definition newline_free (c : WizardConfig) : Prop :=
  no_newline (region c) = true ∧ no_newline (environment c) = true
  ∧ map_Forall (λ k v, no_newline k = true ∧ no_newline v = true) (tags c).

(** What the wizard's input validation guarantees: a region and an
    environment that match their patterns, tag keys that are not blank, and
    tag values on one line. *)
Definition validated (c : WizardConfig) : Prop :=
  is_region (region c) = true ∧ is_environment (environment c) = true
  ∧ map_Forall (λ k v, validate_tag_key (PyStr k) = true
                       ∧ no_newline v = true) (tags c).

(** The feature map as the flag lines show it: every registered feature,
    false when the configuration does not mention it. *)
Definition registry_view (mods : gmap string bool) : gmap string bool :=
  foldl (λ acc m, <[name m := default false (mods !! name m)]> acc) ∅
        AVAILABLE_MODULES.

(** A tag key that the tag map literal can carry: on one line and without
    a double quote. *)
Definition plain_key (k : string) : Prop :=
  no_dquote k = true ∧ no_newline k = true.

(** ** Blocks, matches and what the wizard collects *)

(** Braces that pair up: read from a depth, [s] never closes more braces
    than are open and ends at depth zero. *)
Fixpoint balanced_from (s : string) (depth : Z) : bool :=
  match s with
  | EmptyString => (depth =? 0)%Z
  | String c s' =>
      if Ascii.eqb c "{" then balanced_from s' (depth + 1)
      else if Ascii.eqb c "}" then (0 <? depth)%Z && balanced_from s' (depth - 1)
      else balanced_from s' depth
  end.

Definition balanced (s : string) : bool := balanced_from s 0.

(** [c'] is [c] after reading the text [t]. *)
Definition reads (t : string) (c c' : cursor) : Prop :=
  rest c = t +:+ rest c' ∧ pos c' = pos c + String.length t
  ∧ prev c' = prev_after (prev c) t.

(** [r] matches the text between [c] and [c'], and the groups it closes
    turn the captures [caps] into [caps']. *)
Fixpoint spans (fl : flags) (r : regex) (c : cursor) (caps : captures)
    (c' : cursor) (caps' : captures) : Prop :=
  match r with
  | RAtom a =>
      ∃ x, reads (String x EmptyString) c c' ∧ atom_matches fl a x = true
           ∧ caps' = caps
  | RLit l => reads l c c' ∧ caps' = caps
  | RStar a =>
      ∃ t, reads t c c' ∧ Text.all (atom_matches fl a) t = true ∧ caps' = caps
  | RPlus a | RPlusLazy a =>
      ∃ t, reads t c c' ∧ t ≠ EmptyString
           ∧ Text.all (atom_matches fl a) t = true ∧ caps' = caps
  | RRepeat m a =>
      ∃ t, reads t c c' ∧ String.length t = m
           ∧ Text.all (atom_matches fl a) t = true ∧ caps' = caps
  | RSeq r1 r2 =>
      ∃ c1 caps1, spans fl r1 c caps c1 caps1 ∧ spans fl r2 c1 caps1 c' caps'
  | RAlt r1 r2 => spans fl r1 c caps c' caps' ∨ spans fl r2 c caps c' caps'
  | RGroup i r1 =>
      ∃ caps1, spans fl r1 c caps c' caps1
               ∧ caps' = (i, Text.take (pos c' - pos c) (rest c)) :: caps1
  | RLookahead r1 =>
      c' = c ∧ caps' = caps ∧ is_Some (run fl r1 c caps accept)
  | RBol => c' = c ∧ caps' = caps ∧ at_bol fl c = true
  | REol => c' = c ∧ caps' = caps ∧ at_eol fl c = true
  | REnd => c' = c ∧ caps' = caps ∧ at_end c = true
  end.

(** The cursor [c] stands at its position in the subject [s]. *)
Definition at_position (s : string) (c : cursor) : Prop :=
  rest c = Text.drop (pos c) s ∧ pos c ≤ String.length s.

(** A match object of [r] in the subject [s]: [r] spans the text between
    its start and its end, and captures its groups. *)
Definition match_of (fl : flags) (r : regex) (s : string) (m : match_obj) : Prop :=
  ∃ c0 c1, at_position s c0 ∧ spans fl r c0 [] c1 (m_caps m)
           ∧ m_start m = pos c0 ∧ m_end m = pos c1.

(** Attributes as [_parse_attributes] builds them: identifiers as keys and
    stripped texts as values. *)
Definition well_formed_attributes (attrs : gmap string string) : Prop :=
  map_Forall (λ key value, is_identifier key = true ∧ Text.strip value = value) attrs.

(** A text of blanks. *)
Definition blank (s : string) : bool := Text.all Text.isspace s.

(** The header of a resource block for the type [t] and the name [n]:
    the word [resource], blanks, the quoted type, blanks, the quoted name,
    possibly blanks, and the opening brace. *)
Definition is_header (t n h : string) : Prop :=
  ∃ ws1 ws2 ws3,
    h = "resource" +:+ ws1 +:+ q t +:+ ws2 +:+ q n +:+ ws3 +:+ "{"
    ∧ ws1 ≠ EmptyString ∧ ws2 ≠ EmptyString
    ∧ blank ws1 = true ∧ blank ws2 = true ∧ blank ws3 = true.

(** The warnings of the files that cannot be read, in the order of the
    files. *)
Definition warnings (fs : list tf_file) : list string :=
  concat (map warning_of fs).

(** The console writes the lines, one after the other, after what was
    printed. *)
Fixpoint accepts (out : console) (printed lines : list string) : Prop :=
  match lines with
  | [] => True
  | line :: lines' =>
      out printed line = None ∧ accepts out (printed ++ [line]) lines'
  end.

(** What one file adds to a module: what its content holds, and nothing
    when it cannot be read. *)
Definition contribution (m : TerraformModule) (f : tf_file) : TerraformModule :=
  match tf_read f with
  | ReadOk content => parse_content content (tf_path f) m
  | ReadError _ => m
  end.

(** The module that the files of a directory build. *)
Definition module_of (path : string) (fs : list tf_file) : TerraformModule :=
  foldl contribution (new_module path) fs.


(** The resources that one file of the directory contributes. *)
Definition resources_of (f : tf_file) : list TerraformResource :=
  match tf_read f with
  | ReadOk content => _extract_resources content (tf_path f)
  | ReadError _ => []
  end.

(** A header for the type [t] and the name [n] starts at position [i] of
    [content]. *)
Definition header_at (t n content : string) (i : nat) : Prop :=
  ∃ h tail, is_header t n h ∧ Text.drop i content = h +:+ tail.

(** A namespace whose values went through the converters that the
    argument parser applies: [validate_region_arg], [validate_environment_arg]
    and, for each [--tag], [parse_tag]. *)
Definition converted_args (args : Namespace) : Prop :=
  (∀ r, args_region args = Some r → ∃ raw, validate_region_arg raw = Converted r)
  ∧ (∀ e, args_env args = Some e → ∃ raw, validate_environment_arg raw = Converted e)
  ∧ (∀ kvs, args_tags args = Some kvs →
       Forall (λ kv, ∃ raw, parse_tag raw = Converted kv) kvs).

(** The count that a summary gives for a severity. *)
Definition count_of (s : Report.Severity) (summary : Report.AuditSummary) : nat :=
  match s with
  | Report.CRITICAL => Report.critical summary
  | Report.HIGH => Report.high summary
  | Report.MEDIUM => Report.medium summary
  | Report.LOW => Report.low summary
  end.

End Props.

(* ===================================================================== *)
(** * Concrete inputs                                                     *)
(* ===================================================================== *)

Module Examples.
Import Re Audit Wizard Generator Props.

(** The one-line resource of the specification. *)
Definition s3_one_line : string :=
  "resource " +:+ q "aws_s3_bucket" +:+ " " +:+ q "example" +:+
  " { bucket = " +:+ q "my-bucket" +:+ " versioning = true }".

(** The same resource with one attribute per line. *)
Definition s3_multi_line : string :=
  "resource " +:+ q "aws_s3_bucket" +:+ " " +:+ q "example" +:+ " {" +:+ nl +:+
  "  bucket = " +:+ q "my-bucket" +:+ nl +:+
  "  versioning = true" +:+ nl +:+ "}".

(** A resource whose opening brace is never closed. *)
Definition unclosed : string :=
  "resource " +:+ q "a" +:+ " " +:+ q "b" +:+ " { x = 1".

(** A body with a nested block. *)
Definition nested_body : string :=
  nl +:+ "  bucket = " +:+ q "x" +:+ nl +:+
  "  rule {" +:+ nl +:+
  "    apply = " +:+ q "y" +:+ nl +:+
  "  }" +:+ nl.

Definition nested_block : string :=
  "rule {" +:+ nl +:+ "    apply = " +:+ q "y" +:+ nl +:+ "  }".

Definition res (t n : string) (line : nat) : TerraformResource :=
  {| resource_type := t; resource_name := n; attributes := ∅;
     file_path := "main.tf"; line_number := line |}.

Definition module_with_duplicates : TerraformModule :=
  {| module_path := "modules/demo";
     resources := [res "aws_kms_key" "k" 1; res "aws_s3_bucket" "b" 5;
                   res "aws_s3_bucket" "b" 9];
     variables := ∅; outputs := ∅; locals := ∅ |}.

Definition variables_tf : tf_file :=
  {| tf_path := "modules/demo/variables.tf";
     tf_read := ReadOk ("variable " +:+ q "region" +:+ " {" +:+ nl +:+
                        "  default = " +:+ q "us-east-1" +:+ nl +:+ "}" +:+ nl) |}.

Definition overrides_tf : tf_file :=
  {| tf_path := "modules/demo/overrides.tf";
     tf_read := ReadOk ("variable " +:+ q "region" +:+ " {" +:+ nl +:+
                        "  default = " +:+ q "eu-west-1" +:+ nl +:+ "}" +:+ nl) |}.

Definition broken_tf : tf_file :=
  {| tf_path := "modules/demo/broken.tf";
     tf_read := ReadError "'utf-8' codec can't decode byte 0xff" |}.

Definition demo_fs : filesystem :=
  {[ "modules/demo" := Directory [variables_tf; broken_tf; overrides_tf] ]}.

(** A console that writes every line. *)
Definition quiet : console := λ _ _, None.






(** A tag value that spans three lines. *)
Definition injected : WizardConfig :=
  {| modules := ∅; region := "us-east-1"; environment := "dev";
     tags := {[ "note" := "x" +:+ nl +:+ "enable_macie = true" +:+ nl +:+ "y" ]} |}.

(** What [build_config_from_args] returns without [--all-modules]. *)
Definition no_modules : WizardConfig :=
  {| modules := ∅; region := "us-east-1"; environment := "dev";
     tags := {[ "Environment" := "dev"; "ManagedBy" := "Terraform" ]} |}.

Definition all_enabled : gmap string bool :=
  {[ "cloudtrail" := true; "config" := true; "guardduty" := true;
     "detective" := true; "securityhub" := true; "accessanalyzer" := true;
     "inspector" := true; "macie" := true ]}.

(** A tag key with a double quote in it. *)
Definition quoted_key : WizardConfig :=
  {| modules := all_enabled; region := "us-east-1"; environment := "dev";
     tags := {[ "a" +:+ Audit.dq +:+ "b" := "v" ]} |}.

(** A tag key that spans two lines. *)
Definition two_line_key : WizardConfig :=
  {| modules := all_enabled; region := "us-east-1"; environment := "dev";
     tags := {[ "a" +:+ nl +:+ "b" := "v" ]} |}.

(** The configuration of [test_tags_with_special_characters]. *)
Definition special_characters : WizardConfig :=
  {| modules := all_enabled; region := "us-east-1"; environment := "test";
     tags := {[ "Description" := "Value with " +:+ q "quotes";
                "Normal" := "simple" ]} |}.

(** A file with the multi-line resource. *)
Definition s3_file : tf_file :=
  {| tf_path := "modules/s3/main.tf"; tf_read := ReadOk s3_multi_line |}.

(** A resource block after a comment line. *)
Definition kms_header : string :=
  "resource " +:+ q "aws_kms_key" +:+ " " +:+ q "k" +:+ " {".

Definition kms_body : string := nl +:+ "  tags = { a = 1 }" +:+ nl.

Definition kms_file : tf_file :=
  {| tf_path := "modules/kms/main.tf";
     tf_read := ReadOk (("# key" +:+ nl) +:+ kms_header +:+ kms_body +:+ "}" +:+ nl) |}.

(** A command line with every option. *)
Definition cli_args : Namespace :=
  {| args_all_modules := true; args_region := Some "eu-west-1";
     args_env := Some "prod"; args_tags := Some [("Team", "Security")] |}.

End Examples.


Import Re Audit Wizard Generator Props Examples.

(* ===================================================================== *)
(** * Text                                                             *)
(* ===================================================================== *)

(** ** Lines *)

Lemma append_cons (c : ascii) (s t : string) : String c s +:+ t = String c (s +:+ t).
Proof. reflexivity. Qed.

Lemma append_nil (t : string) : EmptyString +:+ t = t.
Proof. reflexivity. Qed.

Lemma append_assoc (a b c : string) : (a +:+ b) +:+ c = a +:+ (b +:+ c).
Proof. induction a as [|x a IH]; [done|]. by rewrite !append_cons, IH. Qed.

Lemma append_empty_r (a : string) : a +:+ EmptyString = a.
Proof. induction a as [|x a IH]; [done|]. by rewrite append_cons, IH. Qed.

Lemma length_append (a b : string) :
  String.length (a +:+ b) = String.length a + String.length b.
Proof. induction a as [|x a IH]; [done|]. rewrite append_cons. simpl. by rewrite IH. Qed.

Lemma all_app (p : ascii → bool) (s t : string) :
  Text.all p (s +:+ t) = Text.all p s && Text.all p t.
Proof.
  induction s as [|c s IH]; [done|].
  rewrite append_cons. simpl. by rewrite IH, andb_assoc.
Qed.

Lemma split_one_line (s : string) :
  no_newline s = true → Text.split Text.newline s = [s].
Proof.
  induction s as [|c s IH]; [done|]. simpl.
  intros [Hc Hs]%andb_true_iff. rewrite (IH Hs).
  unfold Text.is_newline in Hc. by destruct (Ascii.eqb c Text.newline).
Qed.

Lemma split_first_line (s rest : string) :
  no_newline s = true →
  Text.split Text.newline (s +:+ String Text.newline rest)
  = s :: Text.split Text.newline rest.
Proof.
  induction s as [|c s IH].
  - intros _. by rewrite append_nil.
  - intros [Hc Hs]%andb_true_iff. rewrite append_cons. simpl.
    rewrite (IH Hs). unfold Text.is_newline in Hc.
    by destruct (Ascii.eqb c Text.newline).
Qed.

(** Splitting what was joined gives the lines back. *)
Lemma split_join (ls : list string) :
  ls ≠ [] → Forall (λ l, no_newline l = true) ls →
  Text.split Text.newline (Text.join Text.newline ls) = ls.
Proof.
  intros Hne Hall. induction Hall as [|l ls Hl Hls IH]; [done|].
  destruct ls as [|l' ls]; simpl.
  - by apply split_one_line.
  - rewrite (split_first_line _ _ Hl). f_equal. by apply IH.
Qed.

Lemma take_while_app (p : ascii → bool) (k : string) (x : ascii) (r : string) :
  Text.all p k = true → p x = false →
  take_while p (k +:+ String x r) = k.
Proof.
  intros Hk Hx. induction k as [|c k IH].
  - rewrite append_nil. simpl. by rewrite Hx.
  - simpl in Hk. apply andb_true_iff in Hk as [Hc Hk].
    rewrite append_cons. simpl. by rewrite Hc, (IH Hk).
Qed.

Lemma drop_while_app (p : ascii → bool) (k : string) (x : ascii) (r : string) :
  Text.all p k = true → p x = false →
  drop_while p (k +:+ String x r) = String x r.
Proof.
  intros Hk Hx. induction k as [|c k IH].
  - rewrite append_nil. simpl. by rewrite Hx.
  - simpl in Hk. apply andb_true_iff in Hk as [Hc Hk].
    rewrite append_cons. simpl. by rewrite Hc, (IH Hk).
Qed.

Lemma until_last_quote_app (s : string) :
  until_last_quote (s +:+ Generator.dq) = Some s.
Proof.
  induction s as [|c s IH]; [done|].
  rewrite append_cons. simpl. by rewrite IH.
Qed.

Lemma escape_quotes_head (s : string) :
  match escape_quotes s with
  | String d _ => Text.is_dquote d = false
  | EmptyString => s = EmptyString
  end.
Proof.
  destruct s as [|c s]; [done|]. simpl.
  destruct (Text.is_dquote c) eqn:E; [done|]. done.
Qed.

(** Unescaping recovers what was escaped. *)
Lemma unescape_escape (s : string) :
  unescape_quotes (escape_quotes s) = s.
Proof.
  induction s as [|c s IH]; [done|]. simpl.
  destruct (Text.is_dquote c) eqn:E.
  - simpl. rewrite IH. f_equal. unfold Text.is_dquote in E. symmetry.
    by apply Ascii.eqb_eq.
  - pose proof (escape_quotes_head s) as Hh. simpl.
    destruct (escape_quotes s) as [|d t] eqn:Es.
    + by subst.
    + rewrite Hh, andb_false_r. by rewrite IH.
Qed.

Lemma unescape_no_dquote (s : string) :
  no_dquote s = true → unescape_quotes s = s.
Proof.
  induction s as [|c s IH]; [done|]. intros [Hc Hs]%andb_true_iff.
  specialize (IH Hs). simpl. destruct s as [|d t]; [done|].
  simpl in Hs. apply andb_true_iff in Hs as [Hd _].
  apply negb_true_iff in Hd. rewrite Hd, andb_false_r. by rewrite IH.
Qed.

Lemma escape_no_newline (s : string) :
  no_newline s = true → no_newline (escape_quotes s) = true.
Proof.
  unfold no_newline. induction s as [|c s IH]; [done|].
  intros [Hc Hs]%andb_true_iff. simpl.
  destruct (Text.is_dquote c); simpl; rewrite ?Hc; by apply IH.
Qed.

(** ** Text primitives *)

Lemma length_drop (n : nat) (s : string) :
  String.length (Text.drop n s) = String.length s - n.
Proof.
  revert s. induction n as [|n IH]; intros [|c s]; simpl; try done. 
Qed.

Lemma take_length_le (n : nat) (s : string) :
  String.length s ≤ n → Text.take n s = s.
Proof.
  revert s. induction n as [|n IH]; intros [|c s]; simpl; try done; try lia.
  intros ?. f_equal. apply IH. lia.
Qed.

(** Slicing with bounds inside the string. *)
Lemma slice_inside (s : string) (a b : nat) :
  a ≤ String.length s → b ≤ String.length s →
  Text.slice s (Z.of_nat a) (Z.of_nat b) = Text.take (b - a) (Text.drop a s).
Proof.
  intros Ha Hb. unfold Text.slice, Text.slice_bound.
  destruct (Z.ltb_spec (Z.of_nat a) 0); [lia|].
  destruct (Z.ltb_spec (Z.of_nat b) 0); [lia|].
  rewrite !Z.min_l by lia. rewrite Nat2Z.id. f_equal. lia.
Qed.

(* ===================================================================== *)
(** * The matcher                                                      *)
(* ===================================================================== *)

(** ** What a match consumes *)

Section consumption.
Context (fl : flags) (P : ascii → bool).

Lemma moved_refl (c : cursor) : moved P c c.
Proof. exists EmptyString. repeat split. simpl. lia. Qed.

Lemma moved_trans (c1 c2 c3 : cursor) :
  moved P c1 c2 → moved P c2 c3 → moved P c1 c3.
Proof.
  intros (t & E1 & H1 & N1) (u & E2 & H2 & N2). exists (t +:+ u).
  rewrite E1, E2, append_assoc, all_app, H1, H2, length_append. repeat split. lia.
Qed.

Lemma moved_one (p : option ascii) (n : nat) (x : ascii) (s : string) :
  P x = true →
  moved P {| prev := p; pos := n; rest := String x s |}
          {| prev := Some x; pos := S n; rest := s |}.
Proof.
  intros Hx. exists (String x EmptyString). simpl. rewrite Hx. repeat split. lia.
Qed.

Lemma star_greedy_moves (a : atom) (s : string) (p : option ascii) (n : nat)
    (caps : captures) (k : cont) (res : cursor * captures) :
  (∀ x, atom_matches fl a x = true → P x = true) →
  star_greedy fl a s p n caps k = Some res →
  ∃ c', moved P {| prev := p; pos := n; rest := s |} c' ∧ k c' caps = Some res.
Proof.
  intros Ha. revert p n. induction s as [|x s IH]; intros p n; simpl.
  - intros H. eexists. split; [apply moved_refl|done].
  - destruct (atom_matches fl a x) eqn:E.
    + destruct (star_greedy fl a s (Some x) (S n) caps k) as [r|] eqn:Es.
      * intros [= <-]. destruct (IH _ _ Es) as (c' & Hm & Hk).
        exists c'. split; [|done].
        eapply moved_trans; [apply moved_one; by apply Ha|done].
      * intros H. eexists. split; [apply moved_refl|done].
    + intros H. eexists. split; [apply moved_refl|done].
Qed.

Lemma plus_lazy_moves (a : atom) (s : string) (p : option ascii) (n : nat)
    (caps : captures) (k : cont) (res : cursor * captures) :
  (∀ x, atom_matches fl a x = true → P x = true) →
  plus_lazy fl a s n caps k = Some res →
  ∃ c', moved P {| prev := p; pos := n; rest := s |} c' ∧ k c' caps = Some res.
Proof.
  intros Ha. revert p n. induction s as [|x s IH]; intros p n; simpl; [done|].
  destruct (atom_matches fl a x) eqn:E; [|done].
  destruct (k _ caps) as [r|] eqn:Ek.
  - intros [= <-]. eexists. split; [apply moved_one; by apply Ha|done].
  - intros H. destruct (IH (Some x) _ H) as (c' & Hm & Hk). exists c'.
    split; [|done]. eapply moved_trans; [apply moved_one; by apply Ha|done].
Qed.

Lemma repeat_exact_moves (a : atom) (m : nat) (s : string) (p : option ascii)
    (n : nat) (caps : captures) (k : cont) (res : cursor * captures) :
  (∀ x, atom_matches fl a x = true → P x = true) →
  repeat_exact fl a m s p n caps k = Some res →
  ∃ c', moved P {| prev := p; pos := n; rest := s |} c' ∧ k c' caps = Some res.
Proof.
  intros Ha. revert s p n. induction m as [|m IH]; intros s p n; simpl.
  - intros H. eexists. split; [apply moved_refl|done].
  - destruct s as [|x s]; [done|]. destruct (atom_matches fl a x) eqn:E; [|done].
    intros H. destruct (IH _ _ _ H) as (c' & Hm & Hk). exists c'.
    split; [|done]. eapply moved_trans; [apply moved_one; by apply Ha|done].
Qed.

Lemma literal_moves (l s : string) (p : option ascii) (n : nat)
    (caps : captures) (k : cont) (res : cursor * captures) :
  Text.all P l = true →
  literal l s p n caps k = Some res →
  ∃ c', moved P {| prev := p; pos := n; rest := s |} c' ∧ k c' caps = Some res.
Proof.
  revert s p n. induction l as [|y l IH]; intros s p n; simpl.
  - intros _ H. eexists. split; [apply moved_refl|done].
  - intros [Hy Hl]%andb_true_iff. destruct s as [|x s]; [done|].
    destruct (Ascii.eqb x y) eqn:E; [|done]. apply Ascii.eqb_eq in E as ->.
    intros H. destruct (IH _ _ _ Hl H) as (c' & Hm & Hk). exists c'.
    split; [|done]. eapply moved_trans; [by apply moved_one|done].
Qed.

(** A successful run of [r] moves the cursor forward over characters that
    [r] may consume, and then continues. *)
Lemma run_moves (r : regex) (c : cursor) (caps : captures) (k : cont)
    (res : cursor * captures) :
  consumes_only fl P r →
  run fl r c caps k = Some res →
  ∃ c' caps', moved P c c' ∧ k c' caps' = Some res.
Proof.
  revert c caps k. induction r as [a|l|a|a|a|m a|r1 IH1 r2 IH2|r1 IH1 r2 IH2|i r1 IH1|r1 IH1| | |];
    intros c caps k Hr; simpl in *.
  - destruct c as [p n [|x s]]; simpl; [done|].
    destruct (atom_matches fl a x) eqn:E; [|done]. intros H.
    eexists _, _. split; [apply moved_one; by apply Hr|done].
  - destruct c as [p n s]; simpl. intros H.
    destruct (literal_moves _ _ _ _ _ _ _ Hr H) as (c' & ? & ?). by eexists _, _.
  - destruct c as [p n s]; simpl. intros H.
    destruct (star_greedy_moves _ _ _ _ _ _ _ Hr H) as (c' & ? & ?). by eexists _, _.
  - destruct c as [p n [|x s]]; simpl; [done|].
    destruct (atom_matches fl a x) eqn:E; [|done]. intros H.
    destruct (star_greedy_moves _ _ _ _ _ _ _ Hr H) as (c' & ? & ?).
    eexists _, _. split; [|done].
    eapply moved_trans; [apply moved_one; by apply Hr|done].
  - destruct c as [p n s]; simpl. intros H.
    destruct (plus_lazy_moves _ _ p _ _ _ _ Hr H) as (c' & ? & ?). by eexists _, _.
  - destruct c as [p n s]; simpl. intros H.
    destruct (repeat_exact_moves _ _ _ _ _ _ _ _ Hr H) as (c' & ? & ?). by eexists _, _.
  - destruct Hr as [Hr1 Hr2]. intros H.
    destruct (IH1 _ _ _ Hr1 H) as (c1 & caps1 & Hm1 & H1).
    destruct (IH2 _ _ _ Hr2 H1) as (c2 & caps2 & Hm2 & H2).
    exists c2, caps2. split; [by eapply moved_trans|done].
  - destruct Hr as [Hr1 Hr2].
    destruct (run fl r1 c caps k) as [r|] eqn:E1.
    + intros [= <-]. exact (IH1 _ _ _ Hr1 E1).
    + intros H. exact (IH2 _ _ _ Hr2 H).
  - intros H. destruct (IH1 _ _ _ Hr H) as (c1 & caps1 & Hm1 & H1). by eexists _, _.
  - destruct (run fl r1 c caps accept); [|done]. intros H.
    eexists _, _. split; [apply moved_refl|done].
  - destruct (at_bol fl c); [|done]. intros H.
    eexists _, _. split; [apply moved_refl|done].
  - destruct (at_eol fl c); [|done]. intros H.
    eexists _, _. split; [apply moved_refl|done].
  - destruct (at_end c); [|done]. intros H.
    eexists _, _. split; [apply moved_refl|done].
Qed.

(** When the whole subject matches, all its characters are ones that the
    pattern may consume. *)
Lemma fullmatch_alphabet (r : regex) (s : string) :
  consumes_only fl P r →
  is_Some (re_fullmatch fl r s) → Text.all P s = true.
Proof.
  intros Hr [m Hm]. unfold re_fullmatch in Hm.
  destruct (run fl r (start_of s) [] _) as [res|] eqn:E; [|done].
  destruct (run_moves _ _ _ _ _ Hr E) as (c' & caps' & (t & Et & Ht & _) & Hk).
  unfold at_end in Hk. destruct (rest c') eqn:Er; [|done].
  simpl in Et. rewrite append_empty_r in Et. by subst.
Qed.

End consumption.

(** ** The scan never runs out of rounds *)

Lemma all_true (s : string) : Text.all (λ _, true) s = true.
Proof. by induction s. Qed.

Lemma consumes_anything (fl : flags) (r : regex) : consumes_only fl (λ _, true) r.
Proof. induction r; simpl; auto using all_true. Qed.

(** A match found by the scan starts at or after the cursor and ends at or
    after its start; what is left after it is a suffix of the text that was
    left at the cursor. *)
Lemma search_from_spec (fl : flags) (r : regex) (s : string) (p : option ascii)
    (n st : nat) (c1 : cursor) (caps : captures) :
  search_from fl r s p n = Some (st, (c1, caps)) →
  ∃ skipped t,
    s = skipped +:+ t +:+ rest c1 ∧ st = n + String.length skipped
    ∧ pos c1 = st + String.length t.
Proof.
  revert p n. induction s as [|x s IH]; intros p n; simpl.
  - destruct (run fl r _ [] accept) as [res|] eqn:E; [|done].
    intros [= ? ?]; subst.
    destruct (run_moves fl _ _ _ _ _ _ (consumes_anything fl r) E)
      as (c' & caps' & (t & Et & _ & Ep) & [= ? ?]); subst.
    exists EmptyString, t. simpl in *. split; [done|]. split; lia.
  - destruct (run fl r _ [] accept) as [res|] eqn:E.
    + intros [= ? ?]; subst.
      destruct (run_moves fl _ _ _ _ _ _ (consumes_anything fl r) E)
        as (c' & caps' & (t & Et & _ & Ep) & [= ? ?]); subst.
      exists EmptyString, t. simpl in *. split; [done|]. split; lia.
    + intros H. destruct (IH _ _ H) as (sk & t & -> & -> & Hp).
      exists (String x sk), t. split; [done|]. simpl. split; lia.
Qed.

Lemma finditer_from_fuel (fl : flags) (r : regex) (fuel1 fuel2 : nat) (c : cursor) :
  S (String.length (rest c)) ≤ fuel1 → S (String.length (rest c)) ≤ fuel2 →
  finditer_from fuel1 fl r c = finditer_from fuel2 fl r c.
Proof.
  revert fuel2 c. induction fuel1 as [|f1 IH]; intros [|f2] c H1 H2; try lia.
  cbn [finditer_from]. destruct (search fl r c) as [[st [c1 caps]]|] eqn:E; [|done].
  f_equal. unfold search in E.
  destruct (search_from_spec _ _ _ _ _ _ _ _ E) as (sk & t & Es & -> & Hp).
  assert (String.length (rest c)
          = String.length sk + (String.length t + String.length (rest c1))) as Hl
    by (by rewrite Es, !length_append).
  destruct (Nat.eqb_spec (pos c1) (pos c + String.length sk)) as [Heq|Hne].
  - unfold advance. destruct (rest c1) as [|x s1] eqn:E1; [done|].
    apply IH; simpl in *; lia.
  - assert (t ≠ EmptyString) as Ht by (intros ->; simpl in Hp; lia).
    destruct t as [|y t]; [done|]. simpl in Hl. apply IH; lia.
Qed.

(** More rounds than the length of the subject plus one change nothing:
    [finditer] returns all the matches of the scan. *)
Theorem finditer_fuel_enough (fl : flags) (r : regex) (s : string) (extra : nat) :
  finditer_from (S (String.length s) + extra) fl r (start_of s) = finditer fl r s.
Proof. unfold finditer. apply finditer_from_fuel; simpl; lia. Qed.

(** ** No empty match *)

Section lengths.
Context (fl : flags).

Lemma star_greedy_forward (a : atom) (s : string) (p : option ascii) (n : nat)
    (caps : captures) (k : cont) (res : cursor * captures) :
  star_greedy fl a s p n caps k = Some res →
  ∃ c', n ≤ pos c' ∧ k c' caps = Some res.
Proof.
  revert p n. induction s as [|x s IH]; intros p n; simpl.
  - intros H. eexists. split; [|exact H]. done.
  - destruct (atom_matches fl a x).
    + destruct (star_greedy fl a s (Some x) (S n) caps k) as [r|] eqn:E.
      * intros [= <-]. destruct (IH _ _ E) as (c' & ? & ?). exists c'.
        split; [lia|done].
      * intros H. eexists. split; [|exact H]. done.
    + intros H. eexists. split; [|exact H]. done.
Qed.

Lemma plus_lazy_forward (a : atom) (s : string) (n : nat) (caps : captures)
    (k : cont) (res : cursor * captures) :
  plus_lazy fl a s n caps k = Some res →
  ∃ c', S n ≤ pos c' ∧ k c' caps = Some res.
Proof.
  revert n. induction s as [|x s IH]; intros n; simpl; [done|].
  destruct (atom_matches fl a x); [|done].
  destruct (k _ caps) as [r|] eqn:E.
  - intros [= <-]. eexists. split; [|exact E]. done.
  - intros H. destruct (IH _ H) as (c' & ? & ?). exists c'. split; [lia|done].
Qed.

Lemma repeat_exact_forward (a : atom) (m : nat) (s : string) (p : option ascii)
    (n : nat) (caps : captures) (k : cont) (res : cursor * captures) :
  repeat_exact fl a m s p n caps k = Some res →
  ∃ c', n + m ≤ pos c' ∧ k c' caps = Some res.
Proof.
  revert s p n. induction m as [|m IH]; intros s p n; simpl.
  - intros H. eexists. split; [|exact H]. simpl. lia.
  - destruct s as [|x s]; [done|]. destruct (atom_matches fl a x); [|done].
    intros H. destruct (IH _ _ _ H) as (c' & ? & ?). exists c'. split; [lia|done].
Qed.

Lemma literal_forward (l s : string) (p : option ascii) (n : nat)
    (caps : captures) (k : cont) (res : cursor * captures) :
  literal l s p n caps k = Some res →
  ∃ c', n + String.length l ≤ pos c' ∧ k c' caps = Some res.
Proof.
  revert s p n. induction l as [|y l IH]; intros s p n; simpl.
  - intros H. eexists. split; [|exact H]. simpl. lia.
  - destruct s as [|x s]; [done|]. destruct (Ascii.eqb x y); [|done].
    intros H. destruct (IH _ _ _ H) as (c' & ? & ?). exists c'. split; [lia|done].
Qed.

(** A successful run of [r] moves the cursor by [min_len r] at least. *)
Lemma run_forward (r : regex) (c : cursor) (caps : captures) (k : cont)
    (res : cursor * captures) :
  run fl r c caps k = Some res →
  ∃ c' caps', pos c + min_len r ≤ pos c' ∧ k c' caps' = Some res.
Proof.
  revert c caps k.
  induction r as [a|l|a|a|a|m a|r1 IH1 r2 IH2|r1 IH1 r2 IH2|i r1 IH1|r1 IH1| | |];
    intros c caps k; simpl.
  - destruct (rest c) as [|x s]; [done|]. destruct (atom_matches fl a x); [|done].
    intros H. eexists _, _. split; [|exact H]. simpl. lia.
  - intros H. destruct (literal_forward _ _ _ _ _ _ _ H) as (c' & ? & ?).
    by eexists _, _.
  - intros H. destruct (star_greedy_forward _ _ _ _ _ _ _ H) as (c' & ? & ?).
    exists c', caps. split; [lia|done].
  - destruct (rest c) as [|x s]; [done|]. destruct (atom_matches fl a x); [|done].
    intros H. destruct (star_greedy_forward _ _ _ _ _ _ _ H) as (c' & ? & ?).
    exists c', caps. split; [lia|done].
  - intros H. destruct (plus_lazy_forward _ _ _ _ _ _ H) as (c' & ? & ?).
    exists c', caps. split; [lia|done].
  - intros H. destruct (repeat_exact_forward _ _ _ _ _ _ _ _ H) as (c' & ? & ?).
    by eexists _, _.
  - intros H. destruct (IH1 _ _ _ H) as (c1 & caps1 & ? & H1).
    destruct (IH2 _ _ _ H1) as (c2 & caps2 & ? & H2).
    exists c2, caps2. split; [lia|done].
  - destruct (run fl r1 c caps k) as [r|] eqn:E.
    + intros [= <-]. destruct (IH1 _ _ _ E) as (c' & caps' & ? & ?).
      exists c', caps'. split; [lia|done].
    + intros H. destruct (IH2 _ _ _ H) as (c' & caps' & ? & ?).
      exists c', caps'. split; [lia|done].
  - intros H. destruct (IH1 _ _ _ H) as (c' & caps' & ? & ?). by eexists _, _.
  - destruct (run fl r1 c caps accept); [|done]. intros H.
    eexists _, _. split; [|exact H]. lia.
  - destruct (at_bol fl c); [|done]. intros H. eexists _, _. split; [|exact H]. lia.
  - destruct (at_eol fl c); [|done]. intros H. eexists _, _. split; [|exact H]. lia.
  - destruct (at_end c); [|done]. intros H. eexists _, _. split; [|exact H]. lia.
Qed.

Lemma search_from_forward (r : regex) (s : string) (p : option ascii)
    (n st : nat) (c1 : cursor) (caps : captures) :
  search_from fl r s p n = Some (st, (c1, caps)) → st + min_len r ≤ pos c1.
Proof.
  revert p n. induction s as [|x s IH]; intros p n; simpl.
  - destruct (run fl r _ [] accept) as [res|] eqn:E; [|done].
    intros [= ? ?]; subst.
    by destruct (run_forward _ _ _ _ _ E) as (c' & caps' & ? & [= ? ?]); subst.
  - destruct (run fl r _ [] accept) as [res|] eqn:E.
    + intros [= ? ?]; subst.
      by destruct (run_forward _ _ _ _ _ E) as (c' & caps' & ? & [= ? ?]); subst.
    + apply IH.
Qed.

Lemma finditer_from_nonempty (r : regex) (fuel : nat) (c : cursor) :
  0 < min_len r →
  Forall (λ m, m_start m < m_end m) (finditer_from fuel fl r c).
Proof.
  intros Hr. revert c. induction fuel as [|fuel IH]; intros c; simpl; [constructor|].
  destruct (search fl r c) as [[st [c1 caps]]|] eqn:E; [|constructor].
  pose proof (search_from_forward _ _ _ _ _ _ _ E) as Hp.
  constructor; [simpl; lia|].
  assert (Nat.eqb (pos c1) st = false) as -> by (apply Nat.eqb_neq; lia).
  apply IH.
Qed.

End lengths.

(** The patterns of the parser match no empty text. *)
Lemma parser_patterns_nonempty :
  0 < min_len resource_pattern ∧ 0 < min_len var_pattern
  ∧ 0 < min_len output_pattern ∧ 0 < min_len locals_pattern
  ∧ 0 < min_len attr_pattern.
Proof. repeat split; simpl; lia. Qed.

(** ** Runs of the matcher on text of a known shape *)

Lemma take_app_length (t s : string) : Text.take (String.length t) (t +:+ s) = t.
Proof. induction t as [|x t IH]; [by destruct s|]. rewrite append_cons. simpl. by rewrite IH. Qed.

Lemma star_greedy_run (fl : flags) (a : atom) (t s : string) (p : option ascii)
    (n : nat) (caps : captures) (k : cont) (r : cursor * captures) :
  Text.all (atom_matches fl a) t = true → stops fl a s →
  k {| prev := prev_after p t; pos := n + String.length t; rest := s |} caps = Some r →
  star_greedy fl a (t +:+ s) p n caps k = Some r.
Proof.
  revert p n. induction t as [|y t IH]; intros p n Ht Hs Hk.
  - rewrite append_nil. simpl in Hk. rewrite Nat.add_0_r in Hk.
    destruct s as [|x s]; simpl; [done|]. simpl in Hs. by rewrite Hs.
  - simpl in Ht. apply andb_true_iff in Ht as [Hy Ht].
    rewrite append_cons. simpl. rewrite Hy.
    rewrite (IH (Some y) (S n) Ht Hs); [done|].
    simpl in Hk. by replace (S n + String.length t) with (n + S (String.length t)) by lia.
Qed.

Lemma plus_lazy_run (fl : flags) (a : atom) (t s : string) (p : option ascii)
    (n : nat) (caps : captures) (k : cont) (r : cursor * captures) :
  t ≠ EmptyString → Text.all (atom_matches fl a) t = true →
  (∀ t1 x t2 p', t = t1 +:+ String x t2 → t1 ≠ EmptyString →
     k {| prev := p'; pos := n + String.length t1; rest := String x t2 +:+ s |} caps = None) →
  k {| prev := prev_after p t; pos := n + String.length t; rest := s |} caps = Some r →
  plus_lazy fl a (t +:+ s) n caps k = Some r.
Proof.
  revert p n. induction t as [|y t IH]; intros p n Hne Ht Hpre Hk; [done|].
  simpl in Ht. apply andb_true_iff in Ht as [Hy Ht].
  rewrite append_cons. simpl. rewrite Hy.
  destruct t as [|z t].
  - rewrite append_nil. simpl in Hk. 
    replace (n + 1) with (S n) in Hk by lia. by rewrite Hk.
  - assert (k {| prev := Some y; pos := S n; rest := String z t +:+ s |} caps = None) as ->.
    { replace (S n) with (n + String.length (String y EmptyString)) by (simpl; lia).
      by apply Hpre. }
    apply (IH (Some y)); [done|done| |].
    + intros t1 x t2 p' E Hne1.
      replace (S n + String.length t1) with (n + String.length (String y t1)) by (simpl; lia).
      apply Hpre; [|done]. rewrite append_cons. by rewrite E.
    + change (prev_after p (String y (String z t)))
        with (prev_after (Some y) (String z t)) in Hk.
      replace (S n + String.length (String z t))
        with (n + String.length (String y (String z t))) by (simpl; lia).
      exact Hk.
Qed.

Section intro.
Context (fl : flags).

Lemma literal_run (l s : string) (p : option ascii) (n : nat) (caps : captures)
    (k : cont) :
  literal l (l +:+ s) p n caps k
  = k {| prev := prev_after p l; pos := n + String.length l; rest := s |} caps.
Proof.
  revert p n. induction l as [|y l IH]; intros p n.
  - rewrite append_nil. simpl. by rewrite Nat.add_0_r.
  - rewrite append_cons. simpl. rewrite Ascii.eqb_refl, IH.
    by replace (S n + String.length l) with (n + S (String.length l)) by lia.
Qed.

Lemma run_seq_intro (r1 r2 : regex) (c : cursor) (caps : captures) (k : cont)
    (res : cursor * captures) :
  run fl r1 c caps (λ c1 caps1, run fl r2 c1 caps1 k) = Some res →
  run fl (RSeq r1 r2) c caps k = Some res.
Proof. done. Qed.

Lemma run_lit_intro (l s : string) (c : cursor) (caps : captures) (k : cont)
    (res : cursor * captures) :
  rest c = l +:+ s →
  k {| prev := prev_after (prev c) l; pos := pos c + String.length l; rest := s |} caps
    = Some res →
  run fl (RLit l) c caps k = Some res.
Proof. intros E H. simpl. by rewrite E, literal_run. Qed.

Lemma run_atom_intro (a : atom) (x : ascii) (s : string) (c : cursor)
    (caps : captures) (k : cont) (res : cursor * captures) :
  rest c = String x s → atom_matches fl a x = true →
  k {| prev := Some x; pos := S (pos c); rest := s |} caps = Some res →
  run fl (RAtom a) c caps k = Some res.
Proof. intros E Hx H. simpl. by rewrite E, Hx. Qed.

Lemma run_star_intro (a : atom) (t s : string) (c : cursor) (caps : captures)
    (k : cont) (res : cursor * captures) :
  rest c = t +:+ s → Text.all (atom_matches fl a) t = true → stops fl a s →
  k {| prev := prev_after (prev c) t; pos := pos c + String.length t; rest := s |} caps
    = Some res →
  run fl (RStar a) c caps k = Some res.
Proof. intros E Ht Hs H. simpl. rewrite E. by apply star_greedy_run. Qed.

Lemma run_plus_lazy_intro (a : atom) (t s : string) (c : cursor)
    (caps : captures) (k : cont) (res : cursor * captures) :
  rest c = t +:+ s → t ≠ EmptyString → Text.all (atom_matches fl a) t = true →
  (∀ t1 x t2 p', t = t1 +:+ String x t2 → t1 ≠ EmptyString →
     k {| prev := p'; pos := pos c + String.length t1; rest := String x t2 +:+ s |} caps
     = None) →
  k {| prev := prev_after (prev c) t; pos := pos c + String.length t; rest := s |} caps
    = Some res →
  run fl (RPlusLazy a) c caps k = Some res.
Proof. intros E Hne Ht Hpre H. simpl. rewrite E. by eapply plus_lazy_run. Qed.

Lemma run_group_intro (i : nat) (r : regex) (c : cursor) (caps : captures)
    (k : cont) (res : cursor * captures) :
  run fl r c caps
    (λ c1 caps1, k c1 ((i, Text.take (pos c1 - pos c) (rest c)) :: caps1)) = Some res →
  run fl (RGroup i r) c caps k = Some res.
Proof. done. Qed.

Lemma run_lookahead_intro (r : regex) (c : cursor) (caps : captures) (k : cont)
    (res : cursor * captures) :
  is_Some (run fl r c caps accept) → k c caps = Some res →
  run fl (RLookahead r) c caps k = Some res.
Proof. intros [? E] H. simpl. by rewrite E. Qed.

Lemma run_bol_intro (c : cursor) (caps : captures) (k : cont)
    (res : cursor * captures) :
  at_bol fl c = true → k c caps = Some res → run fl RBol c caps k = Some res.
Proof. intros E H. simpl. by rewrite E. Qed.

Lemma run_alt_intro_l (r1 r2 : regex) (c : cursor) (caps : captures) (k : cont)
    (res : cursor * captures) :
  run fl r1 c caps k = Some res → run fl (RAlt r1 r2) c caps k = Some res.
Proof. intros H. simpl. by rewrite H. Qed.

End intro.

(** ** A subject and the same subject followed by more text *)

Lemma is_Some_or_else {A} (o1 o2 : option A) :
  is_Some (match o1 with Some r => Some r | None => o2 end)
  ↔ is_Some o1 ∨ is_Some o2.
Proof.
  destruct o1 as [r|].
  - split; [intros _; left; by eexists|intros _; by eexists].
  - split; [by right|]. by intros [[? ?]|?].
Qed.

Section simulation.
Context (fl : flags) (P : ascii → bool) (w : string).
Hypothesis Hw : starts_outside P w.

Lemma agree_here (u : string) (k k' : cont) (p : option ascii) (n : nat)
    (caps : captures) :
  agree P w u k k' →
  is_Some (k {| prev := p; pos := n; rest := u +:+ w |} caps)
  ↔ is_Some (k' {| prev := p; pos := n; rest := u |} caps).
Proof. intros H. by apply (H EmptyString u). Qed.

Lemma agree_step (y : ascii) (u : string) (k k' : cont) :
  P y = true → agree P w (String y u) k k' → agree P w u k k'.
Proof.
  intros Hy H t u' p n caps -> Ht.
  apply (H (String y t)); [done|]. simpl. by rewrite Hy.
Qed.

Lemma agree_moved (u t u' : string) (k k' : cont) :
  u = t +:+ u' → Text.all P t = true → agree P w u k k' → agree P w u' k k'.
Proof.
  intros -> Ht H t' u'' p n caps -> Ht'.
  apply (H (t +:+ t')); [by rewrite append_assoc|]. by rewrite all_app, Ht, Ht'.
Qed.

Lemma atom_stops_at_tail (a : atom) :
  (∀ x, atom_matches fl a x = true → P x = true) →
  match w with String x _ => atom_matches fl a x = false | EmptyString => True end.
Proof.
  intros Ha. destruct w as [|x w']; [done|]. simpl in Hw.
  destruct (atom_matches fl a x) eqn:E; [|done]. apply Ha in E. congruence.
Qed.

Lemma star_greedy_sim (a : atom) (u : string) (p : option ascii) (n : nat)
    (caps : captures) (k k' : cont) :
  (∀ x, atom_matches fl a x = true → P x = true) →
  agree P w u k k' →
  is_Some (star_greedy fl a (u +:+ w) p n caps k)
  ↔ is_Some (star_greedy fl a u p n caps k').
Proof.
  intros Ha. revert p n. induction u as [|y u IH]; intros p n Hag.
  - rewrite append_nil. pose proof (atom_stops_at_tail a Ha) as Hs.
    pose proof (agree_here EmptyString k k' p n caps Hag) as Hh.
    rewrite append_nil in Hh. simpl.
    destruct w as [|x w']; simpl; [done|]. by rewrite Hs.
  - rewrite append_cons. simpl. destruct (atom_matches fl a y) eqn:E.
    + rewrite !is_Some_or_else, (IH _ _ (agree_step _ _ _ _ (Ha _ E) Hag)).
      by rewrite <- (agree_here (String y u) k k' p n caps Hag).
    + by rewrite <- (agree_here (String y u) k k' p n caps Hag).
Qed.

Lemma plus_lazy_sim (a : atom) (u : string) (n : nat) (caps : captures)
    (k k' : cont) :
  (∀ x, atom_matches fl a x = true → P x = true) →
  agree P w u k k' →
  is_Some (plus_lazy fl a (u +:+ w) n caps k)
  ↔ is_Some (plus_lazy fl a u n caps k').
Proof.
  intros Ha. revert n. induction u as [|y u IH]; intros n Hag.
  - rewrite append_nil. pose proof (atom_stops_at_tail a Ha) as Hs. simpl.
    destruct w as [|x w']; simpl; [done|]. by rewrite Hs.
  - rewrite append_cons. simpl. destruct (atom_matches fl a y) eqn:E; [|done].
    pose proof (agree_step _ _ _ _ (Ha _ E) Hag) as Hag'.
    by rewrite !is_Some_or_else, (IH _ Hag'), (agree_here u k k' _ _ caps Hag').
Qed.

Lemma repeat_exact_sim (a : atom) (m : nat) (u : string) (p : option ascii)
    (n : nat) (caps : captures) (k k' : cont) :
  (∀ x, atom_matches fl a x = true → P x = true) →
  agree P w u k k' →
  is_Some (repeat_exact fl a m (u +:+ w) p n caps k)
  ↔ is_Some (repeat_exact fl a m u p n caps k').
Proof.
  intros Ha. revert u p n. induction m as [|m IH]; intros u p n Hag; simpl.
  - by apply agree_here.
  - destruct u as [|y u].
    + rewrite append_nil. pose proof (atom_stops_at_tail a Ha) as Hs.
      destruct w as [|x w']; [done|]. rewrite Hs. split; by intros [? ?].
    + rewrite append_cons. destruct (atom_matches fl a y) eqn:E; [|done].
      apply IH. apply (agree_step y); [by apply Ha|done].
Qed.

Lemma literal_sim (l u : string) (p : option ascii) (n : nat) (caps : captures)
    (k k' : cont) :
  Text.all P l = true →
  agree P w u k k' →
  is_Some (literal l (u +:+ w) p n caps k) ↔ is_Some (literal l u p n caps k').
Proof.
  revert u p n. induction l as [|z l IH]; intros u p n Hl Hag; simpl.
  - by apply agree_here.
  - simpl in Hl. apply andb_true_iff in Hl as [Hz Hl]. destruct u as [|y u].
    + rewrite append_nil. destruct w as [|x w']; [done|]. simpl in Hw.
      destruct (Ascii.eqb x z) eqn:E; [|split; by intros [? ?]].
      apply Ascii.eqb_eq in E. congruence.
    + rewrite append_cons. destruct (Ascii.eqb y z) eqn:E; [|done].
      apply Ascii.eqb_eq in E as ->. apply IH; [done|]. by apply (agree_step z).
Qed.

(** A simple pattern over [P] matches a subject followed by [w] as it
    matches the subject alone: it cannot read into [w]. *)
Lemma run_sim (r : regex) (u : string) (p : option ascii) (n : nat)
    (caps : captures) (k k' : cont) :
  simple r → consumes_only fl P r → agree P w u k k' →
  is_Some (run fl r {| prev := p; pos := n; rest := u +:+ w |} caps k)
  ↔ is_Some (run fl r {| prev := p; pos := n; rest := u |} caps k').
Proof.
  revert u p n caps k k'.
  induction r as [a|l|a|a|a|m a|r1 IH1 r2 IH2|r1 IH1 r2 IH2|i r1 IH1|r1 IH1| | |];
    intros u p n caps k k' Hs Hc Hag; simpl in Hs, Hc; try done; cbn [run rest prev pos].
  - destruct u as [|y u].
    + rewrite append_nil. pose proof (atom_stops_at_tail a Hc) as Hst.
      destruct w as [|x w']; [done|]. rewrite Hst. split; by intros [? ?].
    + rewrite append_cons. destruct (atom_matches fl a y) eqn:E; [|done].
      apply (agree_here u), (agree_step y); [by apply Hc|done].
  - by apply literal_sim.
  - by apply star_greedy_sim.
  - destruct u as [|y u].
    + rewrite append_nil. pose proof (atom_stops_at_tail a Hc) as Hst.
      destruct w as [|x w']; [done|]. rewrite Hst. split; by intros [? ?].
    + rewrite append_cons. destruct (atom_matches fl a y) eqn:E; [|done].
      apply star_greedy_sim; [done|]. apply (agree_step y); [by apply Hc|done].
  - by apply plus_lazy_sim.
  - by apply repeat_exact_sim.
  - destruct Hs as [Hs1 Hs2], Hc as [Hc1 Hc2]. apply IH1; [done|done|].
    intros t u' p' n' caps' -> Ht. apply IH2; [done|done|].
    by apply (agree_moved (t +:+ u') t).
  - destruct Hs as [Hs1 Hs2], Hc as [Hc1 Hc2].
    by rewrite !is_Some_or_else, (IH1 _ _ _ _ k k'), (IH2 _ _ _ _ k k').
  - unfold at_bol. cbn [prev]. destruct (match p with Some x => _ | None => true end);
      [by apply agree_here|done].
Qed.

End simulation.

(* ===================================================================== *)
(** * The Terraform parser                                             *)
(* ===================================================================== *)

(** ** Queries over a module *)

Lemma get_resource_in_spec (rs : list TerraformResource) (t n : string) :
  match get_resource_in rs t n with
  | None => Forall (λ r, ¬ is_named t n r) rs
  | Some r =>
      ∃ before after,
        rs = before ++ r :: after ∧ is_named t n r ∧
        Forall (λ r', ¬ is_named t n r') before
  end.
Proof.
  induction rs as [|r rs IH]; simpl; [constructor|].
  destruct (String.eqb (resource_type r) t) eqn:Ht; simpl.
  - destruct (String.eqb (resource_name r) n) eqn:Hn.
    + apply String.eqb_eq in Ht, Hn. exists [], rs.
      split; [done|]. split; [by split|constructor].
    + apply String.eqb_neq in Hn.
      destruct (get_resource_in rs t n) as [r'|].
      * destruct IH as (b & a & -> & ? & ?). exists (r :: b), a.
        split; [done|]. split; [done|]. constructor; [|done]. by intros [_ ?].
      * constructor; [|done]. by intros [_ ?].
  - apply String.eqb_neq in Ht.
    destruct (get_resource_in rs t n) as [r'|].
    + destruct IH as (b & a & -> & ? & ?). exists (r :: b), a.
      split; [done|]. split; [done|]. constructor; [|done]. by intros [? _].
    + constructor; [|done]. by intros [? _].
Qed.

(** C8: [get_resource] returns [None] exactly when no resource of the
    module has both the type and the name asked for; otherwise it returns
    a resource that has them and that no matching resource precedes in the
    list, that is, the first one appended. *)
Theorem get_resource_first_match (m : TerraformModule) (t n : string) :
  (get_resource m t n = None ↔ Forall (λ r, ¬ is_named t n r) (resources m))
  ∧ match get_resource m t n with
    | None => True
    | Some r =>
        ∃ before after,
          resources m = before ++ r :: after ∧ is_named t n r ∧
          Forall (λ r', ¬ is_named t n r') before
    end.
Proof.
  unfold get_resource. pose proof (get_resource_in_spec (resources m) t n) as H.
  destruct (get_resource_in (resources m) t n) as [r|]; [|done].
  split; [|done]. split; [done|]. intros Hall.
  destruct H as (before & after & E & Hr & _). rewrite E in Hall.
  apply Forall_app in Hall as [_ Hall]. apply Forall_cons in Hall as [Hn _]. done.
Qed.

Example get_resource_duplicates :
  get_resource module_with_duplicates "aws_s3_bucket" "b"
    = Some (res "aws_s3_bucket" "b" 5)
  ∧ get_resource module_with_duplicates "aws_s3_bucket" "c" = None.
Proof. split; reflexivity. Qed.

(** ** Brace scanning *)

Lemma scan_braces_never_closed (s : string) (k : Z) (pos : nat) :
  never_closed s k = true → scan_braces s k pos = pos + String.length s.
Proof.
  revert k pos. induction s as [|c s IH]; intros k pos; simpl; [lia|].
  intros [Hk Hs]%andb_true_iff. rewrite Hk, (IH _ _ Hs). lia.
Qed.

(** When the opening brace is never closed, the block content is the rest
    of the input without its last character. *)
Lemma extract_block_content_never_closed (content : string) (start_pos : nat) :
  start_pos ≤ String.length content →
  never_closed (Text.drop start_pos content) 1 = true →
  _extract_block_content content start_pos
  = Text.take (String.length (Text.drop start_pos content) - 1)
      (Text.drop start_pos content).
Proof.
  intros Hle Hnc. unfold _extract_block_content.
  rewrite (scan_braces_never_closed _ _ _ Hnc), length_drop.
  replace (start_pos + (String.length content - start_pos)) with (String.length content) by lia.
  destruct (decide (start_pos = String.length content)) as [->|Hne].
  - replace (String.length content - String.length content - 1) with 0 by lia.
    unfold Text.slice, Text.slice_bound.
    destruct (Z.ltb_spec (Z.of_nat (String.length content)) 0); [lia|].
    destruct (Z.ltb_spec (Z.of_nat (String.length content) - 1) 0).
    + replace (String.length content) with 0 by lia. by destruct content.
    + rewrite Z.min_l, Z.min_l by lia.
      replace (Z.to_nat _) with 0 by lia. by destruct (Text.drop _ _).
  - replace (Z.of_nat (String.length content) - 1)%Z
      with (Z.of_nat (String.length content - 1)) by lia.
    rewrite slice_inside by lia. f_equal. lia.
Qed.

(** C2: on the input [resource "a" "b" { x = 1], whose brace is never
    closed, extraction returns one block and raises nothing, but the body
    it parses is the rest of the input without its last character: the
    attribute [x] comes out empty, where the body running to the end of the
    input gives [x = 1]. *)
Theorem unclosed_block_loses_last_character :
  never_closed (Text.drop 18 unclosed) 1 = true
  ∧ Text.drop 18 unclosed = " x = 1"
  ∧ _extract_block_content unclosed 18 = " x = "
  ∧ map attributes (_extract_resources unclosed "main.tf") = [ {[ "x" := EmptyString ]} ]
  ∧ _parse_attributes " x = 1" = {[ "x" := "1" ]}.
Proof. repeat split; vm_compute; reflexivity. Qed.

(** ** The one-line resource *)

Lemma s3_one_line_counterexample :
  ¬ (∃ r, _extract_resources s3_one_line "main.tf" = [r]
          ∧ resource_type r = "aws_s3_bucket" ∧ resource_name r = "example"
          ∧ attributes r = {[ "bucket" := q "my-bucket"; "versioning" := "true" ]}).
Proof.
  intros (r & Hr & _ & _ & Ha).
  assert (attributes r !! "versioning" = None) as Hv.
  { vm_compute in Hr. injection Hr as <-. vm_compute. reflexivity. }
  rewrite Ha in Hv. vm_compute in Hv. discriminate.
Qed.

(** C3, as the code has it: on the one-line resource of the
    specification, block extraction returns exactly one block, of type
    [aws_s3_bucket] and name [example]; attribute extraction on its body
    returns the one-entry map that sends [bucket] to the raw text of the
    whole rest of the line, [versioning] included, because a key is only
    recognised at the start of a line. With one attribute per line the
    two-entry map of raw texts is returned. *)
Theorem s3_one_line_extraction :
  _extract_resources s3_one_line "main.tf"
  = [ {| resource_type := "aws_s3_bucket"; resource_name := "example";
         attributes := {[ "bucket" := q "my-bucket" +:+ " versioning = true" ]};
         file_path := "main.tf"; line_number := 1 |} ]
  ∧ _extract_block_content s3_one_line 36
    = " bucket = " +:+ q "my-bucket" +:+ " versioning = true "
  ∧ _parse_attributes (_extract_block_content s3_one_line 36)
    = {[ "bucket" := q "my-bucket" +:+ " versioning = true" ]}
  ∧ map attributes (_extract_resources s3_multi_line "main.tf")
    = [ {[ "bucket" := q "my-bucket"; "versioning" := "true" ]} ].
Proof. repeat split; vm_compute; reflexivity. Qed.

(** ** One assignment line *)

Lemma lookahead_fails_inside (c : cursor) (caps : captures) (x : ascii) (X : string) :
  rest c = String x X → Text.is_newline x = false →
  run attr_flags attr_lookahead c caps accept = None.
Proof.
  intros E Hx. destruct c as [p n s]. simpl in E. subst s.
  unfold attr_lookahead. cbn. unfold Text.is_newline in Hx. by rewrite Hx.
Qed.

Lemma value_end_close : value_end ("  }" +:+ nl).
Proof. intros p n caps. by eexists. Qed.

Lemma ident_start_not_space (c : ascii) :
  atom_matches attr_flags ident_start c = true → Text.isspace c = false.
Proof. destruct c as [[] [] [] [] [] [] [] []]; vm_compute; done. Qed.

Lemma value_end_line (k X : string) :
  is_identifier k = true → value_end ("    " +:+ k +:+ X).
Proof.
  intros Hk p n caps. destruct k as [|c0 k']; [done|].
  apply andb_true_iff in Hk as [Hc0 _]. eexists.
  apply run_alt_intro_l, run_seq_intro.
  eapply (run_lit_intro _ nl); [reflexivity|].
  apply run_seq_intro.
  eapply (run_star_intro _ _ "    "); [reflexivity|reflexivity|by apply ident_start_not_space|].
  eapply run_atom_intro; [reflexivity|exact Hc0|reflexivity].
Qed.

Lemma is_raw_value_inv (v : string) :
  is_raw_value v = true →
  ∃ v0 v', v = String v0 v' ∧ Text.isspace v0 = false
           ∧ no_newline v = true ∧ Text.rstrip v = v.
Proof.
  unfold is_raw_value. destruct v as [|v0 v']; [done|].
  intros [[H0 Hn]%andb_true_iff He]%andb_true_iff.
  exists v0, v'. apply negb_true_iff in H0. apply String.eqb_eq in He. done.
Qed.

Lemma prev_after_one_line (p : option ascii) (v : string) :
  v ≠ EmptyString → no_newline v = true →
  ∃ x, prev_after p v = Some x ∧ Text.is_newline x = false.
Proof.
  revert p. induction v as [|y v IH]; intros p Hne Hv; [done|].
  unfold no_newline in Hv. simpl in Hv. apply andb_true_iff in Hv as [Hy Hv].
  destruct v as [|z v].
  - exists y. by apply negb_true_iff in Hy.
  - by apply (IH (Some y)).
Qed.

Lemma dot_matches_all (s : string) :
  Text.all (atom_matches attr_flags ADot) s = true.
Proof. by induction s. Qed.

Lemma strip_raw_value (v : string) : is_raw_value v = true → Text.strip v = v.
Proof.
  intros H. destruct (is_raw_value_inv v H) as (v0 & v' & Ev & H0 & _ & Hr).
  unfold Text.strip. rewrite Ev in *.
  assert (Text.lstrip (String v0 v') = String v0 v') as ->; [|done].
  simpl. by rewrite H0.
Qed.

(** On a line [k = v] of a nested block, at the start of the line, the
    attribute pattern matches the line up to the end of the value. *)
Lemma run_attr_line (k v R : string) (n : nat) :
  is_identifier k = true → is_raw_value v = true → value_end R →
  ∃ c1 caps,
    run attr_flags attr_pattern
      {| prev := Some Text.newline; pos := n;
         rest := "    " +:+ k +:+ " = " +:+ v +:+ nl +:+ R |} [] accept
    = Some (c1, caps)
    ∧ group caps 1 = k ∧ group caps 2 = v
    ∧ rest c1 = nl +:+ R
    ∧ (∃ x, prev c1 = Some x ∧ Text.is_newline x = false)
    ∧ n < pos c1.
Proof.
  intros Hk Hv Hend.
  destruct (is_raw_value_inv v Hv) as (v0 & v' & Ev & Hv0 & Hvn & _).
  destruct k as [|c0 k'] eqn:Ek; [done|].
  apply andb_true_iff in Hk as [Hc0 Hk'].
  eexists _, _. split.
  { unfold attr_pattern.
    apply run_seq_intro, run_bol_intro; [reflexivity|].
    apply run_seq_intro.
    eapply (run_star_intro _ _ "    "); [reflexivity|reflexivity|
      by apply ident_start_not_space|].
    apply run_seq_intro, run_group_intro. unfold attr_key.
    apply run_seq_intro.
    eapply run_atom_intro; [reflexivity|exact Hc0|].
    eapply (run_star_intro _ _ k'); [reflexivity|exact Hk'|reflexivity|].
    apply run_seq_intro.
    eapply (run_star_intro _ _ " "); [reflexivity|reflexivity|reflexivity|].
    apply run_seq_intro.
    eapply (run_lit_intro _ "="); [reflexivity|].
    apply run_seq_intro.
    eapply (run_star_intro _ _ " "); [reflexivity|reflexivity|by rewrite Ev|].
    apply run_seq_intro, run_group_intro.
    eapply (run_plus_lazy_intro _ _ v); [reflexivity|by rewrite Ev|apply dot_matches_all| |].
    - intros t1 x t2 p' E Hne. cbv beta. cbn [run].
      erewrite lookahead_fails_inside; [done|reflexivity|].
      unfold no_newline in Hvn. rewrite E, all_app in Hvn.
      apply andb_true_iff in Hvn as [_ Hx]. simpl in Hx.
      apply andb_true_iff in Hx as [Hx _]. by apply negb_true_iff in Hx.
    - apply run_lookahead_intro; [apply Hend|reflexivity]. }
  cbn [group rest prev pos Nat.eqb].
  split. { replace (_ - _) with (String.length (String c0 k')) by (simpl; lia).
           apply take_app_length. }
  split. { replace (_ - _) with (String.length v) by (simpl; lia).
           apply take_app_length. }
  split; [done|]. split; [|simpl; lia].
  apply prev_after_one_line; [by rewrite Ev|done].
Qed.

(** ** A nested block *)

Lemma run_attr_not_bol (x : ascii) (n : nat) (s : string) :
  Text.is_newline x = false →
  run attr_flags attr_pattern {| prev := Some x; pos := n; rest := s |} [] accept = None.
Proof. intros Hx. unfold attr_pattern. cbn [run]. unfold at_bol. simpl. by rewrite Hx. Qed.

Lemma value_end_block_lines (kvs : list (string * string)) :
  Forall (λ kv, is_identifier kv.1 = true ∧ is_raw_value kv.2 = true) kvs →
  value_end (block_lines kvs ("  }" +:+ nl)).
Proof.
  destruct 1 as [|[k v] kvs [Hk _] _]; simpl.
  - apply value_end_close.
  - by apply value_end_line.
Qed.

Lemma length_block_lines (kvs : list (string * string)) (tail : string) :
  length kvs ≤ String.length (block_lines kvs tail).
Proof.
  induction kvs as [|[k v] kvs IH]; simpl; [lia|].
  rewrite !length_append. simpl. lia.
Qed.

(** From the end of a line on, the matches of the attribute pattern are
    the assignments of the remaining lines of the block, one per line. *)
Lemma finditer_block_lines (kvs : list (string * string)) (fuel : nat)
    (x : ascii) (n : nat) :
  Forall (λ kv, is_identifier kv.1 = true ∧ is_raw_value kv.2 = true) kvs →
  length kvs < fuel → Text.is_newline x = false →
  map key_value
    (finditer_from fuel attr_flags attr_pattern
       {| prev := Some x; pos := n;
          rest := nl +:+ block_lines kvs ("  }" +:+ nl) |})
  = kvs.
Proof.
  intros Hall. revert fuel x n.
  induction Hall as [|[k v] kvs [Hk Hv] Hall IH]; intros fuel x n Hfuel Hx;
    (destruct fuel as [|fuel]; [simpl in Hfuel; lia|]).
  - cbn [finditer_from]. unfold search. cbn [rest prev pos].
    change (nl +:+ block_lines [] ("  }" +:+ nl)) with (String Text.newline ("  }" +:+ nl)).
    cbn [search_from]. rewrite (run_attr_not_bol _ _ _ Hx). reflexivity.
  - cbn [finditer_from]. unfold search. cbn [rest prev pos].
    change (nl +:+ block_lines ((k, v) :: kvs) ("  }" +:+ nl))
      with (String Text.newline
              ("    " +:+ k +:+ " = " +:+ v +:+ nl +:+ block_lines kvs ("  }" +:+ nl))).
    cbn [search_from]. rewrite (run_attr_not_bol _ _ _ Hx).
    destruct (run_attr_line k v _ (S n) Hk Hv (value_end_block_lines kvs Hall))
      as (c1 & caps & Hrun & Hg1 & Hg2 & Hrest & (y & Hprev & Hy) & Hpos).
    destruct ("    " +:+ k +:+ " = " +:+ v +:+ nl +:+ block_lines kvs ("  }" +:+ nl))
      as [|z Z] eqn:EZ; [done|].
    cbn [search_from]. rewrite Hrun.
    assert (Nat.eqb (pos c1) (S n) = false) as -> by (apply Nat.eqb_neq; lia).
    cbn [map]. f_equal.
    + unfold key_value. cbn [m_caps]. by rewrite Hg1, Hg2.
    + destruct c1 as [p1 n1 r1]. simpl in Hrest, Hprev. subst p1 r1.
      apply IH; [simpl in Hfuel; lia|done].
Qed.

Lemma foldl_key_values (ms : list match_obj) (acc : gmap string string) :
  foldl (λ attributes m,
           <[group (m_caps m) 1 := Text.strip (group (m_caps m) 2)]> attributes)
        acc ms
  = foldl (λ acc kv, <[kv.1 := Text.strip kv.2]> acc) acc (map key_value ms).
Proof.
  revert acc. induction ms as [|m ms IH]; intros acc; [done|]. simpl. by rewrite IH.
Qed.

Lemma foldl_strip_raw (kvs : list (string * string)) (acc : gmap string string) :
  Forall (λ kv, is_identifier kv.1 = true ∧ is_raw_value kv.2 = true) kvs →
  foldl (λ acc kv, <[kv.1 := Text.strip kv.2]> acc) acc kvs
  = foldl (λ acc kv, <[kv.1 := kv.2]> acc) acc kvs.
Proof.
  intros H. revert acc. induction H as [|[k v] kvs [_ Hv] _ IH]; intros acc; [done|].
  simpl. by rewrite (strip_raw_value v Hv), IH.
Qed.

(** C7, as the code has it: for a block body that consists of a nested
    block [rule { ... }] whose lines are assignments of raw values to
    identifiers, attribute extraction builds no nested block and does not
    capture the nested block as one value either: the line [rule {] gives
    no entry, and every assignment inside the nested block becomes an entry
    of the returned flat map, from its key to its raw value, a later
    assignment to a key replacing an earlier one. *)
Theorem nested_block_is_flattened (kvs : list (string * string)) :
  Forall (λ kv, is_identifier kv.1 = true ∧ is_raw_value kv.2 = true) kvs →
  _parse_attributes (nested_rule kvs)
  = foldl (λ acc kv, <[kv.1 := kv.2]> acc) ∅ kvs.
Proof.
  intros Hall. unfold _parse_attributes. rewrite foldl_key_values.
  rewrite <- (foldl_strip_raw kvs ∅ Hall). f_equal.
  unfold finditer.
  assert (∀ fuel, finditer_from (S fuel) attr_flags attr_pattern (start_of (nested_rule kvs))
          = finditer_from (S fuel) attr_flags attr_pattern
              {| prev := Some "{"%char; pos := 9;
                 rest := nl +:+ block_lines kvs ("  }" +:+ nl) |}) as ->.
  { intros fuel. reflexivity. }
  apply finditer_block_lines; [done| |done].
  pose proof (length_block_lines kvs ("  }" +:+ nl)).
  unfold nested_rule. rewrite !length_append. lia.
Qed.

Lemma nested_block_is_flattened_witness :
  Forall (λ kv, is_identifier kv.1 = true ∧ is_raw_value kv.2 = true)
    [("apply", q "y"); ("sse_algorithm", q "aws:kms")]
  ∧ _parse_attributes (nested_rule [("apply", q "y"); ("sse_algorithm", q "aws:kms")])
    = foldl (λ acc kv, <[kv.1 := kv.2]> acc) ∅
        [("apply", q "y"); ("sse_algorithm", q "aws:kms")].
Proof.
  assert (Forall (λ kv, is_identifier kv.1 = true ∧ is_raw_value kv.2 = true)
            [("apply", q "y"); ("sse_algorithm", q "aws:kms")]) as H
    by (repeat constructor).
  split; [exact H|].
  exact (nested_block_is_flattened _ H).
Defined.

Lemma nested_block_counterexample :
  contains nested_block nested_body = true
  ∧ _parse_attributes nested_body = {[ "bucket" := q "x"; "apply" := q "y" ]}
  ∧ ¬ (∃ key value, _parse_attributes nested_body !! key = Some value
                    ∧ contains "rule" value = true).
Proof.
  assert (_parse_attributes nested_body = {[ "bucket" := q "x"; "apply" := q "y" ]})
    as E by (vm_compute; reflexivity).
  split; [reflexivity|]. split; [exact E|].
  intros (key & value & H & Hc). rewrite E in H.
  apply lookup_insert_Some in H as [[_ <-]|[_ H]].
  - vm_compute in Hc. discriminate.
  - apply lookup_singleton_Some in H as [_ <-]. vm_compute in Hc. discriminate.
Qed.

(** ** Aggregation over a directory *)

Lemma warnings_cons (f : tf_file) (fs : list tf_file) :
  warnings (f :: fs) = warning_of f ++ warnings fs.
Proof. done. Qed.

Lemma accepts_app (out : console) (printed before after : list string) :
  accepts out printed (before ++ after)
  ↔ accepts out printed before ∧ accepts out (printed ++ before) after.
Proof.
  revert printed. induction before as [|w before IH]; intros printed; simpl.
  - rewrite app_nil_r. tauto.
  - rewrite IH, <- app_assoc. simpl. tauto.
Qed.

(** The console writes all the lines, or there is a first line at which
    [print] raises. *)
Lemma accepts_or_rejects (out : console) (printed lines : list string) :
  accepts out printed lines
  ∨ ∃ before w after raised,
      lines = before ++ w :: after ∧ accepts out printed before
      ∧ out (printed ++ before) w = Some raised.
Proof.
  revert printed. induction lines as [|w lines IH]; intros printed; [by left|].
  destruct (out printed w) as [raised|] eqn:E.
  - right. exists [], w, lines, raised. by rewrite app_nil_r.
  - destruct (IH (printed ++ [w])) as [H|(before & w' & after & raised & -> & H & Hr)].
    + left. by split.
    + right. exists (w :: before), w', after, raised.
      split; [done|]. split; [by split|]. by rewrite <- app_assoc in Hr.
Qed.

(** A file that can be read prints nothing. *)
Lemma parse_file_readable (out : console) (f : tf_file) (m : TerraformModule)
    (printed : list string) :
  is_readable f = true →
  _parse_file out f (m, printed) = (Ok (contribution m f), printed)
  ∧ warning_of f = [].
Proof.
  unfold is_readable, warning_of, _parse_file, contribution.
  by destruct (tf_read f).
Qed.

(** A file that cannot be read adds nothing to the module; its warning is
    printed, unless [print] raises. *)
Lemma parse_file_unreadable (out : console) (f : tf_file) (m : TerraformModule)
    (printed : list string) :
  is_readable f = false →
  ∃ w, warning_of f = [w] ∧ contribution m f = m
       ∧ _parse_file out f (m, printed)
         = match out printed w with
           | None => (Ok m, printed ++ [w])
           | Some raised => (Raise (RaisedByPrint raised), printed)
           end.
Proof.
  unfold is_readable, warning_of, _parse_file, contribution.
  destruct (tf_read f) as [|e]; [done|]. intros _. by eexists.
Qed.

(** When the console writes the warnings, the loop ends with the module
    that the files build and with the warnings printed. *)
Lemma parse_files_accepted (out : console) (fs : list tf_file)
    (m : TerraformModule) (printed : list string) :
  accepts out printed (warnings fs) →
  parse_files out fs (m, printed)
  = (Ok (foldl contribution m fs), printed ++ warnings fs).
Proof.
  revert m printed. induction fs as [|f fs IH]; intros m printed.
  - intros _. simpl. by rewrite app_nil_r.
  - rewrite warnings_cons. cbn [parse_files foldl].
    destruct (is_readable f) eqn:E.
    + destruct (parse_file_readable out f m printed E) as [-> ->]. simpl.
      apply IH.
    + destruct (parse_file_unreadable out f m printed E) as (w & -> & -> & ->).
      simpl. intros [-> H]. rewrite (IH _ _ H). by rewrite <- app_assoc.
Qed.

(** When [print] raises at a warning, the loop ends there with that
    exception, after the warnings printed before. *)
Lemma parse_files_rejected (out : console) (fs : list tf_file)
    (m : TerraformModule) (printed before : list string) (w : string)
    (after : list string) (raised : string) :
  warnings fs = before ++ w :: after → accepts out printed before →
  out (printed ++ before) w = Some raised →
  parse_files out fs (m, printed) = (Raise (RaisedByPrint raised), printed ++ before).
Proof.
  revert m printed before. induction fs as [|f fs IH]; intros m printed before.
  - intros H. by destruct before.
  - rewrite warnings_cons. cbn [parse_files].
    destruct (is_readable f) eqn:E.
    + destruct (parse_file_readable out f m printed E) as [-> ->]. simpl.
      apply IH.
    + destruct (parse_file_unreadable out f m printed E) as (w0 & -> & _ & ->).
      simpl. destruct before as [|w1 before]; simpl.
      * intros [= <- _] _. rewrite app_nil_r. by intros ->.
      * intros [= <- Hw] [-> Hacc] Hr.
        rewrite (IH m (printed ++ [w0]) before); [|done|done|by rewrite <- app_assoc].
        by rewrite <- app_assoc.
Qed.

(** What the loop returns, in every case. *)
Lemma parse_files_outcome (out : console) (fs : list tf_file)
    (m : TerraformModule) (printed : list string) :
  (accepts out printed (warnings fs)
   ∧ parse_files out fs (m, printed)
     = (Ok (foldl contribution m fs), printed ++ warnings fs))
  ∨ ∃ before w after raised,
      warnings fs = before ++ w :: after ∧ accepts out printed before
      ∧ out (printed ++ before) w = Some raised
      ∧ parse_files out fs (m, printed)
        = (Raise (RaisedByPrint raised), printed ++ before).
Proof.
  destruct (accepts_or_rejects out printed (warnings fs))
    as [H|(before & w & after & raised & Hw & H & Hr)].
  - left. split; [done|]. by apply parse_files_accepted.
  - right. exists before, w, after, raised. repeat (split; [done|]).
    by apply (parse_files_rejected out fs m printed before w after raised).
Qed.

(** When the loop returns a module, it is the one that the files build,
    and all the warnings were printed. *)
Lemma parse_files_returned (out : console) (fs : list tf_file)
    (m m' : TerraformModule) (printed printed' : list string) :
  parse_files out fs (m, printed) = (Ok m', printed') →
  m' = foldl contribution m fs ∧ printed' = printed ++ warnings fs
  ∧ accepts out printed (warnings fs).
Proof.
  destruct (parse_files_outcome out fs m printed)
    as [[H ->]|(before & w & after & raised & _ & _ & _ & ->)]; [|done].
  by intros [= <- <-].
Qed.


(** What [parse_module] returns, in every case. *)
Lemma parse_module_cases (out : console) (fsys : filesystem) (path : string)
    (n : node) :
  fsys !! Path path = Some n →
  (accepts out [] (warnings (glob_tf n))
   ∧ parse_module out fsys path
     = (Ok (module_of path (glob_tf n)), warnings (glob_tf n)))
  ∨ ∃ before w after raised,
      warnings (glob_tf n) = before ++ w :: after ∧ accepts out [] before
      ∧ out before w = Some raised
      ∧ parse_module out fsys path = (Raise (RaisedByPrint raised), before).
Proof.
  intros Hn. unfold parse_module, module_of. rewrite Hn.
  apply (parse_files_outcome out (glob_tf n) (new_module path) []).
Qed.

Lemma parse_module_returned (out : console) (fsys : filesystem) (path : string)
    (files : list tf_file) (m : TerraformModule) (printed : list string) :
  fsys !! Path path = Some (Directory files) →
  parse_module out fsys path = (Ok m, printed) →
  m = module_of path files ∧ printed = warnings files.
Proof.
  intros Hn. unfold parse_module, module_of. rewrite Hn. simpl.
  intros H. by destruct (parse_files_returned _ _ _ _ _ _ H) as (-> & -> & _).
Qed.




Example parse_module_demo :
  parse_module quiet demo_fs "modules/demo"
  = (Ok (module_of "modules/demo" [variables_tf; overrides_tf]),
     ["Warning: Error parsing modules/demo/broken.tf: 'utf-8' codec can't decode byte 0xff"])
  ∧ (parse_module quiet demo_fs "modules/other").1
    = Raise (FileNotFoundError "Module directory not found: modules/other")
  ∧ module_path (module_of "./modules//demo/" []) = "modules/demo".
Proof. split; [vm_compute; reflexivity|]. split; reflexivity. Qed.


Lemma dict_update_lookup {V} (d e : gmap string V) (k : string) :
  dict_update d e !! k = match e !! k with Some v => Some v | None => d !! k end.
Proof.
  unfold dict_update. destruct (e !! k) as [v|] eqn:E.
  - by apply lookup_union_Some_l.
  - by rewrite lookup_union_r.
Qed.

Lemma contribution_variables (fs : list tf_file) (m : TerraformModule) (n : string) :
  variables (foldl contribution m fs) !! n
  = match last_declaration n fs with
    | Some v => Some v
    | None => variables m !! n
    end.
Proof.
  revert m. induction fs as [|f fs IH]; intros m; [done|].
  cbn [foldl]. rewrite IH. simpl. destruct (last_declaration n fs); [done|].
  unfold contribution. destruct (tf_read f); simpl; [|done].
  apply dict_update_lookup.
Qed.

Lemma last_declaration_app (n : string) (fs gs : list tf_file) :
  last_declaration n (fs ++ gs)
  = match last_declaration n gs with
    | Some v => Some v
    | None => last_declaration n fs
    end.
Proof.
  induction fs as [|f fs IH]; simpl.
  - by destruct (last_declaration n gs).
  - rewrite IH. by destruct (last_declaration n gs).
Qed.

Lemma last_declaration_none (n : string) (fs : list tf_file) :
  Forall (λ f, ¬ declares_variable n f) fs → last_declaration n fs = None.
Proof.
  induction 1 as [|f fs Hf _ IH]; simpl; [done|]. rewrite IH.
  unfold declares_variable in Hf. destruct (tf_read f); [|done].
  destruct (_ !! n) eqn:E; [|done]. destruct Hf. by eexists.
Qed.

Lemma filter_none {A} (P : A → Prop) `{!∀ x, Decision (P x)} (l : list A) :
  Forall (λ x, ¬ P x) l → filter P l = [].
Proof.
  induction 1 as [|x l Hx _ IH]; [done|]. by rewrite filter_cons_False.
Qed.

Lemma entries_for_lookup {V} (k : string) (d : gmap string V) (v : V) :
  d !! k = Some v → entries_for k d = [(k, v)].
Proof.
  intros Hk. unfold entries_for.
  assert (map_to_list d ≡ₚ (k, v) :: map_to_list (delete k d)) as HP.
  { rewrite <- (insert_delete_id d k v) at 1 by done.
    apply map_to_list_insert, lookup_delete_eq. }
  apply Permutation_singleton_r. rewrite HP, filter_cons_True by done.
  apply Permutation_cons; [done|]. 
  assert (filter (λ kv : string * V, kv.1 = k) (map_to_list (delete k d)) = []) as ->; [|done].
  apply filter_none, Forall_forall. intros [k' v'] Hin ?. simplify_eq/=.
  apply elem_of_map_to_list in Hin. by rewrite lookup_delete_eq in Hin.
Qed.

(** C5: when two files of one directory both declare a variable [n], and
    no file enumerated after the second declares it, then, whatever the
    console, every module that aggregation returns has exactly one entry
    for [n] in its variables map, whose value is the attribute map extracted
    from the second, later enumerated file. Aggregation returns such a
    module whenever the console writes the warnings of the unreadable files;
    it raises no conflict error: the one exception that can leave it is
    that of [print]. *)
Theorem later_file_wins (out : console) (fsys : filesystem) (path n : string)
    (before between after : list tf_file) (f1 f2 : tf_file) :
  fsys !! Path path = Some (Directory (before ++ f1 :: between ++ f2 :: after)) →
  declares_variable n f1 →
  declares_variable n f2 →
  Forall (λ f, ¬ declares_variable n f) after →
  ∃ content2 v2,
    tf_read f2 = ReadOk content2
    ∧ _extract_variables content2 !! n = Some v2
    ∧ (∀ m printed,
         parse_module out fsys path = (Ok m, printed) →
         variables m !! n = Some v2 ∧ entries_for n (variables m) = [(n, v2)])
    ∧ (accepts out [] (warnings (before ++ f1 :: between ++ f2 :: after)) →
       ∃ m printed,
         parse_module out fsys path = (Ok m, printed)
         ∧ variables m !! n = Some v2
         ∧ entries_for n (variables m) = [(n, v2)])
    ∧ (∀ e printed,
         parse_module out fsys path = (Raise e, printed) →
         ∃ raised, e = RaisedByPrint raised).
Proof.
  intros Hfs _ H2 Hafter.
  unfold declares_variable in H2. destruct (tf_read f2) as [c2|] eqn:E2; [|done].
  destruct H2 as [v2 Hv2]. exists c2, v2. split; [done|]. split; [done|].
  set (files := before ++ f1 :: between ++ f2 :: after) in *.
  assert (Hm : variables (module_of path files) !! n = Some v2).
  { unfold module_of. rewrite contribution_variables. subst files.
    rewrite (last_declaration_app n before).
    change (f1 :: between ++ f2 :: after) with ((f1 :: between) ++ f2 :: after).
    rewrite (last_declaration_app n (f1 :: between)).
    cbn [last_declaration].
    by rewrite (last_declaration_none n after Hafter), E2, Hv2. }
  split; [|split].
  - intros m printed H.
    destruct (parse_module_returned _ _ _ _ _ _ Hfs H) as [-> _].
    split; [done|]. by apply entries_for_lookup.
  - intros Hacc. exists (module_of path files), (warnings files).
    split; [|split; [done|by apply entries_for_lookup]].
    destruct (parse_module_cases out fsys path _ Hfs)
      as [[_ ->]|(bef & w & aft & raised & Hw & Hb & Hr & _)]; [done|].
    exfalso. simpl in Hw, Hacc. rewrite Hw in Hacc.
    apply accepts_app in Hacc as [_ [Hacc _]]. simpl in Hacc. congruence.
  - intros e printed H.
    destruct (parse_module_cases out fsys path _ Hfs)
      as [[_ Hok]|(bef & w & aft & raised & _ & _ & _ & Hraise)].
    + rewrite Hok in H. done.
    + rewrite Hraise in H. injection H as <- _. by exists raised.
Qed.

Lemma later_file_wins_witness :
  (demo_fs !! Path "modules/demo"
   = Some (Directory ([] ++ variables_tf :: [broken_tf] ++ overrides_tf :: []))
   ∧ declares_variable "region" variables_tf
   ∧ declares_variable "region" overrides_tf
   ∧ Forall (λ f, ¬ declares_variable "region" f) []
   ∧ accepts quiet [] (warnings ([] ++ variables_tf :: [broken_tf] ++ overrides_tf :: [])))
  ∧ ∃ m printed content2 v2,
      parse_module quiet demo_fs "modules/demo" = (Ok m, printed)
      ∧ tf_read overrides_tf = ReadOk content2
      ∧ _extract_variables content2 !! "region" = Some v2
      ∧ variables m !! "region" = Some v2
      ∧ entries_for "region" (variables m) = [("region", v2)].
Proof.
  assert (declares_variable "region" variables_tf) as H1
    by (vm_compute; by eexists).
  assert (declares_variable "region" overrides_tf) as H2
    by (vm_compute; by eexists).
  assert (accepts quiet []
            (warnings ([] ++ variables_tf :: [broken_tf] ++ overrides_tf :: []))) as H3
    by (split; [reflexivity|exact I]).
  split; [repeat split; [done|done|constructor]|].
  destruct (later_file_wins quiet demo_fs "modules/demo" "region" [] [broken_tf] []
              variables_tf overrides_tf eq_refl H1 H2 (List.Forall_nil _))
    as (content2 & v2 & Hc & Hv & _ & Hret & _).
  destruct (Hret H3) as (m & printed & Hp & Hm & He).
  by exists m, printed, content2, v2.
Defined.

Example later_file_value :
  ∃ m printed, parse_module quiet demo_fs "modules/demo" = (Ok m, printed)
    ∧ variables m = {[ "region" := {[ "default" := q "eu-west-1" ]} ]}.
Proof. eexists _, _. split; [vm_compute; reflexivity|vm_compute; reflexivity]. Qed.

(* ===================================================================== *)
(** * The wizard                                                       *)
(* ===================================================================== *)

(** ** Validators *)

Lemma validate_region_not_a_string (v : pyval) :
  isinstance_str v = false → validate_region v = false.
Proof. intros H. unfold validate_region. rewrite H. by rewrite orb_true_r. Qed.

Lemma validate_environment_not_a_string (v : pyval) :
  isinstance_str v = false → validate_environment v = false.
Proof. intros H. unfold validate_environment. rewrite H. by rewrite orb_true_r. Qed.

Lemma validate_none_empty :
  validate_region PyNone = false ∧ validate_region (PyStr EmptyString) = false
  ∧ validate_environment PyNone = false
  ∧ validate_environment (PyStr EmptyString) = false.
Proof. repeat split. Qed.

(** C10: both validators accept a string that ends in a newline after a
    well-formed name, although the whole string does not match the
    pattern: [$] also matches just before a final newline. *)
Theorem validators_accept_trailing_newline :
  validate_region (PyStr ("us-east-1" +:+ nl)) = true
  ∧ is_region ("us-east-1" +:+ nl) = false
  ∧ validate_environment (PyStr ("dev" +:+ nl)) = true
  ∧ is_environment ("dev" +:+ nl) = false.
Proof. repeat split; vm_compute; reflexivity. Qed.

(** ** What the validators accept *)

Lemma append_newline_inj (t t' : string) : t +:+ nl = t' +:+ nl → t = t'.
Proof.
  revert t'. induction t as [|x t IH]; intros [|x' t'] E; try done.
  - rewrite append_nil, append_cons in E. injection E as _ E.
    by destruct t'.
  - rewrite append_nil, append_cons in E. injection E as _ E.
    by destruct t.
  - rewrite !append_cons in E. injection E as -> E. f_equal. by apply IH.
Qed.

Section anchored.
Context (body : regex) (P : ascii → bool).
Hypothesis Hsimple : simple body.
Hypothesis Hbody : consumes_only no_flags P body.
Hypothesis Hnl : P Text.newline = false.

Lemma all_no_newline_head (u : string) :
  Text.all P u = true →
  match u with String x _ => Text.is_newline x = false | EmptyString => True end.
Proof.
  destruct u as [|x u]; [done|]. simpl. intros [Hx _]%andb_true_iff.
  unfold Text.is_newline. destruct (Ascii.eqb x Text.newline) eqn:E; [|done].
  apply Ascii.eqb_eq in E. congruence.
Qed.

Lemma anchored_alphabet (s : string) :
  matches_anchored body s →
  Text.all P s = true ∨ ∃ t, s = t +:+ nl ∧ Text.all P t = true.
Proof.
  intros [res E].
  assert (consumes_only no_flags P (RBol ⨾ body)%re) as Hc by done.
  destruct (run_moves _ _ _ _ _ _ _ Hc E) as (c' & caps' & (t & Et & Ht & _) & Hk).
  simpl in Hk, Et. unfold at_eol in Hk. destruct (rest c') as [|x [|y r]] eqn:Er; simpl in Hk.
  - left. rewrite append_empty_r in Et. by subst.
  - right. exists t. destruct (Text.is_newline x) eqn:Ex; [|done].
    apply Ascii.eqb_eq in Ex as ->. by subst.
  - by rewrite andb_false_r in Hk.
Qed.

Lemma fullmatch_anchored_alphabet (s : string) :
  fullmatches_anchored body s → Text.all P s = true.
Proof.
  intros [res E].
  assert (consumes_only no_flags P (RBol ⨾ body)%re) as Hc by done.
  destruct (run_moves _ _ _ _ _ _ _ Hc E) as (c' & caps' & (t & Et & Ht & _) & Hk).
  simpl in Hk, Et. destruct (at_eol no_flags c'); [|done].
  unfold at_end in Hk. destruct (rest c'); [|done].
  rewrite append_empty_r in Et. by subst.
Qed.

Lemma all_with_newline (t : string) : Text.all P (t +:+ nl) = false.
Proof. rewrite all_app. simpl. by rewrite Hnl, andb_false_r. Qed.

(** On a subject without a newline, [match] and [fullmatch] agree. *)
Lemma anchored_one_line (s : string) :
  Text.all P s = true → matches_anchored body s ↔ fullmatches_anchored body s.
Proof.
  intros Hs. unfold matches_anchored, fullmatches_anchored, start_of.
  rewrite <- (append_empty_r s) at 1.
  apply (run_sim no_flags P EmptyString I); [done|done|].
  intros t u' p n caps -> Ht. rewrite append_empty_r. cbn [run].
  rewrite all_app in Hs. apply andb_true_iff in Hs as [_ Hu].
  pose proof (all_no_newline_head u' Hu) as Hh.
  unfold at_eol, at_end. cbn [rest]. destruct u' as [|x u']; [done|].
  rewrite Hh. simpl. split; by intros [? ?].
Qed.

(** On a subject that ends in a newline, [match] succeeds when [fullmatch]
    succeeds on the subject without that newline. *)
Lemma anchored_final_newline (t : string) :
  Text.all P t = true →
  matches_anchored body (t +:+ nl) ↔ fullmatches_anchored body t.
Proof.
  intros Ht. unfold matches_anchored, fullmatches_anchored, start_of.
  apply (run_sim no_flags P nl Hnl); [done|done|].
  intros t' u' p n caps -> Ht'. cbn [run].
  rewrite all_app in Ht. apply andb_true_iff in Ht as [_ Hu].
  pose proof (all_no_newline_head u' Hu) as Hh.
  unfold at_eol, at_end. cbn [rest]. destruct u' as [|x u'].
  - rewrite append_nil. simpl. done.
  - rewrite append_cons, Hh. simpl. split; by intros [? ?].
Qed.

(** A pattern [^body$] tried with [match] accepts the strings that it
    matches in full, and those strings followed by one newline. *)
Lemma anchored_match_spec (s : string) :
  matches_anchored body s
  ↔ fullmatches_anchored body s
    ∨ ∃ t, s = t +:+ nl ∧ fullmatches_anchored body t.
Proof.
  split.
  - intros H. destruct (anchored_alphabet s H) as [Hs|(t & -> & Ht)].
    + left. by apply anchored_one_line.
    + right. exists t. split; [done|]. by apply anchored_final_newline.
  - intros [H|(t & -> & H)].
    + apply anchored_one_line; [|done]. by apply fullmatch_anchored_alphabet.
    + apply anchored_final_newline; [|done]. by apply fullmatch_anchored_alphabet.
Qed.

End anchored.

Lemma region_char_newline : region_char Text.newline = false.
Proof. reflexivity. Qed.

Lemma environment_char_newline : environment_char Text.newline = false.
Proof. reflexivity. Qed.

Lemma region_body_simple : simple region_body.
Proof. repeat split. Qed.

Lemma region_body_alphabet : consumes_only no_flags region_char region_body.
Proof. repeat split; intros [[] [] [] [] [] [] [] []]; vm_compute; done. Qed.

Lemma environment_body_alphabet :
  consumes_only no_flags environment_char environment_body.
Proof. intros [[] [] [] [] [] [] [] []]; vm_compute; done. Qed.

Lemma re_match_is_Some (fl : flags) (r : regex) (s : string) :
  is_Some (re_match fl r s) ↔ is_Some (run fl r (start_of s) [] accept).
Proof.
  unfold re_match. destruct (run _ _ _ _ _) as [[c caps]|];
    [split; intros _; by eexists|split; intros [? ?]; done].
Qed.

Lemma re_fullmatch_is_Some (fl : flags) (r : regex) (s : string) :
  is_Some (re_fullmatch fl r s)
  ↔ is_Some (run fl r (start_of s) []
               (λ c caps, if at_end c then Some (c, caps) else None)).
Proof.
  unfold re_fullmatch. destruct (run _ _ _ _ _) as [[c caps]|];
    [split; intros _; by eexists|split; intros [? ?]; done].
Qed.

Lemma is_region_anchored (s : string) :
  is_region s = true ↔ fullmatches_anchored region_body s.
Proof.
  unfold is_region. by rewrite bool_decide_eq_true, re_fullmatch_is_Some.
Qed.

Lemma is_environment_anchored (s : string) :
  is_environment s = true ↔ fullmatches_anchored environment_body s.
Proof.
  unfold is_environment. by rewrite bool_decide_eq_true, re_fullmatch_is_Some.
Qed.

Lemma validate_region_anchored (s : string) :
  validate_region (PyStr s) = true
  ↔ s ≠ EmptyString ∧ matches_anchored region_body s.
Proof.
  unfold validate_region. cbn [truthy isinstance_str negb orb].
  destruct (String.eqb_spec s EmptyString) as [->|Hne]; cbn [negb orb].
  - split; [done|]. by intros [? _].
  - rewrite bool_decide_eq_true, re_match_is_Some.
    split; [by split|by intros [_ ?]].
Qed.

Lemma validate_environment_anchored (s : string) :
  validate_environment (PyStr s) = true
  ↔ s ≠ EmptyString ∧ matches_anchored environment_body s.
Proof.
  unfold validate_environment. cbn [truthy isinstance_str negb orb].
  destruct (String.eqb_spec s EmptyString) as [->|Hne]; cbn [negb orb].
  - split; [done|]. by intros [? _].
  - rewrite bool_decide_eq_true, re_match_is_Some.
    split; [by split|by intros [_ ?]].
Qed.

(** [validate_region] accepts the strings that match the region pattern in
    full, and those strings followed by one newline; nothing else. *)
Theorem validate_region_spec (s : string) :
  validate_region (PyStr s) = true
  ↔ is_region s = true ∨ ∃ t, s = t +:+ nl ∧ is_region t = true.
Proof.
  rewrite validate_region_anchored.
  rewrite (anchored_match_spec region_body region_char region_body_simple
             region_body_alphabet region_char_newline s).
  rewrite is_region_anchored. split.
  - intros [_ [H|(t & -> & H)]]; [by left|]. right. exists t.
    by rewrite is_region_anchored.
  - intros [H|(t & -> & H)].
    + split; [|by left]. intros ->. by apply is_region_anchored in H.
    + split; [by destruct t|]. right. exists t. by rewrite <- is_region_anchored.
Qed.

(** [validate_environment] accepts the strings that match the environment
    pattern in full, and those strings followed by one newline. *)
Theorem validate_environment_spec (s : string) :
  validate_environment (PyStr s) = true
  ↔ is_environment s = true ∨ ∃ t, s = t +:+ nl ∧ is_environment t = true.
Proof.
  rewrite validate_environment_anchored.
  rewrite (anchored_match_spec environment_body environment_char I
             environment_body_alphabet environment_char_newline s).
  rewrite is_environment_anchored. split.
  - intros [_ [H|(t & -> & H)]]; [by left|]. right. exists t.
    by rewrite is_environment_anchored.
  - intros [H|(t & -> & H)].
    + split; [|by left]. intros ->. by apply is_environment_anchored in H.
    + split; [by destruct t|]. right. exists t. by rewrite <- is_environment_anchored.
Qed.

(** ** The command line *)

Lemma fold_user_tags_lookup (l : list (string * string)) (c : WizardConfig) (k : string) :
  tags (foldl (λ config kv, set_tags (λ ts, <[kv.1 := kv.2]> ts) config) c l) !! k
  = match last_value k l with
    | Some v => Some v
    | None => tags c !! k
    end.
Proof.
  revert c. induction l as [|[k' v] l IH]; intros c; simpl; [done|].
  rewrite IH. destruct (last_value k l); [done|]. simpl.
  destruct (String.eqb k' k) eqn:E.
  - apply String.eqb_eq in E as ->. by rewrite lookup_insert_eq.
  - apply String.eqb_neq in E. by rewrite lookup_insert_ne.
Qed.

Lemma fold_user_tags_fields (l : list (string * string)) (c : WizardConfig) :
  let c' := foldl (λ config kv, set_tags (λ ts, <[kv.1 := kv.2]> ts) config) c l in
  modules c' = modules c ∧ region c' = region c ∧ environment c' = environment c.
Proof.
  revert c. induction l as [|kv l IH]; intros c; simpl; [done|].
  destruct (IH (set_tags (λ ts, <[kv.1 := kv.2]> ts) c)) as (-> & -> & ->). done.
Qed.

Lemma fold_all_modules_fields (ms : list ModuleInfo) (c : WizardConfig) :
  let c' := foldl (λ config module,
                     set_modules (λ ms, <[name module := true]> ms) config) c ms in
  region c' = region c ∧ environment c' = environment c ∧ tags c' = tags c.
Proof.
  revert c. induction ms as [|m ms IH]; intros c; simpl; [done|].
  destruct (IH (set_modules (λ ms, <[name m := true]> ms) c)) as (-> & -> & ->). done.
Qed.

Lemma build_config_environment (args : Namespace) :
  environment (build_config_from_args args) = default "dev" (given (args_env args)).
Proof.
  unfold build_config_from_args.
  set (c0 := if args_all_modules args then _ else _).
  assert (environment c0 = "dev") as H0.
  { subst c0. destruct (args_all_modules args); [|done].
    by destruct (fold_all_modules_fields AVAILABLE_MODULES default_config) as (_ & -> & _). }
  set (c1 := match given (args_region args) with Some r => _ | None => _ end).
  assert (environment c1 = "dev") as H1.
  { subst c1. by destruct (given (args_region args)). }
  set (c2 := match given (args_env args) with Some r => _ | None => _ end).
  assert (environment c2 = default "dev" (given (args_env args))) as H2.
  { subst c2. by destruct (given (args_env args)). }
  destruct (args_tags args) as [[|kv l]|]; simpl; try done.
  by destruct (fold_user_tags_fields l (set_tags (λ ts, <[kv.1:=kv.2]> ts)
    (set_tags (λ _, <["ManagedBy":="Terraform"]> (<["Environment":=environment c2]> ∅)) c2))) as (_ & _ & ->).
Qed.

(** C9: the configuration built from a parsed argument namespace has the
    configured environment, [dev] when none was given; its tag map always
    has the keys [Environment] and [ManagedBy]; and the value under any key
    is that of the last [--tag] pair with this key when there is one, and
    otherwise the auto-included value (the environment, [Terraform]): the
    user's pairs are inserted after the auto-included ones and overwrite
    them. *)
Theorem build_config_tags (args : Namespace) :
  let c := build_config_from_args args in
  environment c = default "dev" (given (args_env args))
  ∧ is_Some (tags c !! "Environment")
  ∧ is_Some (tags c !! "ManagedBy")
  ∧ ∀ k, tags c !! k =
         match last_value k (user_tags args) with
         | Some v => Some v
         | None =>
             if String.eqb k "Environment" then Some (environment c)
             else if String.eqb k "ManagedBy" then Some "Terraform"
             else None
         end.
Proof.
  intros c.
  assert (∀ k, tags c !! k =
         match last_value k (user_tags args) with
         | Some v => Some v
         | None =>
             if String.eqb k "Environment" then Some (environment c)
             else if String.eqb k "ManagedBy" then Some "Terraform"
             else None
         end) as Hall.
  { intros k. pose proof (build_config_environment args) as He. fold c in He.
    rewrite He. subst c. unfold build_config_from_args, user_tags.
    set (c0 := if args_all_modules args then _ else _).
    assert (environment c0 = "dev") as H0.
    { subst c0. destruct (args_all_modules args); [|done].
      by destruct (fold_all_modules_fields AVAILABLE_MODULES default_config)
        as (_ & -> & _). }
    set (c1 := match given (args_region args) with Some r => _ | None => _ end).
    assert (environment c1 = "dev") as H1.
    { subst c1. by destruct (given (args_region args)). }
    set (c2 := match given (args_env args) with Some r => _ | None => _ end).
    assert (environment c2 = default "dev" (given (args_env args))) as H2.
    { subst c2. by destruct (given (args_env args)). }
    rewrite <- H2.
    set (c3 := set_tags _ c2).
    assert (tags c3 !! k = if String.eqb k "Environment" then Some (environment c2)
             else if String.eqb k "ManagedBy" then Some "Terraform"
             else None) as H3.
    { subst c3. simpl. destruct (String.eqb k "Environment") eqn:E1.
      - apply String.eqb_eq in E1 as ->. by rewrite lookup_insert_ne, lookup_insert_eq.
      - apply String.eqb_neq in E1. destruct (String.eqb k "ManagedBy") eqn:E2.
        + apply String.eqb_eq in E2 as ->. by rewrite lookup_insert_eq.
        + apply String.eqb_neq in E2. by rewrite !lookup_insert_ne, lookup_empty. }
    destruct (args_tags args) as [[|kv l]|]; simpl; try done.
    rewrite <- H3.
    apply (fold_user_tags_lookup (kv :: l) c3 k). }
  split; [apply build_config_environment|].
  split; [|split; [|done]].
  - rewrite Hall. destruct (last_value _ _); [done|]. by simpl.
  - rewrite Hall. destruct (last_value _ _); [done|]. by simpl.
Qed.

(** ** The generated lines *)

Lemma flag_line_one_line (c : WizardConfig) :
  Forall (λ m, no_newline (flag_line c m) = true) AVAILABLE_MODULES.
Proof.
  unfold flag_line.
  repeat constructor; simpl; by destruct (default false _).
Qed.

Lemma tag_line_one_line (kv : string * string) :
  no_newline kv.1 = true → no_newline kv.2 = true →
  no_newline (tag_line kv) = true.
Proof.
  intros Hk Hv. pose proof (escape_no_newline _ Hv) as Hv'.
  unfold tag_line, no_newline in *. by rewrite !all_app, Hk, Hv'.
Qed.

Lemma generate_lines_one_line (c : WizardConfig) :
  newline_free c → Forall (λ l, no_newline l = true) (generate_lines c).
Proof.
  intros (Hr & He & Ht). unfold generate_lines.
  constructor. { unfold region_line, no_newline in *. by rewrite !all_app, Hr. }
  constructor. { unfold environment_line, no_newline in *. by rewrite !all_app, He. }
  apply Forall_app. split. { apply Forall_fmap, flag_line_one_line. }
  constructor; [done|]. apply Forall_app. split; [|by repeat constructor].
  apply Forall_fmap, Forall_forall. intros [k v] Hkv.
  apply elem_of_map_to_list in Hkv. destruct (Ht k v Hkv).
  by apply tag_line_one_line.
Qed.

(** The lines of the generated text are the generated lines. *)
Lemma split_generate (c : WizardConfig) :
  newline_free c →
  Text.split Text.newline (generate_tfvars_content c) = generate_lines c.
Proof.
  intros Hc. apply split_join; [done|]. by apply generate_lines_one_line.
Qed.

Lemma filter_map_none {A} (f : string → bool) (g : A → string) (l : list A) :
  (∀ x, f (g x) = false) → List.filter f (map g l) = [].
Proof.
  intros H. induction l as [|x l IH]; [done|]. simpl. by rewrite H.
Qed.

Lemma assigns_flag_flag_line (c : WizardConfig) (flag : string) :
  Forall (λ m, assigns_flag flag (flag_line c m) = String.eqb (var_name m) flag)
         AVAILABLE_MODULES.
Proof.
  unfold flag_line. repeat constructor; simpl; by destruct (default false _).
Qed.

Lemma filter_flag_lines (c : WizardConfig) (flag : string) (ms : list ModuleInfo) :
  Forall (λ m, assigns_flag flag (flag_line c m) = String.eqb (var_name m) flag) ms →
  List.filter (assigns_flag flag) (map (flag_line c) ms)
  = map (flag_line c) (List.filter (λ m, String.eqb (var_name m) flag) ms).
Proof.
  induction 1 as [|m ms Hm _ IH]; [done|]. simpl. rewrite Hm, IH.
  by destruct (String.eqb (var_name m) flag).
Qed.

(** C6, for configurations without a newline in the region, the
    environment and the tags: the generated text has, for every feature of
    the registry, exactly one boolean assignment line under the feature's
    flag name, and it reads [true] when the configuration enables the
    feature and [false] otherwise, also when the feature is absent from the
    configuration. *)
Theorem one_flag_line_per_feature (c : WizardConfig) :
  newline_free c →
  Forall (λ m, flag_lines_of (var_name m) (generate_tfvars_content c)
               = [var_name m +:+ " = " +:+
                  (if default false (modules c !! name m) then "true" else "false")])
         AVAILABLE_MODULES.
Proof.
  intros Hc.
  assert (∀ flag, flag_lines_of flag (generate_tfvars_content c)
          = map (flag_line c)
              (List.filter (λ m, String.eqb (var_name m) flag) AVAILABLE_MODULES)) as H.
  { intros flag. unfold flag_lines_of. rewrite (split_generate c Hc).
    unfold generate_lines.
    change (region_line c :: environment_line c :: ?l) with ([region_line c; environment_line c] ++ l).
    rewrite !List.filter_app.
    rewrite (filter_flag_lines c flag _ (assigns_flag_flag_line c flag)).
    change ("common_tags = {" :: ?l) with (["common_tags = {"] ++ l).
    rewrite !List.filter_app.
    rewrite (filter_map_none (assigns_flag flag) tag_line) by done.
    simpl. by rewrite app_nil_r. }
  repeat constructor; rewrite H; reflexivity.
Qed.

Lemma special_characters_newline_free : newline_free special_characters.
Proof.
  split; [done|]. split; [done|].
  refine (bool_decide_unpack _ _). vm_compute. exact I.
Defined.

Lemma one_flag_line_per_feature_witness :
  newline_free special_characters
  ∧ Forall (λ m, flag_lines_of (var_name m) (generate_tfvars_content special_characters)
               = [var_name m +:+ " = " +:+
                  (if default false (modules special_characters !! name m)
                   then "true" else "false")])
         AVAILABLE_MODULES.
Proof.
  split; [exact special_characters_newline_free|].
  exact (one_flag_line_per_feature special_characters special_characters_newline_free).
Defined.

Lemma injected_newline_two_flag_lines :
  flag_lines_of "enable_macie" (generate_tfvars_content injected)
  = ["enable_macie = false"; "enable_macie = true"]
  ∧ ¬ Forall (λ m, flag_lines_of (var_name m) (generate_tfvars_content injected)
               = [var_name m +:+ " = " +:+
                  (if default false (modules injected !! name m)
                   then "true" else "false")])
         AVAILABLE_MODULES.
Proof.
  split; [vm_compute; reflexivity|]. intros H.
  pose proof (Forall_lookup_1 _ _ 7 _ H eq_refl) as H7.
  vm_compute in H7. discriminate.
Qed.

(** ** The round trip *)

Lemma all_impl (P Q : ascii → bool) (s : string) :
  (∀ x, P x = true → Q x = true) → Text.all P s = true → Text.all Q s = true.
Proof.
  intros H. induction s as [|c s IH]; [done|]. simpl.
  intros [Hc Hs]%andb_true_iff. by rewrite (H _ Hc), IH.
Qed.

Lemma region_pattern_alphabet :
  consumes_only no_flags region_char AWS_REGION_PATTERN.
Proof.
  repeat split; intros [[] [] [] [] [] [] [] []]; vm_compute; done.
Qed.

Lemma environment_pattern_alphabet :
  consumes_only no_flags environment_char ENVIRONMENT_PATTERN.
Proof.
  repeat split; intros [[] [] [] [] [] [] [] []]; vm_compute; done.
Qed.

Lemma is_region_chars (s : string) :
  is_region s = true → Text.all region_char s = true.
Proof.
  intros H%bool_decide_eq_true.
  exact (fullmatch_alphabet _ _ _ _ region_pattern_alphabet H).
Qed.

Lemma is_environment_chars (s : string) :
  is_environment s = true → Text.all environment_char s = true.
Proof.
  intros H%bool_decide_eq_true.
  exact (fullmatch_alphabet _ _ _ _ environment_pattern_alphabet H).
Qed.

Lemma region_char_plain (x : ascii) :
  region_char x = true →
  negb (Text.is_newline x) = true ∧ negb (Text.is_dquote x) = true.
Proof. destruct x as [[] [] [] [] [] [] [] []]; vm_compute; done. Qed.

Lemma environment_char_plain (x : ascii) :
  environment_char x = true →
  negb (Text.is_newline x) = true ∧ negb (Text.is_dquote x) = true.
Proof. destruct x as [[] [] [] [] [] [] [] []]; vm_compute; done. Qed.

Lemma is_region_plain (s : string) :
  is_region s = true → no_newline s = true ∧ no_dquote s = true.
Proof.
  intros H%is_region_chars. split; (eapply all_impl; [|exact H]);
    intros x Hx; by destruct (region_char_plain x Hx).
Qed.

Lemma is_environment_plain (s : string) :
  is_environment s = true → no_newline s = true ∧ no_dquote s = true.
Proof.
  intros H%is_environment_chars. split; (eapply all_impl; [|exact H]);
    intros x Hx; by destruct (environment_char_plain x Hx).
Qed.

(** *** One line at a time *)

Lemma parse_region_line (c c0 : WizardConfig) :
  no_dquote (region c) = true →
  parse_line (SCANNING, c0) (region_line c) = (SCANNING, set_region (region c) c0).
Proof.
  intros Hq. unfold parse_line.
  change (is_tags_open (region_line c)) with false. cbv iota.
  assert (match_string_assignment (region_line c) = Some ("aws_region", region c)) as ->.
  { unfold match_string_assignment.
    change (split_assignment (region_line c))
      with (Some ("aws_region", Generator.dq +:+ region c +:+ Generator.dq)).
    cbv iota beta.
    change (quoted_value (Generator.dq +:+ region c +:+ Generator.dq))
      with (until_last_quote (region c +:+ Generator.dq)).
    by rewrite until_last_quote_app, (unescape_no_dquote _ Hq). }
  reflexivity.
Qed.

Lemma parse_environment_line (c c0 : WizardConfig) :
  no_dquote (environment c) = true →
  parse_line (SCANNING, c0) (environment_line c)
  = (SCANNING, set_environment (environment c) c0).
Proof.
  intros Hq. unfold parse_line.
  change (is_tags_open (environment_line c)) with false. cbv iota.
  assert (match_string_assignment (environment_line c)
          = Some ("environment", environment c)) as ->.
  { unfold match_string_assignment.
    change (split_assignment (environment_line c))
      with (Some ("environment", Generator.dq +:+ environment c +:+ Generator.dq)).
    cbv iota beta.
    change (quoted_value (Generator.dq +:+ environment c +:+ Generator.dq))
      with (until_last_quote (environment c +:+ Generator.dq)).
    by rewrite until_last_quote_app, (unescape_no_dquote _ Hq). }
  reflexivity.
Qed.

Lemma parse_flag_line (c : WizardConfig) :
  Forall (λ m, ∀ c0, parse_line (SCANNING, c0) (flag_line c m)
                     = (SCANNING,
                        set_modules (λ ms, <[name m := default false (modules c !! name m)]> ms) c0))
         AVAILABLE_MODULES.
Proof.
  unfold flag_line.
  repeat constructor; intros c0; simpl; by destruct (default false _).
Qed.

Lemma parse_tag_line (k v : string) (c0 : WizardConfig) :
  k ≠ EmptyString → no_dquote k = true →
  parse_line (IN_TAG_BLOCK, c0) (tag_line (k, v))
  = (IN_TAG_BLOCK, set_tags (λ ts, <[k := v]> ts) c0).
Proof.
  intros Hne Hq. unfold parse_line.
  change (is_block_close (tag_line (k, v))) with false. cbv iota.
  assert (match_tag_pair (tag_line (k, v)) = Some (k, v)) as ->; [|done].
  unfold match_tag_pair, tag_line. cbn [fst snd].
  change (Text.lstrip ("  " +:+ Generator.dq +:+ k +:+ Generator.dq +:+ " = " +:+ Generator.dq +:+ escape_quotes v +:+ Generator.dq))
    with (String Text.dquote (k +:+ String Text.dquote (" = " +:+ Generator.dq +:+ escape_quotes v +:+ Generator.dq))).
  cbv iota beta. change (Text.is_dquote Text.dquote) with true. cbv iota.
  rewrite take_while_app, drop_while_app by done.
  destruct k as [|k0 k']; [done|].
  change (Text.lstrip (" = " +:+ Generator.dq +:+ escape_quotes v +:+ Generator.dq))
    with (String "=" (" " +:+ Generator.dq +:+ escape_quotes v +:+ Generator.dq)).
  cbv iota beta.
  change (quoted_value (Text.lstrip (" " +:+ Generator.dq +:+ escape_quotes v +:+ Generator.dq)))
    with (until_last_quote (escape_quotes v +:+ Generator.dq)).
  by rewrite until_last_quote_app, unescape_escape.
Qed.

(** *** All lines *)

Lemma parse_flag_lines (c c0 : WizardConfig) (ms : list ModuleInfo) :
  Forall (λ m, ∀ c0, parse_line (SCANNING, c0) (flag_line c m)
                     = (SCANNING,
                        set_modules (λ ms, <[name m := default false (modules c !! name m)]> ms) c0))
         ms →
  foldl parse_line (SCANNING, c0) (map (flag_line c) ms)
  = (SCANNING,
     set_modules
       (λ ms0, foldl (λ acc m, <[name m := default false (modules c !! name m)]> acc) ms0 ms)
       c0).
Proof.
  intros H. revert c0. induction H as [|m ms Hm _ IH]; intros c0.
  - by destruct c0.
  - cbn [map foldl]. by rewrite Hm, IH.
Qed.

Lemma parse_tag_lines (c0 : WizardConfig) (kvs : list (string * string)) :
  Forall (λ kv, kv.1 ≠ EmptyString ∧ no_dquote kv.1 = true) kvs →
  foldl parse_line (IN_TAG_BLOCK, c0) (map tag_line kvs)
  = (IN_TAG_BLOCK,
     set_tags (λ ts, foldl (λ acc kv, <[kv.1 := kv.2]> acc) ts kvs) c0).
Proof.
  intros H. revert c0. induction H as [|[k v] kvs [Hne Hq] _ IH]; intros c0.
  - by destruct c0.
  - cbn [map foldl]. by rewrite (parse_tag_line k v c0 Hne Hq), IH.
Qed.

Lemma foldl_insert_names {V} (h : string → V) (ms : list ModuleInfo)
    (init : gmap string V) (k : string) :
  foldl (λ acc m, <[name m := h (name m)]> acc) init ms !! k
  = if decide (k ∈ name <$> ms) then Some (h k) else init !! k.
Proof.
  revert init. induction ms as [|m ms IH]; intros init; [done|].
  cbn [foldl fmap list_fmap]. rewrite IH.
  destruct (decide (k ∈ name <$> ms)) as [Hin|Hnin].
  - rewrite decide_True; [done|]. by right.
  - destruct (decide (k = name m)) as [->|Hne].
    + rewrite lookup_insert_eq, decide_True; [done|]. by left.
    + rewrite lookup_insert_ne by done. rewrite decide_False; [done|].
      intros [?|?]%elem_of_cons; done.
Qed.

Lemma registry_names :
  list_to_set (name <$> AVAILABLE_MODULES) = EXPECTED_MODULE_NAMES.
Proof. vm_compute. reflexivity. Qed.

(** The flags written for a configuration over the registered features
    rebuild its feature map. *)
Lemma flags_rebuild_modules (mods : gmap string bool) :
  dom mods = EXPECTED_MODULE_NAMES →
  foldl (λ acc m, <[name m := default false (mods !! name m)]> acc) ∅ AVAILABLE_MODULES
  = mods.
Proof.
  intros Hdom. apply map_eq. intros k.
  rewrite (foldl_insert_names (λ n, default false (mods !! n))).
  assert (k ∈ name <$> AVAILABLE_MODULES ↔ is_Some (mods !! k)) as Hk.
  { rewrite <- elem_of_dom, Hdom, <- registry_names. by rewrite elem_of_list_to_set. }
  destruct (decide (k ∈ name <$> AVAILABLE_MODULES)) as [Hin|Hnin].
  - apply Hk in Hin as [b ->]. done.
  - rewrite lookup_empty. symmetry. apply eq_None_not_Some. by rewrite <- Hk.
Qed.

Lemma foldl_insert_pairs {V} (l : list (string * V)) (init : gmap string V) :
  NoDup l.*1 →
  foldl (λ acc kv, <[kv.1 := kv.2]> acc) init l = list_to_map l ∪ init.
Proof.
  revert init. induction l as [|[k v] l IH]; intros init Hnd.
  - simpl. by rewrite (left_id_L ∅ (∪)).
  - simpl in Hnd. apply NoDup_cons in Hnd as [Hk Hnd].
    cbn [foldl list_to_map foldr fst snd]. rewrite (IH _ Hnd).
    rewrite <- insert_union_l. symmetry. apply insert_union_r.
    by apply not_elem_of_list_to_map_1.
Qed.

(** The pairs written for a tag map rebuild it. *)
Lemma pairs_rebuild_tags (ts : gmap string string) :
  foldl (λ acc kv, <[kv.1 := kv.2]> acc) ∅ (map_to_list ts) = ts.
Proof.
  rewrite foldl_insert_pairs by apply NoDup_fst_map_to_list.
  by rewrite list_to_map_to_list, (right_id_L ∅ (∪)).
Qed.

Lemma validate_tag_key_nonempty (k : string) :
  validate_tag_key (PyStr k) = true → k ≠ EmptyString.
Proof. by intros H ->. Qed.

(** Whatever the keys of the feature map, parsing the generated text gives
    the region, the environment and the tags back, and the feature map as
    the flag lines show it. *)
Lemma parse_generate (c : WizardConfig) :
  is_region (region c) = true →
  is_environment (environment c) = true →
  map_Forall (λ k v, validate_tag_key (PyStr k) = true ∧ plain_key k
                     ∧ no_newline v = true) (tags c) →
  parse_tfvars_content (generate_tfvars_content c)
  = set_modules (λ _, registry_view (modules c)) c.
Proof.
  intros [Hrn Hrq]%is_region_plain [Hen Heq]%is_environment_plain Htags.
  assert (newline_free c) as Hnf.
  { split; [done|]. split; [done|]. intros k v Hkv.
    by destruct (Htags k v Hkv) as (_ & [_ ?] & ?). }
  unfold parse_tfvars_content, parse_run.
  rewrite (split_generate c Hnf). unfold generate_lines.
  cbn [foldl]. rewrite (parse_region_line c _ Hrq), (parse_environment_line c _ Heq).
  rewrite foldl_app, (parse_flag_lines c _ _ (parse_flag_line c)).
  cbn [foldl]. change (parse_line (SCANNING, ?c0) "common_tags = {") with (IN_TAG_BLOCK, c0).
  rewrite foldl_app, parse_tag_lines.
  - cbn [foldl]. change (parse_line (IN_TAG_BLOCK, ?c0) "}") with (SCANNING, c0).
    cbn [snd]. destruct c as [ms r e ts].
    unfold set_tags, set_modules, set_region, set_environment, registry_view.
    cbn [modules region environment tags default_config] in *.
    by rewrite pairs_rebuild_tags.
  - apply Forall_forall. intros [k v] Hkv. apply elem_of_map_to_list in Hkv.
    destruct (Htags k v Hkv) as (Hk & [Hq _] & _). split; [|done].
    by apply validate_tag_key_nonempty.
Qed.

(** The enabled status of every registered feature survives the round
    trip, also when the configuration does not mention the feature. *)
Lemma round_trip_enabled (c : WizardConfig) (feature : string) :
  feature ∈ EXPECTED_MODULE_NAMES →
  is_region (region c) = true →
  is_environment (environment c) = true →
  map_Forall (λ k v, validate_tag_key (PyStr k) = true ∧ plain_key k
                     ∧ no_newline v = true) (tags c) →
  default false (modules (parse_tfvars_content (generate_tfvars_content c)) !! feature)
  = default false (modules c !! feature).
Proof.
  intros Hf Hr He Ht. rewrite (parse_generate c Hr He Ht). cbn [modules set_modules].
  unfold registry_view.
  rewrite (foldl_insert_names (λ n, default false (modules c !! n))).
  rewrite decide_True; [done|].
  by rewrite <- registry_names, elem_of_list_to_set in Hf.
Qed.

(** C1, for the configurations on which it holds: when the feature map
    of a configuration has exactly the registered feature names as keys,
    its region and its environment match their patterns, its tag keys are
    not blank and hold no double quote and no newline, and its tag values
    hold no newline, parsing the generated text gives the configuration
    back, with equal region, environment, feature map and tag map. Double
    quotes in tag values are escaped on generation and recovered on parse. *)
Theorem round_trip (c : WizardConfig) :
  dom (modules c) = EXPECTED_MODULE_NAMES →
  is_region (region c) = true →
  is_environment (environment c) = true →
  map_Forall (λ k v, validate_tag_key (PyStr k) = true ∧ plain_key k
                     ∧ no_newline v = true) (tags c) →
  parse_tfvars_content (generate_tfvars_content c) = c.
Proof.
  intros Hdom Hr He Ht. rewrite (parse_generate c Hr He Ht).
  unfold registry_view. rewrite (flags_rebuild_modules _ Hdom). by destruct c.
Qed.

Lemma round_trip_witness :
  (dom (modules special_characters) = EXPECTED_MODULE_NAMES
   ∧ is_region (region special_characters) = true
   ∧ is_environment (environment special_characters) = true
   ∧ map_Forall (λ k v, validate_tag_key (PyStr k) = true ∧ plain_key k
                        ∧ no_newline v = true) (tags special_characters))
  ∧ parse_tfvars_content (generate_tfvars_content special_characters)
    = special_characters.
Proof.
  assert (dom (modules special_characters) = EXPECTED_MODULE_NAMES) as H1
    by (vm_compute; reflexivity).
  assert (map_Forall (λ k v, validate_tag_key (PyStr k) = true ∧ plain_key k
                        ∧ no_newline v = true) (tags special_characters)) as H4.
  { refine (bool_decide_unpack _ _). vm_compute. exact I. }
  split; [split; [exact H1|split; [reflexivity|split; [reflexivity|exact H4]]]|].
  exact (round_trip special_characters H1 eq_refl eq_refl H4).
Defined.

(** The shapes that [test_generated_content_has_valid_hcl_syntax] looks
    for in the generated text. *)
Example generated_shapes :
  let content :=
    generate_tfvars_content
      {| modules := {[ "cloudtrail" := true; "config" := false ]};
         region := "ap-southeast-1"; environment := "staging";
         tags := {[ "Environment" := "staging"; "Team" := "Security" ]} |} in
  contains ("environment = " +:+ q "staging") content = true
  ∧ contains ("aws_region  = " +:+ q "ap-southeast-1") content = true
  ∧ contains "enable_cloudtrail = true" content = true
  ∧ contains "enable_config = false" content = true
  ∧ contains "common_tags = {" content = true
  ∧ contains "}" content = true.
Proof. repeat split; vm_compute; reflexivity. Qed.

Example quotes_are_escaped :
  tag_line ("Description", "Value with " +:+ q "quotes")
  = "  " +:+ q "Description" +:+ " = "
    +:+ q ("Value with \" +:+ Audit.dq +:+ "quotes\" +:+ Audit.dq)
  ∧ tags (parse_tfvars_content (generate_tfvars_content special_characters))
      !! "Description" = Some ("Value with " +:+ q "quotes").
Proof. split; vm_compute; reflexivity. Qed.

Lemma round_trip_counterexample :
  (validated no_modules
   ∧ parse_tfvars_content (generate_tfvars_content no_modules) ≠ no_modules)
  ∧ (validated quoted_key
     ∧ parse_tfvars_content (generate_tfvars_content quoted_key) ≠ quoted_key)
  ∧ (validated two_line_key
     ∧ parse_tfvars_content (generate_tfvars_content two_line_key) ≠ two_line_key).
Proof.
  assert (∀ c, is_region (region c) = true → is_environment (environment c) = true →
     bool_decide (map_Forall (λ k v, validate_tag_key (PyStr k) = true
                       ∧ no_newline v = true) (tags c)) = true → validated c) as Hv.
  { intros c ?? H%bool_decide_eq_true. unfold validated. auto. }
  split; [|split]; (split; [apply Hv; vm_compute; reflexivity|]).
  - intros H. apply (f_equal (λ c, modules c !! "cloudtrail")) in H.
    vm_compute in H. discriminate.
  - intros H. apply (f_equal (λ c, size (tags c))) in H.
    vm_compute in H. discriminate.
  - intros H. apply (f_equal (λ c, size (tags c))) in H.
    vm_compute in H. discriminate.
Qed.

(** A region that ends in a newline passes [validate_region] and breaks
    the round trip. *)
Example newline_region_round_trip :
  let c := {| modules := all_enabled; region := "us-east-1" +:+ nl;
              environment := "dev"; tags := ∅ |} in
  validate_region (PyStr (region c)) = true
  ∧ region (parse_tfvars_content (generate_tfvars_content c)) = "us-east-1".
Proof. split; vm_compute; reflexivity. Qed.

Example no_modules_is_reachable :
  build_config_from_args
    {| args_all_modules := false; args_region := Some "us-east-1";
       args_env := None; args_tags := None |}
  = no_modules.
Proof. reflexivity. Qed.


(* ===================================================================== *)
(** * More on text                                                       *)
(* ===================================================================== *)


Lemma drop_app_length (a b : string) : Text.drop (String.length a) (a +:+ b) = b.
Proof. induction a; simpl; [by destruct b|done]. Qed.

Lemma slice_inside_app (pre body tail : string) :
  Text.slice (pre +:+ body +:+ tail) (Z.of_nat (String.length pre))
    (Z.of_nat (String.length pre + String.length body)) = body.
Proof.
  rewrite slice_inside.
  - rewrite drop_app_length.
    replace (String.length pre + String.length body - String.length pre)
      with (String.length body) by lia.
    apply take_app_length.
  - rewrite length_append. lia.
  - rewrite !length_append. lia.
Qed.

Lemma drop_all (n : nat) (s : string) : String.length s ≤ n → Text.drop n s = EmptyString.
Proof.
  revert n. induction s as [|c s IH]; intros [|n]; simpl; try done; try lia.
  intros. apply IH. lia.
Qed.

Lemma take_drop (n : nat) (s : string) : Text.take n s +:+ Text.drop n s = s.
Proof.
  revert n. induction s as [|c s IH]; intros [|n]; simpl; try done.
  by rewrite append_cons, IH.
Qed.

Lemma length_take (n : nat) (s : string) :
  String.length (Text.take n s) = Nat.min n (String.length s).
Proof.
  revert n. induction s as [|c s IH]; intros [|n]; simpl; try done.
  by rewrite IH.
Qed.

Lemma slice_from (content : string) (start_pos : nat) (n : nat) :
  start_pos ≤ String.length content →
  Text.slice content (Z.of_nat start_pos) (Z.of_nat start_pos + Z.of_nat n)
  = Text.take n (Text.drop start_pos content).
Proof.
  intros Hle. unfold Text.slice, Text.slice_bound.
  destruct (Z.ltb_spec (Z.of_nat start_pos) 0); [lia|].
  destruct (Z.ltb_spec (Z.of_nat start_pos + Z.of_nat n) 0); [lia|].
  rewrite (Z.min_l (Z.of_nat start_pos)) by lia.
  rewrite Nat2Z.id.
  destruct (Z.le_gt_cases (Z.of_nat start_pos + Z.of_nat n) (Z.of_nat (String.length content))).
  - rewrite Z.min_l by lia. f_equal. lia.
  - rewrite Z.min_r by lia.
    rewrite (take_length_le n) by (rewrite length_drop; lia).
    apply take_length_le. rewrite length_drop. lia.
Qed.

Lemma take_zero (s : string) : Text.take 0 s = EmptyString.
Proof. by destruct s. Qed.

Lemma slice_backwards (s : string) (a : nat) :
  String.length s ≤ a → Text.slice s (Z.of_nat a) (Z.of_nat a - 1) = EmptyString.
Proof.
  intros Hle. unfold Text.slice, Text.slice_bound.
  destruct (Z.ltb_spec (Z.of_nat a) 0); [lia|].
  destruct (Z.ltb_spec (Z.of_nat a - 1) 0).
  - replace (Z.to_nat (Z.max _ _ - _)) with 0 by lia. apply take_zero.
  - replace (Z.to_nat (Z.min _ _ - _)) with 0 by lia. apply take_zero.
Qed.

(* ===================================================================== *)
(** * What a match is                                                    *)
(* ===================================================================== *)


Lemma prev_after_app (p : option ascii) (t u : string) :
  prev_after p (t +:+ u) = prev_after (prev_after p t) u.
Proof. revert p. induction t as [|x t IH]; intros p; [done|]. rewrite append_cons. simpl. apply IH. Qed.

Lemma reads_nil (c : cursor) : reads EmptyString c c.
Proof. repeat split. simpl. lia. Qed.

Lemma reads_app (t u : string) (c1 c2 c3 : cursor) :
  reads t c1 c2 → reads u c2 c3 → reads (t +:+ u) c1 c3.
Proof.
  intros (E1 & N1 & P1) (E2 & N2 & P2). repeat split.
  - by rewrite E1, E2, append_assoc.
  - rewrite length_append. lia.
  - by rewrite prev_after_app, <- P1.
Qed.

Lemma reads_cursor (t s : string) (p : option ascii) (n : nat) :
  reads t {| prev := p; pos := n; rest := t +:+ s |}
          {| prev := prev_after p t; pos := n + String.length t; rest := s |}.
Proof. done. Qed.

Section inversion.
Context (fl : flags).

Lemma literal_inv (l s : string) (p : option ascii) (n : nat) (caps : captures)
    (k : cont) (res : cursor * captures) :
  literal l s p n caps k = Some res →
  ∃ s', s = l +:+ s'
        ∧ k {| prev := prev_after p l; pos := n + String.length l; rest := s' |} caps
          = Some res.
Proof.
  revert s p n. induction l as [|y l IH]; intros s p n; simpl.
  - intros H. exists s. split; [done|]. by rewrite Nat.add_0_r.
  - destruct s as [|x s]; [done|].
    destruct (Ascii.eqb x y) eqn:E; [|done]. apply Ascii.eqb_eq in E as ->.
    intros H. destruct (IH _ _ _ H) as (s' & -> & Hk). exists s'.
    split; [done|]. by rewrite <- Nat.add_succ_comm.
Qed.

Lemma star_greedy_inv (a : atom) (s : string) (p : option ascii) (n : nat)
    (caps : captures) (k : cont) (res : cursor * captures) :
  star_greedy fl a s p n caps k = Some res →
  ∃ t s', s = t +:+ s' ∧ Text.all (atom_matches fl a) t = true
          ∧ k {| prev := prev_after p t; pos := n + String.length t; rest := s' |} caps
            = Some res.
Proof.
  revert p n. induction s as [|x s IH]; intros p n; simpl.
  - intros H. exists EmptyString, EmptyString. simpl. by rewrite Nat.add_0_r.
  - assert (Hstop : k {| prev := p; pos := n; rest := String x s |} caps = Some res →
              ∃ t s', String x s = t +:+ s' ∧ Text.all (atom_matches fl a) t = true
                ∧ k {| prev := prev_after p t; pos := n + String.length t; rest := s' |} caps
                  = Some res).
    { intros H. exists EmptyString, (String x s). simpl. by rewrite Nat.add_0_r. }
    destruct (atom_matches fl a x) eqn:E; [|done].
    destruct (star_greedy fl a s (Some x) (S n) caps k) as [r|] eqn:Es; [|done].
    intros [= <-]. destruct (IH _ _ Es) as (t & s' & -> & Ht & Hk).
    exists (String x t), s'. simpl. rewrite E, Ht. split; [done|]. split; [done|].
    by rewrite <- Nat.add_succ_comm.
Qed.

Lemma plus_lazy_inv (a : atom) (s : string) (p : option ascii) (n : nat)
    (caps : captures) (k : cont) (res : cursor * captures) :
  plus_lazy fl a s n caps k = Some res →
  ∃ t s', s = t +:+ s' ∧ t ≠ EmptyString ∧ Text.all (atom_matches fl a) t = true
          ∧ k {| prev := prev_after p t; pos := n + String.length t; rest := s' |} caps
            = Some res.
Proof.
  revert p n. induction s as [|x s IH]; intros p n; simpl; [done|].
  destruct (atom_matches fl a x) eqn:E; [|done].
  destruct (k _ caps) as [r|] eqn:Ek.
  - intros [= <-]. exists (String x EmptyString), s. simpl. rewrite E.
    split; [done|]. split; [done|]. split; [done|].
    rewrite Nat.add_1_r. exact Ek.
  - intros H. destruct (IH (Some x) _ H) as (t & s' & -> & Hne & Ht & Hk).
    exists (String x t), s'. simpl. rewrite E, Ht.
    split; [done|]. split; [done|]. split; [done|].
    by rewrite <- Nat.add_succ_comm.
Qed.

Lemma repeat_exact_inv (a : atom) (m : nat) (s : string) (p : option ascii)
    (n : nat) (caps : captures) (k : cont) (res : cursor * captures) :
  repeat_exact fl a m s p n caps k = Some res →
  ∃ t s', s = t +:+ s' ∧ String.length t = m
          ∧ Text.all (atom_matches fl a) t = true
          ∧ k {| prev := prev_after p t; pos := n + String.length t; rest := s' |} caps
            = Some res.
Proof.
  revert s p n. induction m as [|m IH]; intros s p n; simpl.
  - intros H. exists EmptyString, s. simpl. by rewrite Nat.add_0_r.
  - destruct s as [|x s]; [done|]. destruct (atom_matches fl a x) eqn:E; [|done].
    intros H. destruct (IH _ _ _ H) as (t & s' & -> & Hl & Ht & Hk).
    exists (String x t), s'. simpl. rewrite E, Ht.
    split; [done|]. split; [by rewrite Hl|]. split; [done|].
    by rewrite <- Nat.add_succ_comm.
Qed.

(** Every successful run of [r] spans a text that [r] matches, and then
    continues from its end. *)
Theorem run_spans (r : regex) (c : cursor) (caps : captures) (k : cont)
    (res : cursor * captures) :
  run fl r c caps k = Some res →
  ∃ c' caps', spans fl r c caps c' caps' ∧ k c' caps' = Some res.
Proof.
  revert c caps k.
  induction r as [a|l|a|a|a|m a|r1 IH1 r2 IH2|r1 IH1 r2 IH2|i r1 IH1|r1 IH1| | |];
    intros c caps k; simpl.
  - destruct c as [p n [|x s]]; simpl; [done|].
    destruct (atom_matches fl a x) eqn:E; [|done]. intros H.
    eexists _, _. split; [|exact H]. exists x. repeat split; simpl; [lia|done].
  - destruct c as [p n s]; simpl. intros H.
    destruct (literal_inv _ _ _ _ _ _ _ H) as (s' & -> & Hk).
    eexists _, _. split; [|exact Hk]. split; [apply reads_cursor|done].
  - destruct c as [p n s]; simpl. intros H.
    destruct (star_greedy_inv _ _ _ _ _ _ _ H) as (t & s' & -> & Ht & Hk).
    eexists _, _. split; [|exact Hk]. exists t. split; [apply reads_cursor|done].
  - destruct c as [p n [|x s]]; simpl; [done|].
    destruct (atom_matches fl a x) eqn:E; [|done]. intros H.
    destruct (star_greedy_inv _ _ _ _ _ _ _ H) as (t & s' & -> & Ht & Hk).
    eexists _, _. split; [|exact Hk]. exists (String x t).
    split; [|by simpl; rewrite E, Ht].
    repeat split; simpl; lia.
  - destruct c as [p n s]; simpl. intros H.
    destruct (plus_lazy_inv _ _ p _ _ _ _ H) as (t & s' & -> & Hne & Ht & Hk).
    eexists _, _. split; [|exact Hk]. exists t. split; [apply reads_cursor|done].
  - destruct c as [p n s]; simpl. intros H.
    destruct (repeat_exact_inv _ _ _ _ _ _ _ _ H) as (t & s' & -> & Hl & Ht & Hk).
    eexists _, _. split; [|exact Hk]. exists t. split; [apply reads_cursor|done].
  - intros H. destruct (IH1 _ _ _ H) as (c1 & caps1 & Hs1 & H1).
    destruct (IH2 _ _ _ H1) as (c2 & caps2 & Hs2 & H2).
    exists c2, caps2. split; [|done]. by exists c1, caps1.
  - destruct (run fl r1 c caps k) as [r|] eqn:E1.
    + intros [= <-]. destruct (IH1 _ _ _ E1) as (c1 & caps1 & Hs1 & H1).
      exists c1, caps1. split; [by left|done].
    + intros H. destruct (IH2 _ _ _ H) as (c1 & caps1 & Hs1 & H1).
      exists c1, caps1. split; [by right|done].
  - intros H. destruct (IH1 _ _ _ H) as (c1 & caps1 & Hs1 & H1).
    eexists _, _. split; [|exact H1]. by exists caps1.
  - destruct (run fl r1 c caps accept) eqn:E; [|done]. intros H.
    exists c, caps. split; [|exact H]. split; [done|]. split; [done|]. done.
  - destruct (at_bol fl c) eqn:E; [|done]. intros H. by eexists _, _.
  - destruct (at_eol fl c) eqn:E; [|done]. intros H. by eexists _, _.
  - destruct (at_end c) eqn:E; [|done]. intros H. by eexists _, _.
Qed.

(** What [r] spans is a text read from the cursor. *)
Lemma spans_reads (r : regex) (c : cursor) (caps : captures) (c' : cursor)
    (caps' : captures) :
  spans fl r c caps c' caps' → ∃ t, reads t c c'.
Proof.
  revert c caps c' caps'.
  induction r as [a|l|a|a|a|m a|r1 IH1 r2 IH2|r1 IH1 r2 IH2|i r1 IH1|r1 IH1| | |];
    intros c caps c' caps'; simpl.
  - intros (x & ? & _). eauto.
  - intros (? & _). eauto.
  - intros (t & ? & _). eauto.
  - intros (t & ? & _). eauto.
  - intros (t & ? & _). eauto.
  - intros (t & ? & _). eauto.
  - intros (c1 & caps1 & H1 & H2).
    destruct (IH1 _ _ _ _ H1) as (t & Ht). destruct (IH2 _ _ _ _ H2) as (u & Hu).
    exists (t +:+ u). by eapply reads_app.
  - intros [H|H]; eauto.
  - intros (caps1 & H & _). eauto.
  - intros (-> & _). exists EmptyString. apply reads_nil.
  - intros (-> & _). exists EmptyString. apply reads_nil.
  - intros (-> & _). exists EmptyString. apply reads_nil.
  - intros (-> & _). exists EmptyString. apply reads_nil.
Qed.

End inversion.

Lemma drop_drop (n m : nat) (s : string) :
  Text.drop n (Text.drop m s) = Text.drop (m + n) s.
Proof.
  revert m. induction s as [|x s IH]; intros [|m]; simpl; try done.
  by destruct n.
Qed.

Lemma at_position_reads (s t : string) (c c' : cursor) :
  at_position s c → reads t c c' → at_position s c'.
Proof.
  intros [Hr Hp] (E & N & _). split.
  - rewrite N, <- drop_drop, <- Hr, E. by rewrite drop_app_length.
  - assert (String.length (rest c) = String.length s - pos c)
      by (by rewrite Hr, length_drop).
    rewrite E, length_append in H. lia.
Qed.

Lemma at_position_start (s : string) : at_position s (start_of s).
Proof. split; simpl; [by destruct s|lia]. Qed.

Lemma search_from_inv (fl : flags) (r : regex) (s : string) (p : option ascii)
    (n st : nat) (c1 : cursor) (caps : captures) :
  search_from fl r s p n = Some (st, (c1, caps)) →
  ∃ skipped s0,
    s = skipped +:+ s0 ∧ st = n + String.length skipped
    ∧ run fl r {| prev := prev_after p skipped; pos := st; rest := s0 |} [] accept
      = Some (c1, caps).
Proof.
  revert p n. induction s as [|x s IH]; intros p n; simpl.
  - destruct (run fl r _ [] accept) as [res|] eqn:E; [|done].
    intros [= ? ?]; subst. exists EmptyString, EmptyString. simpl.
    rewrite Nat.add_0_r. done.
  - destruct (run fl r _ [] accept) as [res|] eqn:E.
    + intros [= ? ?]; subst. exists EmptyString, (String x s). simpl.
      rewrite Nat.add_0_r. done.
    + intros H. destruct (IH _ _ H) as (sk & s0 & -> & -> & Hr).
      exists (String x sk), s0. simpl. split; [done|].
      rewrite <- Nat.add_succ_comm. done.
Qed.

(** Every match that the scan returns is a match of the pattern in the
    subject. *)
Lemma finditer_from_matches (fl : flags) (r : regex) (s : string) (fuel : nat)
    (c : cursor) :
  at_position s c →
  Forall (match_of fl r s) (finditer_from fuel fl r c).
Proof.
  revert c. induction fuel as [|fuel IH]; intros c Hc; simpl; [constructor|].
  destruct (search fl r c) as [[st [c1 caps]]|] eqn:E; [|constructor].
  unfold search in E.
  destruct (search_from_inv _ _ _ _ _ _ _ _ E) as (sk & s0 & Es & -> & Hr).
  destruct (run_spans _ _ _ _ _ _ Hr) as (c' & caps' & Hs & [= -> ->]).
  assert (Hc0 : at_position s {| prev := prev_after (prev c) sk;
                                 pos := pos c + String.length sk; rest := s0 |}).
  { apply (at_position_reads s sk c); [done|]. by split. }
  destruct (spans_reads _ _ _ _ _ _ Hs) as (t & Ht).
  pose proof (at_position_reads _ _ _ _ Hc0 Ht) as Hc1.
  constructor.
  - eexists _, c1. split; [exact Hc0|]. by split.
  - destruct (Nat.eqb (pos c1) (pos c + String.length sk)); [|by apply IH].
    unfold advance. destruct (rest c1) as [|x s1] eqn:E1; [constructor|].
    apply IH. apply (at_position_reads s (String x EmptyString) c1); [done|].
    split; [by rewrite E1|]. simpl. split; [lia|done].
Qed.

Theorem finditer_matches (fl : flags) (r : regex) (s : string) :
  Forall (match_of fl r s) (finditer fl r s).
Proof. apply finditer_from_matches, at_position_start. Qed.

(** The matches come in the order of the text and do not overlap. *)
Lemma finditer_from_ordered (fl : flags) (r : regex) (fuel : nat) (c : cursor) :
  Forall (λ m, pos c ≤ m_start m ∧ m_start m ≤ m_end m) (finditer_from fuel fl r c)
  ∧ StronglySorted (λ m m', m_end m ≤ m_start m') (finditer_from fuel fl r c).
Proof.
  revert c. induction fuel as [|fuel IH]; intros c; simpl; [by split; constructor|].
  destruct (search fl r c) as [[st [c1 caps]]|] eqn:E; [|by split; constructor].
  unfold search in E.
  destruct (search_from_spec _ _ _ _ _ _ _ _ E) as (sk & t & Es & -> & Hp).
  set (tail := if Nat.eqb (pos c1) (pos c + String.length sk)
               then match advance c1 with
                    | Some c2 => finditer_from fuel fl r c2
                    | None => []
                    end
               else finditer_from fuel fl r c1).
  assert (Htail : Forall (λ m, pos c1 ≤ m_start m ∧ m_start m ≤ m_end m) tail
                  ∧ StronglySorted (λ m m', m_end m ≤ m_start m') tail).
  { subst tail. destruct (Nat.eqb (pos c1) (pos c + String.length sk)); [|apply IH].
    unfold advance. destruct (rest c1) as [|x s1]; [by split; constructor|].
    destruct (IH {| prev := Some x; pos := S (pos c1); rest := s1 |}) as [H1 H2].
    split; [|done]. eapply Forall_impl; [exact H1|]. simpl. intros m [? ?]. lia. }
  destruct Htail as [H1 H2]. split.
  - constructor; [simpl; lia|].
    eapply Forall_impl; [exact H1|]. simpl. intros m [? ?]. lia.
  - constructor; [done|]. eapply Forall_impl; [exact H1|]. simpl. intros m [? ?]. lia.
Qed.

(* ===================================================================== *)
(** * Blocks, attributes and resources                                   *)
(* ===================================================================== *)


(** ** Closed and open blocks *)

Lemma scan_braces_closed (body post : string) (k : Z) (pos : nat) :
  (0 < k)%Z → balanced_from body (k - 1) = true →
  scan_braces (body +:+ "}" +:+ post) k pos = S (pos + String.length body).
Proof.
  revert k pos. induction body as [|c body IH]; intros k pos Hk; simpl.
  - intros Hz%Z.eqb_eq. rewrite append_nil. simpl.
    destruct (Z.ltb_spec 0 k); [|lia].
    replace (k - 1)%Z with 0%Z by lia.
    destruct post; simpl; lia.
  - rewrite append_cons. simpl. destruct (Z.ltb_spec 0 k); [|lia].
    destruct (Ascii.eqb c "{").
    + intros Hb. rewrite IH; [lia|lia|]. by replace (k + 1 - 1)%Z with (k - 1 + 1)%Z by lia.
    + destruct (Ascii.eqb c "}").
      * intros [Hd Hb]%andb_true_iff. apply Z.ltb_lt in Hd.
        rewrite IH; [lia|lia|done].
      * intros Hb. rewrite IH; [lia|lia|done].
Qed.

Lemma extract_closed_block (pre body post : string) :
  balanced body = true →
  _extract_block_content (pre +:+ body +:+ "}" +:+ post) (String.length pre) = body.
Proof.
  intros Hb. unfold _extract_block_content.
  rewrite drop_app_length, scan_braces_closed by (done || lia).
  replace (Z.of_nat (S (String.length pre + String.length body)) - 1)%Z
    with (Z.of_nat (String.length pre + String.length body)) by lia.
  apply slice_inside_app.
Qed.

(** X1: when the text after the opening brace is a body whose braces pair
    up, followed by a closing brace, [_extract_block_content] returns
    exactly that body, whatever precedes the block and whatever follows
    it. *)
Theorem closed_block_content (pre body post : string) :
  balanced body = true →
  _extract_block_content (pre +:+ body +:+ "}" +:+ post) (String.length pre) = body.
Proof. apply extract_closed_block. Qed.

Lemma closed_block_content_witness :
  balanced (" a { b } c ") = true
  ∧ _extract_block_content ("x {" +:+ " a { b } c " +:+ "}" +:+ " tail }") (String.length "x {")
    = " a { b } c ".
Proof. split; [reflexivity|]. apply closed_block_content. reflexivity. Defined.

(** General shape of the scan *)
Lemma never_closed_prefix (b t : string) (k : Z) :
  never_closed (b +:+ t) k = true → never_closed b k = true.
Proof.
  revert k. induction b as [|c b IH]; intros k.
  - rewrite append_nil. destruct t; simpl; [done|]. by intros [? _]%andb_true_iff.
  - rewrite append_cons. simpl. intros [Hk Hs]%andb_true_iff.
    rewrite Hk. simpl. eauto.
Qed.

(** The scan either reaches the end with the block open, or stops right
    after a closing brace before which the text is balanced. *)
Lemma scan_braces_spec (s : string) (k : Z) (pos : nat) :
  (0 < k)%Z →
  (never_closed s k = true ∧ scan_braces s k pos = pos + String.length s)
  ∨ ∃ body post, s = body +:+ "}" +:+ post ∧ balanced_from body (k - 1) = true
                 ∧ scan_braces s k pos = S (pos + String.length body).
Proof.
  revert k pos. induction s as [|c s IH]; intros k pos Hk; simpl.
  - left. split; [by apply Z.ltb_lt|lia].
  - destruct (Z.ltb_spec 0 k); [|lia]. simpl.
    destruct (Ascii.eqb c "{") eqn:Hopen.
    { destruct (IH (k + 1)%Z (S pos)) as [[Hn Hs]|(body & post & Hd & Hb & Hs)]; [lia|..].
      - left. split; [done|]. rewrite Hs. lia.
      - right. exists (String c body), post. rewrite append_cons, <- Hd. split; [done|].
        simpl. rewrite Hopen.
        replace (k - 1 + 1)%Z with (k + 1 - 1)%Z by lia. split; [done|].
        rewrite Hs. lia. }
    destruct (Ascii.eqb c "}") eqn:Hclose.
    { destruct (decide (k = 1%Z)) as [->|Hk1].
      - right. exists EmptyString, s. rewrite append_nil.
        apply Ascii.eqb_eq in Hclose as ->. split; [done|].
        split; [done|]. simpl. destruct s; simpl; lia.
      - destruct (IH (k - 1)%Z (S pos)) as [[Hn Hs]|(body & post & Hd & Hb & Hs)]; [lia|..].
        + left. split; [done|]. rewrite Hs. lia.
        + right. exists (String c body), post. rewrite append_cons, <- Hd. split; [done|].
          simpl. rewrite Hopen, Hclose.
          destruct (Z.ltb_spec 0 (k - 1)); [|lia]. split; [done|].
          rewrite Hs. lia. }
    destruct (IH k (S pos)) as [[Hn Hs]|(body & post & Hd & Hb & Hs)]; [lia|..].
    + left. split; [done|]. rewrite Hs. lia.
    + right. exists (String c body), post. rewrite append_cons, <- Hd. split; [done|].
      simpl. rewrite Hopen, Hclose. split; [done|].
      rewrite Hs. lia.
Qed.

Lemma balanced_never_closed (body : string) (k : Z) :
  (0 < k)%Z → balanced_from body (k - 1) = true → never_closed body k = true.
Proof.
  revert k. induction body as [|c body IH]; intros k Hk; simpl.
  - intros _. by apply Z.ltb_lt.
  - destruct (Z.ltb_spec 0 k); [|lia]. simpl.
    destruct (Ascii.eqb c "{").
    + intros Hb. apply IH; [lia|]. by replace (k + 1 - 1)%Z with (k - 1 + 1)%Z by lia.
    + destruct (Ascii.eqb c "}").
      * intros [Hd Hb]%andb_true_iff. apply Z.ltb_lt in Hd. apply IH; [lia|done].
      * intros Hb. by apply IH.
Qed.

Lemma block_content_spec (content : string) (start_pos : nat) :
  let body := _extract_block_content content start_pos in
  ∃ tail,
    Text.drop start_pos content = body +:+ tail
    ∧ never_closed body 1 = true
    ∧ ((∃ post, tail = "}" +:+ post ∧ balanced body = true)
       ∨ (never_closed (Text.drop start_pos content) 1 = true
          ∧ String.length tail ≤ 1)).
Proof.
  intros body. subst body. unfold _extract_block_content.
  destruct (decide (String.length content ≤ start_pos)) as [Hlt|Hle].
  { rewrite drop_all by lia. simpl. rewrite slice_backwards by lia.
    exists EmptyString.
    split; [done|]. split; [done|]. right. split; [done|]. simpl. lia. }
  destruct (scan_braces_spec (Text.drop start_pos content) 1 start_pos)
    as [[Hn Hs]|(b & post & Hd & Hb & Hs)]; [lia|..].
  - rewrite Hs.
    set (rest := Text.drop start_pos content) in *.
    assert (0 < String.length rest) by (unfold rest; rewrite length_drop; lia).
    replace (Z.of_nat (start_pos + String.length rest) - 1)%Z
      with (Z.of_nat start_pos + Z.of_nat (String.length rest - 1))%Z by lia.
    rewrite slice_from by lia. fold rest.
    exists (Text.drop (String.length rest - 1) rest).
    split; [by rewrite take_drop|].
    split; [apply never_closed_prefix with (Text.drop (String.length rest - 1) rest);
            by rewrite take_drop|].
    right. split; [done|]. rewrite length_drop. lia.
  - rewrite Hs.
    replace (Z.of_nat (S (start_pos + String.length b)) - 1)%Z
      with (Z.of_nat start_pos + Z.of_nat (String.length b))%Z by lia.
    rewrite slice_from by lia. rewrite Hd, take_app_length.
    exists ("}" +:+ post). split; [done|].
    split; [by apply balanced_never_closed|].
    left. by exists post.
Qed.

(** X2: on every input and from every position, what
    [_extract_block_content] returns is a prefix of the text after the
    position and never closes the block itself. Either its braces pair up
    and a closing brace follows it; or the block is never closed, and then
    at most one character of the text is left out. *)
Theorem block_content_shape (content : string) (start_pos : nat) :
  let body := _extract_block_content content start_pos in
  ∃ tail,
    Text.drop start_pos content = body +:+ tail
    ∧ never_closed body 1 = true
    ∧ ((∃ post, tail = "}" +:+ post ∧ balanced body = true)
       ∨ (never_closed (Text.drop start_pos content) 1 = true
          ∧ String.length tail ≤ 1)).
Proof. apply block_content_spec. Qed.

(** ** Attributes *)

Lemma group_text (t : string) (c c' : cursor) :
  reads t c c' → Text.take (pos c' - pos c) (rest c) = t.
Proof.
  intros (E & N & _). rewrite E, N.
  replace (pos c + String.length t - pos c) with (String.length t) by lia.
  apply take_app_length.
Qed.

Lemma occurs_app (x : ascii) (a b : string) :
  Text.occurs x (a +:+ b) = Text.occurs x a || Text.occurs x b.
Proof.
  induction a as [|y a IH]; [done|]. rewrite append_cons. simpl.
  by rewrite IH, orb_assoc.
Qed.

Lemma occurs_drop (x : ascii) (n : nat) (s : string) :
  Text.occurs x (Text.drop n s) = true → Text.occurs x s = true.
Proof.
  revert n. induction s as [|y s IH]; intros [|n]; simpl; try done.
  intros H. rewrite (IH _ H). apply orb_true_r.
Qed.

(** What a match of [attr_pattern] captures: an identifier as group 1 and
    a text that is not empty as group 2; the text it starts in holds an
    equals sign. *)
Lemma attr_pattern_groups (c0 c1 : cursor) (caps : captures) :
  spans attr_flags attr_pattern c0 [] c1 caps →
  ∃ key value,
    caps = [(2, value); (1, key)] ∧ is_identifier key = true
    ∧ value ≠ EmptyString ∧ Text.occurs "=" (rest c0) = true.
Proof.
  unfold attr_pattern, attr_key. simpl.
  intros (ca & capsa & (-> & -> & _) &
          cb & capsb & (ws1 & Hws1 & _ & ->) &
          cc & capsc & (caps1 & (cx & capsx & (x & Hx & Hxm & ->) &
                                 (t & Ht & Htm & ->)) & ->) &
          cd & capsd & (ws2 & Hws2 & _ & ->) &
          ce & capse & (Heq & ->) &
          cf & capsf & (ws3 & Hws3 & _ & ->) &
          cg & capsg & (caps2 & (v & Hv & Hvne & _ & ->) & ->) &
          (-> & -> & _)).
  pose proof (reads_app _ _ _ _ _ Hx Ht) as Hkey.
  rewrite (group_text _ _ _ Hkey), (group_text _ _ _ Hv).
  exists (String x EmptyString +:+ t), v. split; [done|].
  split; [rewrite append_cons, append_nil; simpl in *; by rewrite Hxm, Htm|]. split; [done|].
  destruct Hws1 as (-> & _), Hkey as (-> & _), Hws2 as (-> & _), Heq as (-> & _).
  rewrite !occurs_app. simpl. by rewrite !orb_true_r.
Qed.

Lemma lstrip_rstrip (s : string) :
  Text.lstrip s = s → Text.lstrip (Text.rstrip s) = Text.rstrip s.
Proof.
  destruct s as [|c s]; [done|]. simpl.
  destruct (Text.isspace c) eqn:E.
  - intros H. assert (String.length (Text.lstrip s) ≤ String.length s) as Hl.
    { clear. induction s as [|x s IH]; simpl; [lia|]. destruct (Text.isspace x); simpl; lia. }
    rewrite H in Hl. simpl in Hl. lia.
  - intros _. destruct (Text.rstrip s); simpl; by rewrite E.
Qed.

Lemma lstrip_idem (s : string) : Text.lstrip (Text.lstrip s) = Text.lstrip s.
Proof.
  induction s as [|c s IH]; [done|]. simpl.
  destruct (Text.isspace c) eqn:E; [done|]. simpl. by rewrite E.
Qed.

Lemma rstrip_idem (s : string) : Text.rstrip (Text.rstrip s) = Text.rstrip s.
Proof.
  induction s as [|c s IH]; [done|]. simpl.
  destruct (Text.rstrip s) as [|y r] eqn:Er.
  - destruct (Text.isspace c) eqn:E; [done|]. simpl. by rewrite E.
  - simpl in *. by rewrite IH.
Qed.

(** Stripping a stripped text changes nothing. *)
Lemma strip_idem (s : string) : Text.strip (Text.strip s) = Text.strip s.
Proof.
  unfold Text.strip. rewrite lstrip_rstrip by apply lstrip_idem. apply rstrip_idem.
Qed.

Lemma parse_attributes_well_formed (block_content : string) :
  well_formed_attributes (_parse_attributes block_content).
Proof.
  unfold well_formed_attributes.
  unfold _parse_attributes.
  pose proof (finditer_matches attr_flags attr_pattern block_content) as Hms.
  revert Hms. generalize (finditer attr_flags attr_pattern block_content).
  intros ms Hms.
  assert (Hinit : map_Forall (λ key value, is_identifier key = true
                                           ∧ Text.strip value = value)
                             (∅ : gmap string string)) by apply map_Forall_empty.
  revert Hinit. generalize (∅ : gmap string string).
  induction Hms as [|m ms Hm Hms IH]; intros acc Hacc; simpl; [done|].
  apply IH. destruct Hm as (c0 & c1 & _ & Hs & _).
  destruct (attr_pattern_groups _ _ _ Hs) as (key & value & -> & Hk & _).
  simpl. apply map_Forall_insert_2; [|done]. split; [done|apply strip_idem].
Qed.

(** X3: in the map that [_parse_attributes] returns, on any text, every
    key is an identifier, a lower-case letter or an underscore followed by
    lower-case letters, digits and underscores, and every value is
    stripped: stripping it again changes nothing. *)
Theorem parsed_attributes_well_formed (block_content : string) :
  map_Forall (λ key value, is_identifier key = true ∧ Text.strip value = value)
             (_parse_attributes block_content).
Proof. apply parse_attributes_well_formed. Qed.

(** X4: a text without an equals sign has no attributes:
    [_parse_attributes] returns the empty map. *)
Theorem no_equals_no_attributes (block_content : string) :
  Text.occurs "=" block_content = false → _parse_attributes block_content = ∅.
Proof.
  intros Hno. unfold _parse_attributes.
  pose proof (finditer_matches attr_flags attr_pattern block_content) as Hms.
  destruct (finditer attr_flags attr_pattern block_content) as [|m ms]; [done|].
  apply Forall_cons_1 in Hms as [(c0 & c1 & [Hr _] & Hs & _) _].
  destruct (attr_pattern_groups _ _ _ Hs) as (_ & _ & _ & _ & _ & Ho).
  rewrite Hr in Ho. apply occurs_drop in Ho. congruence.
Qed.

Lemma no_equals_no_attributes_witness :
  Text.occurs "=" ("  rule {" +:+ nl +:+ "  }" +:+ nl) = false
  ∧ _parse_attributes ("  rule {" +:+ nl +:+ "  }" +:+ nl) = ∅.
Proof. split; [reflexivity|]. apply no_equals_no_attributes. reflexivity. Defined.

(** ** Blocks *)

Lemma not_quote_no_dquote (t : string) :
  Text.all (atom_matches no_flags not_quote) t = true → no_dquote t = true.
Proof.
  apply all_impl. intros x. simpl. unfold Text.is_dquote. by rewrite orb_false_r.
Qed.

(** What a match of [resource_pattern] spans and captures. *)
Lemma resource_pattern_header (c0 c1 : cursor) (caps : captures) :
  spans no_flags resource_pattern c0 [] c1 caps →
  ∃ t n h,
    caps = [(2, n); (1, t)] ∧ is_header t n h ∧ reads h c0 c1
    ∧ t ≠ EmptyString ∧ no_dquote t = true
    ∧ n ≠ EmptyString ∧ no_dquote n = true.
Proof.
  unfold resource_pattern. simpl.
  intros (ca & capsa & (Hres & ->) &
          cb & capsb & (ws1 & Hws1 & Hne1 & Hb1 & ->) &
          cc & capsc & (Hq1 & ->) &
          cd & capsd & (caps1 & (t & Ht & Htne & Htm & ->) & ->) &
          ce & capse & (Hq2 & ->) &
          cf & capsf & (ws2 & Hws2 & Hne2 & Hb2 & ->) &
          cg & capsg & (Hq3 & ->) &
          ch & capsh & (caps2 & (n & Hn & Hnne & Hnm & ->) & ->) &
          ci & capsi & (Hq4 & ->) &
          cj & capsj & (ws3 & Hws3 & Hb3 & ->) &
          Hbrace & ->).
  rewrite (group_text _ _ _ Ht), (group_text _ _ _ Hn).
  exists t, n, ("resource" +:+ ws1 +:+ q t +:+ ws2 +:+ q n +:+ ws3 +:+ "{").
  split; [done|]. split; [by exists ws1, ws2, ws3|].
  split.
  { unfold q. rewrite !append_assoc.
    repeat (eapply reads_app; [eassumption|]). done. }
  auto using not_quote_no_dquote.
Qed.

(** What a match of [var_pattern] or of [output_pattern] captures. *)
Lemma var_pattern_name (c0 c1 : cursor) (caps : captures) :
  spans no_flags var_pattern c0 [] c1 caps →
  ∃ n, caps = [(1, n)] ∧ n ≠ EmptyString ∧ no_dquote n = true.
Proof.
  unfold var_pattern. simpl.
  intros (ca & capsa & (Hres & ->) &
          cb & capsb & (ws1 & Hws1 & Hne1 & Hb1 & ->) &
          cc & capsc & (Hq1 & ->) &
          cd & capsd & (caps1 & (t & Ht & Htne & Htm & ->) & ->) &
          ce & capse & (Hq2 & ->) &
          cf & capsf & (ws2 & Hws2 & Hb2 & ->) &
          Hbrace & ->).
  rewrite (group_text _ _ _ Ht). exists t. auto using not_quote_no_dquote.
Qed.

Lemma output_pattern_name (c0 c1 : cursor) (caps : captures) :
  spans no_flags output_pattern c0 [] c1 caps →
  ∃ n, caps = [(1, n)] ∧ n ≠ EmptyString ∧ no_dquote n = true.
Proof.
  unfold output_pattern. simpl.
  intros (ca & capsa & (Hres & ->) &
          cb & capsb & (ws1 & Hws1 & Hne1 & Hb1 & ->) &
          cc & capsc & (Hq1 & ->) &
          cd & capsd & (caps1 & (t & Ht & Htne & Htm & ->) & ->) &
          ce & capse & (Hq2 & ->) &
          cf & capsf & (ws2 & Hws2 & Hb2 & ->) &
          Hbrace & ->).
  rewrite (group_text _ _ _ Ht). exists t. auto using not_quote_no_dquote.
Qed.

Lemma count_take_le (x : ascii) (n : nat) (s : string) :
  Text.count x (Text.take n s) ≤ Text.count x s.
Proof.
  revert n. induction s as [|y s IH]; intros [|n]; simpl; try lia.
  specialize (IH n). lia.
Qed.

Lemma count_take_mono (x : ascii) (n m : nat) (s : string) :
  n ≤ m → Text.count x (Text.take n s) ≤ Text.count x (Text.take m s).
Proof.
  revert n m. induction s as [|y s IH]; intros [|n] [|m] Hle; simpl; try lia.
  specialize (IH n m). lia.
Qed.

(** X5: every resource that [_extract_resources] returns records the file
    path it was given, has a type and a name that are not empty and hold no
    double quote, and a line number between 1 and the number of lines of
    the content. *)
Theorem extracted_resources_well_formed (content file : string) :
  Forall (λ r, file_path r = file
               ∧ resource_type r ≠ EmptyString ∧ no_dquote (resource_type r) = true
               ∧ resource_name r ≠ EmptyString ∧ no_dquote (resource_name r) = true
               ∧ 1 ≤ line_number r ≤ Text.count Text.newline content + 1)
         (_extract_resources content file).
Proof.
  unfold _extract_resources.
  pose proof (finditer_matches no_flags resource_pattern content) as Hms.
  induction Hms as [|m ms Hm Hms IH]; simpl; [constructor|].
  constructor; [|exact IH]. simpl.
  destruct Hm as (c0 & c1 & _ & Hs & _).
  destruct (resource_pattern_header _ _ _ Hs) as (t & n & h & -> & _ & _ & ? & ? & ? & ?).
  simpl. pose proof (count_take_le Text.newline (m_start m) content).
  repeat split; try done; lia.
Qed.

(** X6: [_extract_resources] lists the resources in the order of the
    text: along the list the line numbers never decrease. *)
Theorem extracted_resources_in_order (content file : string) :
  StronglySorted (λ r r', line_number r ≤ line_number r')
                 (_extract_resources content file).
Proof.
  unfold _extract_resources, finditer.
  destruct (finditer_from_ordered no_flags resource_pattern
              (S (String.length content)) (start_of content)) as [Hb Hs].
  induction Hs as [|m ms Hs IH Hm]; simpl; [constructor|].
  apply Forall_cons_1 in Hb as [[_ Hle] Hb].
  constructor; [by apply IH|].
  rewrite Forall_fmap. clear IH Hb.
  eapply Forall_impl; [exact Hm|].
  simpl. intros m' ?.
  pose proof (count_take_mono Text.newline (m_start m) (m_start m') content). lia.
Qed.

Lemma well_formed_update (d e : gmap string string) :
  well_formed_attributes d → well_formed_attributes e →
  well_formed_attributes (dict_update d e).
Proof.
  intros Hd He k v. rewrite dict_update_lookup.
  destruct (e !! k) as [w|] eqn:E.
  - intros [= <-]. by apply He.
  - apply Hd.
Qed.

Lemma named_blocks_well_formed (r : regex) (content : string) :
  (∀ c0 c1 caps, spans no_flags r c0 [] c1 caps →
     ∃ n, caps = [(1, n)] ∧ n ≠ EmptyString ∧ no_dquote n = true) →
  map_Forall (λ n props, n ≠ EmptyString ∧ no_dquote n = true
                         ∧ well_formed_attributes props)
    (foldl (λ (acc : gmap string (gmap string string)) m,
              <[group (m_caps m) 1 :=
                  _parse_attributes (_extract_block_content content (m_end m))]> acc)
           ∅ (finditer no_flags r content)).
Proof.
  intros Hr.
  pose proof (finditer_matches no_flags r content) as Hms.
  revert Hms. generalize (finditer no_flags r content). intros ms Hms.
  assert (Hinit : map_Forall (λ n props, n ≠ EmptyString ∧ no_dquote n = true
                                         ∧ well_formed_attributes props)
                    (∅ : gmap string (gmap string string))) by apply map_Forall_empty.
  revert Hinit. generalize (∅ : gmap string (gmap string string)).
  induction Hms as [|m ms Hm Hms IH]; intros acc Hacc; simpl; [done|].
  apply IH. destruct Hm as (c0 & c1 & _ & Hs & _).
  destruct (Hr _ _ _ Hs) as (n & -> & ? & ?). simpl.
  apply map_Forall_insert_2; [|done].
  auto using parse_attributes_well_formed.
Qed.

(** X7: the names under which [_extract_variables] and [_extract_outputs]
    store a block are not empty and hold no double quote, and what is stored
    under them, like the map of [_extract_locals], has identifiers as keys
    and stripped texts as values. *)
Theorem extracted_declarations_well_formed (content : string) :
  map_Forall (λ n props, n ≠ EmptyString ∧ no_dquote n = true
                         ∧ well_formed_attributes props)
             (_extract_variables content)
  ∧ map_Forall (λ n props, n ≠ EmptyString ∧ no_dquote n = true
                           ∧ well_formed_attributes props)
               (_extract_outputs content)
  ∧ well_formed_attributes (_extract_locals content).
Proof.
  split; [apply named_blocks_well_formed, var_pattern_name|].
  split; [apply named_blocks_well_formed, output_pattern_name|].
  unfold _extract_locals.
  assert (Hinit : well_formed_attributes ∅) by apply map_Forall_empty.
  revert Hinit. generalize (∅ : gmap string string).
  induction (finditer no_flags locals_pattern content) as [|m ms IH];
    intros acc Hacc; simpl; [done|].
  apply IH, well_formed_update; [done|apply parse_attributes_well_formed].
Qed.

(** ** Resources of a directory *)

Lemma contribution_resources (fs : list tf_file) (m : TerraformModule) :
  resources (foldl contribution m fs) = resources m ++ concat (map resources_of fs)
  ∧ module_path (foldl contribution m fs) = module_path m.
Proof.
  revert m. induction fs as [|f fs IH]; intros m; simpl.
  - by rewrite app_nil_r.
  - destruct (IH (contribution m f)) as [-> ->].
    unfold contribution, resources_of. destruct (tf_read f); simpl.
    + by rewrite <- app_assoc.
    + done.
Qed.

Lemma extracted_resources_file (content file : string) :
  Forall (λ r, file_path r = file) (_extract_resources content file).
Proof. unfold _extract_resources. rewrite Forall_fmap. by apply Forall_true. Qed.

Lemma resources_of_readable (files : list tf_file) :
  Forall (λ r, ∃ f, f ∈ files ∧ is_readable f = true ∧ file_path r = tf_path f)
         (concat (map resources_of files)).
Proof.
  induction files as [|f files IH]; simpl; [constructor|].
  apply Forall_app. split.
  - unfold resources_of. destruct (tf_read f) as [content|] eqn:Er; [|constructor].
    eapply Forall_impl; [apply extracted_resources_file|].
    simpl. intros r Hr. exists f. split; [by left|]. split; [|done].
    unfold is_readable. by rewrite Er.
  - eapply Forall_impl; [exact IH|]. simpl. intros r (f' & ? & ?).
    exists f'. split; [by right|done].
Qed.

(** X8: every module that [parse_module] returns for a directory has the
    given path, as a [Path], and the resources of the files of the
    directory, file after file in the order of enumeration and, within a
    file, in the order of extraction; an unreadable file contributes none.
    Every resource records the path of a readable file of the directory.
    [parse_module] returns a module whenever the console writes the
    warnings of the unreadable files. *)
Theorem module_resources_by_file (out : console) (fsys : filesystem)
    (path : string) (files : list tf_file) :
  fsys !! Path path = Some (Directory files) →
  (accepts out [] (warnings files) →
   ∃ m, parse_module out fsys path = (Ok m, warnings files))
  ∧ ∀ m printed,
      parse_module out fsys path = (Ok m, printed) →
      module_path m = Path path
      ∧ resources m = concat (map resources_of files)
      ∧ Forall (λ r, ∃ f, f ∈ files ∧ is_readable f = true
                          ∧ file_path r = tf_path f)
               (resources m).
Proof.
  intros Hf. split.
  - intros Hacc. exists (module_of path files). unfold parse_module. rewrite Hf.
    apply (parse_files_accepted out files (new_module path) [] Hacc).
  - intros m printed H.
    destruct (parse_module_returned _ _ _ _ _ _ Hf H) as [-> _].
    destruct (contribution_resources files (new_module path)) as [Hr Hp].
    unfold module_of. rewrite Hr, Hp. simpl.
    split; [done|]. split; [done|]. apply resources_of_readable.
Qed.

Lemma module_resources_by_file_witness :
  demo_fs !! Path "modules/demo/" = Some (Directory [variables_tf; broken_tf; overrides_tf])
  ∧ (∃ m, parse_module quiet demo_fs "modules/demo/"
          = (Ok m, warnings [variables_tf; broken_tf; overrides_tf]))
  ∧ ∀ m printed,
      parse_module quiet demo_fs "modules/demo/" = (Ok m, printed) →
      module_path m = "modules/demo".
Proof.
  assert (H : demo_fs !! Path "modules/demo/"
              = Some (Directory [variables_tf; broken_tf; overrides_tf]))
    by reflexivity.
  split; [exact H|]. split.
  - apply (proj1 (module_resources_by_file quiet demo_fs "modules/demo/" _ H)).
    split; [reflexivity|exact I].
  - intros m printed Hm.
    exact (proj1 (proj2 (module_resources_by_file quiet demo_fs "modules/demo/" _ H)
                    m printed Hm)).
Defined.

(** ** Queries, together *)

Lemma get_resource_in_filter (rs : list TerraformResource) (t n : string) :
  get_resource_in rs t n
  = head (filter (λ r, resource_name r = n) (filter (λ r, resource_type r = t) rs)).
Proof.
  induction rs as [|r rs IH]; [done|]. simpl.
  rewrite filter_cons.
  destruct (String.eqb_spec (resource_type r) t) as [Ht|Ht].
  - rewrite decide_True by done. rewrite filter_cons.
    destruct (String.eqb_spec (resource_name r) n) as [Hn|Hn].
    + by rewrite decide_True.
    + by rewrite decide_False.
  - by rewrite decide_False.
Qed.

(** X9: the three queries of a module agree: [get_resource] returns the
    first resource with the name among those that [get_resources_by_type]
    returns for the type; [has_resource_type] holds exactly when some
    resource of the module has the type; and when it does not hold,
    [get_resource] finds nothing for the type, whatever the name. *)
Theorem resource_queries_agree (m : TerraformModule) (t n : string) :
  get_resource m t n
  = head (filter (λ r, resource_name r = n) (get_resources_by_type m t))
  ∧ (has_resource_type m t = true ↔ ∃ r, r ∈ resources m ∧ resource_type r = t)
  ∧ (has_resource_type m t = false → get_resource m t n = None).
Proof.
  unfold get_resource, has_resource_type, get_resources_by_type.
  rewrite get_resource_in_filter. split; [done|]. split.
  - rewrite Nat.ltb_lt. split.
    + intros Hl. destruct (filter _ _) as [|r l] eqn:E; [simpl in Hl; lia|].
      assert (r ∈ filter (λ r, resource_type r = t) (resources m)) as Hin
        by (rewrite E; by left).
      apply list_elem_of_filter in Hin as [? ?]. by exists r.
    + intros (r & Hr & Ht).
      assert (r ∈ filter (λ r, resource_type r = t) (resources m)) as Hin
        by (by apply list_elem_of_filter).
      destruct (filter _ _); [by apply elem_of_nil in Hin|simpl; lia].
  - intros Hl%Nat.ltb_ge. destruct (filter (λ r, resource_type r = t) _); [done|].
    simpl in Hl. lia.
Qed.

(** X10: on a resource that [_extract_resources] built, [has_attribute]
    holds only of identifiers, and then [get_attribute] returns the stored
    value, a stripped text, whatever the default; when [has_attribute] does
    not hold, [get_attribute] returns the default. *)
Theorem attribute_access (content file : string) :
  Forall (λ r, ∀ attr_name default,
            if has_attribute r attr_name
            then is_identifier attr_name = true
                 ∧ ∃ value, get_attribute r attr_name default = Some value
                            ∧ attributes r !! attr_name = Some value
                            ∧ Text.strip value = value
            else get_attribute r attr_name default = default)
         (_extract_resources content file).
Proof.
  unfold _extract_resources. rewrite Forall_fmap. apply Forall_true.
  intros m a d. unfold has_attribute, get_attribute. simpl.
  set (attrs := _parse_attributes _).
  pose proof (parse_attributes_well_formed (_extract_block_content content (m_end m)))
    as Hwf. fold attrs in Hwf.
  destruct (attrs !! a) as [v|] eqn:E.
  - rewrite bool_decide_eq_true_2 by done. destruct (Hwf a v E). eauto.
  - rewrite bool_decide_eq_false_2; [done|]. by intros [? ?].
Qed.

(** ** The text of one resource *)

Lemma run_plus_intro (fl : flags) (a : atom) (t s : string) (c : cursor)
    (caps : captures) (k : cont) (res : cursor * captures) :
  rest c = t +:+ s → t ≠ EmptyString → Text.all (atom_matches fl a) t = true →
  stops fl a s →
  k {| prev := prev_after (prev c) t; pos := pos c + String.length t; rest := s |} caps
    = Some res →
  run fl (RPlus a) c caps k = Some res.
Proof.
  intros E Hne Ht Hs Hk. destruct t as [|x t]; [done|].
  rewrite append_cons in E. simpl in *. rewrite E.
  apply andb_true_iff in Ht as [-> Ht].
  apply star_greedy_run; [done|done|].
  by replace (S (pos c) + String.length t) with (pos c + S (String.length t)) by lia.
Qed.

Lemma stops_dquote (s : string) : stops no_flags ASpace (Audit.dq +:+ s).
Proof. done. Qed.

(** A header is matched by the pattern made for its type and name. *)
Lemma snippet_pattern_run (t n h tail : string) (p : option ascii) (i : nat) :
  is_header t n h →
  ∃ c1, run no_flags (snippet_pattern t n)
          {| prev := p; pos := i; rest := h +:+ tail |} [] accept = Some (c1, [])
        ∧ rest c1 = tail ∧ pos c1 = i + String.length h.
Proof.
  intros (ws1 & ws2 & ws3 & -> & Hne1 & Hne2 & Hb1 & Hb2 & Hb3).
  unfold q. rewrite !append_assoc. eexists. split.
  - unfold snippet_pattern.
    apply run_seq_intro. eapply run_lit_intro; [reflexivity|].
    apply run_seq_intro. eapply run_plus_intro; [reflexivity|done|done|apply stops_dquote|].
    apply run_seq_intro. eapply run_lit_intro; [reflexivity|].
    apply run_seq_intro. eapply run_lit_intro; [reflexivity|].
    apply run_seq_intro. eapply run_lit_intro; [reflexivity|].
    apply run_seq_intro. eapply run_plus_intro; [reflexivity|done|done|apply stops_dquote|].
    apply run_seq_intro. eapply run_lit_intro; [reflexivity|].
    apply run_seq_intro. eapply run_lit_intro; [reflexivity|].
    apply run_seq_intro. eapply run_lit_intro; [reflexivity|].
    apply run_seq_intro. eapply run_star_intro; [reflexivity|done|done|].
    eapply run_lit_intro; [reflexivity|]. reflexivity.
  - simpl. split; [done|]. rewrite !length_append. simpl. lia.
Qed.

(** What the pattern made for a type and a name matches is a header for
    them. *)
Lemma snippet_pattern_header (t n : string) (c0 c1 : cursor) (caps caps' : captures) :
  spans no_flags (snippet_pattern t n) c0 caps c1 caps' →
  ∃ h, is_header t n h ∧ reads h c0 c1.
Proof.
  unfold snippet_pattern. simpl.
  intros (ca & capsa & (Hres & ->) &
          cb & capsb & (ws1 & Hws1 & Hne1 & Hb1 & ->) &
          cc & capsc & (Hq1 & ->) &
          cd & capsd & (Ht & ->) &
          ce & capse & (Hq2 & ->) &
          cf & capsf & (ws2 & Hws2 & Hne2 & Hb2 & ->) &
          cg & capsg & (Hq3 & ->) &
          ch & capsh & (Hn & ->) &
          ci & capsi & (Hq4 & ->) &
          cj & capsj & (ws3 & Hws3 & Hb3 & ->) &
          Hbrace & ->).
  exists ("resource" +:+ ws1 +:+ q t +:+ ws2 +:+ q n +:+ ws3 +:+ "{").
  split; [by exists ws1, ws2, ws3|].
  unfold q. rewrite !append_assoc.
  repeat (eapply reads_app; [eassumption|]). done.
Qed.

Lemma take_app_add (h tail : string) (k : nat) :
  Text.take (String.length h + k) (h +:+ tail) = h +:+ Text.take k tail.
Proof. induction h as [|x h IH]; simpl; [done|]. by rewrite append_cons, IH. Qed.

Lemma length_skipped (skipped s0 : string) :
  String.length skipped ≤ String.length (skipped +:+ s0).
Proof. rewrite length_append. lia. Qed.

(** The snippet, when there is one: a header found in the content,
    followed by the block content and one more character. *)
Lemma snippet_in_inv (content t n s : string) :
  snippet_in content t n = Some s →
  ∃ skipped h tail,
    content = skipped +:+ h +:+ tail ∧ is_header t n h
    ∧ s = h +:+ Text.take
                  (S (String.length
                        (_extract_block_content content
                           (String.length skipped + String.length h)))) tail.
Proof.
  unfold snippet_in, search.
  destruct (search_from _ _ _ _ _) as [[st [c1 caps]]|] eqn:E; [|done].
  intros [= <-]. simpl in E.
  destruct (search_from_inv _ _ _ _ _ _ _ _ E) as (sk & s0 & -> & -> & Hr).
  destruct (run_spans _ _ _ _ _ _ Hr) as (c' & caps' & Hs & [= -> ->]).
  destruct (snippet_pattern_header _ _ _ _ _ _ Hs) as (h & Hh & (Er & Ep & _)).
  simpl in Er, Ep. subst s0. exists sk, h, (rest c1). split; [done|]. split; [done|].
  rewrite Ep. simpl.
  set (body := _extract_block_content _ _).
  replace (Z.of_nat (String.length sk + String.length h)
           + Z.of_nat (String.length body) + 1)%Z
    with (Z.of_nat (String.length sk)
          + Z.of_nat (String.length h + S (String.length body)))%Z by lia.
  rewrite slice_from by apply length_skipped.
  by rewrite drop_app_length, take_app_add.
Qed.

(** Shape of the block content, in the form used here. *)
Lemma block_content_after (pre tail : string) :
  let body := _extract_block_content (pre +:+ tail) (String.length pre) in
  (∃ post, tail = body +:+ "}" +:+ post ∧ balanced body = true)
  ∨ (never_closed tail 1 = true
     ∧ Text.take (S (String.length body)) tail = tail).
Proof.
  intros body.
  destruct (block_content_spec (pre +:+ tail) (String.length pre))
    as (tl & Hd & _ & [(post & -> & Hb)|[Hn Hl]]); fold body in Hd.
  - left. exists post. by rewrite drop_app_length in Hd.
  - right. rewrite drop_app_length in Hd, Hn. split; [done|].
    apply take_length_le. rewrite Hd, length_append. lia.
Qed.

(** The scan finds the first position where the pattern matches. *)
Lemma search_from_first (fl : flags) (r : regex) (skipped s0 : string)
    (p : option ascii) (n : nat) (res : cursor * captures) :
  (∀ sk1 sk2, skipped = sk1 +:+ sk2 → sk2 ≠ EmptyString →
     run fl r {| prev := prev_after p sk1; pos := n + String.length sk1;
                 rest := sk2 +:+ s0 |} [] accept = None) →
  run fl r {| prev := prev_after p skipped; pos := n + String.length skipped;
              rest := s0 |} [] accept = Some res →
  search_from fl r (skipped +:+ s0) p n = Some (n + String.length skipped, res).
Proof.
  revert p n. induction skipped as [|x sk IH]; intros p n Hnone Hrun.
  - rewrite append_nil. simpl in *. rewrite Nat.add_0_r in *.
    destruct s0; simpl; by rewrite Hrun.
  - rewrite append_cons. simpl.
    specialize (Hnone EmptyString (String x sk) eq_refl) as H0.
    simpl in H0. rewrite Nat.add_0_r, append_cons in H0. rewrite H0 by done.
    rewrite IH.
    + f_equal. f_equal. lia.
    + intros sk1 sk2 -> Hne.
      specialize (Hnone (String x sk1) sk2). simpl in Hnone.
      rewrite <- Nat.add_succ_comm in Hnone. by apply Hnone.
    + simpl in Hrun. by rewrite <- Nat.add_succ_comm in Hrun.
Qed.

(** The scan succeeds as soon as the pattern matches somewhere. *)
Lemma search_from_complete (fl : flags) (r : regex) (skipped s0 : string)
    (p : option ascii) (n : nat) :
  (∀ p0 n0, is_Some (run fl r {| prev := p0; pos := n0; rest := s0 |} [] accept)) →
  is_Some (search_from fl r (skipped +:+ s0) p n).
Proof.
  intros Hrun. revert p n. induction skipped as [|x sk IH]; intros p n.
  - rewrite append_nil. destruct (Hrun p n) as [res Hres].
    destruct s0; simpl; by rewrite Hres.
  - rewrite append_cons. simpl.
    destruct (run fl r _ [] accept); [done|]. apply IH.
Qed.

Lemma header_at_run (t n content : string) (sk1 sk2 tail : string)
    (p : option ascii) (i : nat) (res : cursor * captures) :
  content = sk1 +:+ sk2 +:+ tail → i = String.length sk1 →
  run no_flags (snippet_pattern t n) {| prev := p; pos := i; rest := sk2 +:+ tail |}
      [] accept = Some res →
  header_at t n content i.
Proof.
  intros -> -> Hr.
  destruct (run_spans _ _ _ _ _ _ Hr) as (c' & caps' & Hs & _).
  destruct (snippet_pattern_header _ _ _ _ _ _ Hs) as (h & Hh & (Er & _)).
  exists h, (rest c'). split; [done|]. by rewrite drop_app_length.
Qed.

Lemma snippet_in_block (content t n s : string) :
  snippet_in content t n = Some s →
  ∃ pre h body post,
    is_header t n h
    ∧ ((content = pre +:+ s +:+ post ∧ s = h +:+ body +:+ "}"
        ∧ balanced body = true)
       ∨ (content = pre +:+ s ∧ s = h +:+ body ∧ never_closed body 1 = true)).
Proof.
  intros Hs. destruct (snippet_in_inv _ _ _ _ Hs) as (sk & h & tail & -> & Hh & ->).
  rewrite <- length_append, <- append_assoc.
  pose proof (block_content_after (sk +:+ h) tail) as Hshape. cbv zeta in Hshape.
  revert Hshape.
  generalize (_extract_block_content ((sk +:+ h) +:+ tail) (String.length (sk +:+ h))).
  intros body [(post & -> & Hb)|[Hn Ht]].
  - exists sk, h, body, post. split; [done|]. left.
    replace (S (String.length body)) with (String.length body + 1) by lia.
    rewrite take_app_add.
    replace (Text.take 1 ("}" +:+ post)) with "}" by (by destruct post).
    by rewrite !append_assoc.
  - rewrite Ht. exists sk, h, tail, EmptyString. split; [done|]. right.
    by rewrite append_assoc.
Qed.

Lemma snippet_in_first_block (t n pre h body post : string) :
  is_header t n h → balanced body = true →
  (∀ i, i < String.length pre →
        ¬ header_at t n (pre +:+ h +:+ body +:+ "}" +:+ post) i) →
  snippet_in (pre +:+ h +:+ body +:+ "}" +:+ post) t n = Some (h +:+ body +:+ "}").
Proof.
  intros Hh Hb Hfirst.
  destruct (snippet_pattern_run t n h (body +:+ "}" +:+ post)
              (prev_after None pre) (0 + String.length pre) Hh)
    as (c1 & Hrun & Hrest & Hpos).
  assert (Hsearch : search_from no_flags (snippet_pattern t n)
                      (pre +:+ h +:+ body +:+ "}" +:+ post) None 0
                    = Some (0 + String.length pre, (c1, []))).
  { apply search_from_first; [|exact Hrun].
    clear c1 Hrun Hrest Hpos. intros sk1 sk2 -> Hne.
    destruct (run no_flags (snippet_pattern t n) _ [] accept) as [res|] eqn:E; [|done].
    exfalso. apply (Hfirst (String.length sk1)).
    - rewrite length_append. destruct sk2; [done|]. simpl. lia.
    - eapply (header_at_run t n _ sk1 sk2); [|reflexivity|exact E].
      by rewrite !append_assoc. }
  unfold snippet_in, search. cbn [rest prev pos start_of]. rewrite Hsearch, Hpos.
  f_equal.
  replace (pre +:+ h +:+ body +:+ "}" +:+ post)
    with ((pre +:+ h) +:+ body +:+ "}" +:+ post) by (by rewrite append_assoc).
  cbn [Nat.add]. rewrite <- length_append, extract_closed_block by done.
  rewrite append_assoc.
  replace (Z.of_nat (String.length (pre +:+ h)) + Z.of_nat (String.length body) + 1)%Z
    with (Z.of_nat (String.length pre)
          + Z.of_nat (String.length h + (String.length body + 1)))%Z
    by (rewrite length_append; lia).
  rewrite slice_from by apply length_skipped.
  rewrite drop_app_length, take_app_add, take_app_add.
  by destruct post.
Qed.

Lemma header_first_char (t n h : string) :
  is_header t n h → ∃ x, h = String "r" x.
Proof. intros (ws1 & ws2 & ws3 & -> & _). by eexists. Qed.

Lemma extracted_resource_snippet_in (content file : string) :
  Forall (λ r, is_Some (snippet_in content (resource_type r) (resource_name r)))
         (_extract_resources content file).
Proof.
  unfold _extract_resources. rewrite Forall_fmap.
  eapply Forall_impl; [apply finditer_matches|].
  intros m (c0 & c1 & [Hrest _] & Hs & _). simpl.
  destruct (resource_pattern_header _ _ _ Hs) as (t & n & h & -> & Hh & (Er & _) & _).
  simpl.
  assert (Hc : content = Text.take (pos c0) content +:+ h +:+ rest c1)
    by (by rewrite <- Er, Hrest, take_drop).
  unfold snippet_in, search. cbn [rest prev pos start_of].
  destruct (search_from_complete no_flags (snippet_pattern t n)
              (Text.take (pos c0) content) (h +:+ rest c1) None 0) as [[st [c2 caps]] E].
  { intros p0 n0. destruct (snippet_pattern_run t n h (rest c1) p0 n0 Hh) as (c2 & -> & _).
    done. }
  rewrite <- Hc in E. by rewrite E.
Qed.

Lemma get_resource_snippet_read (f : tf_file) (content t n : string) :
  tf_read f = ReadOk content →
  get_resource_snippet f t n = Returned (snippet_in content t n).
Proof. intros H. unfold get_resource_snippet, read_file_content. by rewrite H. Qed.

(** X11: when [get_resource_snippet] returns a text, the file was read and
    the text is one whole block of its content, from a header for the
    requested type and name: the header, a body whose braces pair up and the
    closing brace; or, when the block is never closed, the header and all
    the rest of the content. *)
Theorem snippet_is_a_block (f : tf_file) (t n s : string) :
  get_resource_snippet f t n = Returned (Some s) →
  ∃ content pre h body post,
    tf_read f = ReadOk content ∧ is_header t n h
    ∧ ((content = pre +:+ s +:+ post ∧ s = h +:+ body +:+ "}"
        ∧ balanced body = true)
       ∨ (content = pre +:+ s ∧ s = h +:+ body ∧ never_closed body 1 = true)).
Proof.
  unfold get_resource_snippet, read_file_content.
  destruct (tf_read f) as [content|e] eqn:E; [|done]. intros [= Hs].
  destruct (snippet_in_block _ _ _ _ Hs) as (pre & h & body & post & Hh & H).
  by exists content, pre, h, body, post.
Qed.

Lemma snippet_is_a_block_witness :
  get_resource_snippet variables_tf "aws_s3_bucket" "example" = Returned None
  ∧ get_resource_snippet s3_file "aws_s3_bucket" "example" = Returned (Some s3_multi_line)
  ∧ ∃ content pre h body post,
      tf_read s3_file = ReadOk content ∧ is_header "aws_s3_bucket" "example" h
      ∧ ((content = pre +:+ s3_multi_line +:+ post
          ∧ s3_multi_line = h +:+ body +:+ "}" ∧ balanced body = true)
         ∨ (content = pre +:+ s3_multi_line
            ∧ s3_multi_line = h +:+ body ∧ never_closed body 1 = true)).
Proof.
  split; [reflexivity|]. split; [reflexivity|].
  apply snippet_is_a_block. reflexivity.
Defined.

(** X12: in a file whose content holds a block with a header for the type
    and the name, a body whose braces pair up and the closing brace, and no
    header for them before it, [get_resource_snippet] returns that block,
    from the word [resource] to the closing brace. *)
Theorem snippet_of_first_block (f : tf_file) (t n pre h body post : string) :
  tf_read f = ReadOk (pre +:+ h +:+ body +:+ "}" +:+ post) →
  is_header t n h → balanced body = true →
  (∀ i, i < String.length pre →
        ¬ header_at t n (pre +:+ h +:+ body +:+ "}" +:+ post) i) →
  get_resource_snippet f t n = Returned (Some (h +:+ body +:+ "}")).
Proof.
  intros Hf Hh Hb Hfirst. rewrite (get_resource_snippet_read _ _ _ _ Hf).
  f_equal. by apply snippet_in_first_block.
Qed.

Lemma snippet_of_first_block_witness :
  (tf_read kms_file
   = ReadOk (("# key" +:+ nl) +:+ kms_header +:+ kms_body +:+ "}" +:+ nl)
   ∧ is_header "aws_kms_key" "k" kms_header
   ∧ balanced kms_body = true
   ∧ ∀ i, i < String.length ("# key" +:+ nl) →
          ¬ header_at "aws_kms_key" "k"
              (("# key" +:+ nl) +:+ kms_header +:+ kms_body +:+ "}" +:+ nl) i)
  ∧ get_resource_snippet kms_file "aws_kms_key" "k"
    = Returned (Some (kms_header +:+ kms_body +:+ "}")).
Proof.
  assert (H1 : is_header "aws_kms_key" "k" kms_header).
  { exists " ", " ", " ". repeat split; done. }
  assert (H2 : ∀ i, i < String.length ("# key" +:+ nl) →
          ¬ header_at "aws_kms_key" "k"
              (("# key" +:+ nl) +:+ kms_header +:+ kms_body +:+ "}" +:+ nl) i).
  { intros i Hi (h & tail & Hh & Hd).
    destruct (header_first_char _ _ _ Hh) as (x & ->). rewrite append_cons in Hd.
    vm_compute in Hi. do 6 (destruct i as [|i]; [vm_compute in Hd; discriminate Hd|]).
    lia. }
  split; [split; [reflexivity|split; [exact H1|split; [reflexivity|exact H2]]]|].
  apply (snippet_of_first_block kms_file "aws_kms_key" "k" ("# key" +:+ nl)
           kms_header kms_body nl); [reflexivity|exact H1|reflexivity|exact H2].
Defined.

(** X13: every resource that [_extract_resources] lists for the content
    of a file can be retrieved from that file: [get_resource_snippet], asked
    for its type and its name, returns a text. *)
Theorem extracted_resource_has_snippet (f : tf_file) (content : string) :
  tf_read f = ReadOk content →
  Forall (λ r, ∃ s, get_resource_snippet f (resource_type r) (resource_name r)
                    = Returned (Some s))
         (_extract_resources content (tf_path f)).
Proof.
  intros Hf. eapply Forall_impl; [apply extracted_resource_snippet_in|].
  simpl. intros r [s Hs]. exists s.
  by rewrite (get_resource_snippet_read _ _ _ _ Hf), Hs.
Qed.

Lemma extracted_resource_has_snippet_witness :
  tf_read s3_file = ReadOk s3_multi_line
  ∧ Forall (λ r, ∃ s, get_resource_snippet s3_file (resource_type r) (resource_name r)
                      = Returned (Some s))
           (_extract_resources s3_multi_line (tf_path s3_file)).
Proof.
  split; [reflexivity|]. apply extracted_resource_has_snippet. reflexivity.
Defined.

(* ===================================================================== *)
(** * The command line and the dialogue                                  *)
(* ===================================================================== *)


(** ** Values of the command line *)

Lemma partition_found (sep : ascii) (s : string) :
  Text.occurs sep s = true →
  ∃ before after,
    Text.partition sep s = (before, String sep EmptyString, after)
    ∧ s = before +:+ String sep after ∧ Text.occurs sep before = false.
Proof.
  induction s as [|c s IH]; [done|]. simpl.
  destruct (Ascii.eqb_spec c sep) as [->|Hne].
  - intros _. by exists EmptyString, s.
  - simpl. intros Ho. destruct (IH Ho) as (b & a & -> & -> & Hb).
    exists (String c b), a. split; [done|]. split; [done|]. simpl.
    rewrite Hb. by apply Ascii.eqb_neq in Hne as ->.
Qed.

Lemma partition_app (sep : ascii) (before after : string) :
  Text.occurs sep before = false →
  Text.partition sep (before +:+ String sep after)
  = (before, String sep EmptyString, after).
Proof.
  induction before as [|c b IH].
  - intros _. rewrite append_nil. simpl. by rewrite Ascii.eqb_refl.
  - rewrite append_cons. simpl. intros [Hc Hb]%orb_false_iff.
    rewrite Hc, (IH Hb). done.
Qed.

Lemma occurs_key_equals (key value : string) :
  Text.occurs "=" (key +:+ String "=" value) = true.
Proof. rewrite occurs_app. simpl. apply orb_true_r. Qed.

Lemma parse_tag_converted (tag_string key value : string) :
  parse_tag tag_string = Converted (key, value)
  ↔ tag_string = key +:+ String "=" value ∧ key ≠ EmptyString
    ∧ Text.occurs "=" key = false.
Proof.
  unfold parse_tag. split.
  - destruct (Text.occurs "=" tag_string) eqn:Ho; [|done]. simpl.
    destruct (partition_found _ _ Ho) as (b & a & -> & -> & Hb).
    destruct (String.eqb_spec b EmptyString) as [->|Hne]; [done|].
    by intros [= <- <-].
  - intros (-> & Hne & Hok).
    rewrite occurs_key_equals, (partition_app _ _ _ Hok). simpl.
    by apply String.eqb_neq in Hne as ->.
Qed.

Lemma parse_tag_rejected (tag_string : string) :
  (∃ message, parse_tag tag_string = ArgumentTypeError message)
  ↔ Text.occurs "=" tag_string = false ∨ ∃ value, tag_string = String "=" value.
Proof.
  unfold parse_tag. destruct (Text.occurs "=" tag_string) eqn:Ho; simpl.
  - destruct (partition_found _ _ Ho) as (b & a & -> & -> & Hb).
    destruct b as [|c b].
    + rewrite append_nil. simpl. split; [by eauto|by eauto].
    + rewrite append_cons. simpl. split; [by intros [? ?]|].
      intros [?|[v [= -> _]]]; [done|]. by simpl in Hb.
  - split; [by left|by eauto].
Qed.

(** X14: [parse_tag] returns the pair of a key and a value exactly for the
    texts made of the key, an equals sign and the value, where the key is
    not empty and holds no equals sign; the value may hold some. It raises
    [ArgumentTypeError] exactly for the texts without an equals sign and for
    those that start with one. *)
Theorem parse_tag_spec (tag_string : string) :
  (∀ key value,
     parse_tag tag_string = Converted (key, value)
     ↔ tag_string = key +:+ "=" +:+ value ∧ key ≠ EmptyString
       ∧ Text.occurs "=" key = false)
  ∧ ((∃ message, parse_tag tag_string = ArgumentTypeError message)
     ↔ Text.occurs "=" tag_string = false ∨ ∃ value, tag_string = "=" +:+ value).
Proof. split; [apply parse_tag_converted|apply parse_tag_rejected]. Qed.

Lemma fold_user_tags_eq (l : list (string * string)) (c : WizardConfig) :
  foldl (λ config kv, set_tags (λ ts, <[kv.1 := kv.2]> ts) config) c l
  = set_tags (λ ts, foldl (λ ts kv, <[kv.1 := kv.2]> ts) ts l) c.
Proof.
  revert c. induction l as [|kv l IH]; intros c; simpl; [by destruct c|].
  by rewrite IH.
Qed.

Lemma fold_all_modules_eq (ms : list ModuleInfo) (c : WizardConfig) :
  foldl (λ config module, set_modules (λ ms, <[name module := true]> ms) config) c ms
  = set_modules (λ sel, foldl (λ sel module, <[name module := true]> sel) sel ms) c.
Proof.
  revert c. induction ms as [|m ms IH]; intros c; simpl; [by destruct c|].
  by rewrite IH.
Qed.

(** The configuration that [build_config_from_args] returns, field by
    field. *)
Lemma build_config_fields (args : Namespace) :
  build_config_from_args args
  = {| modules := if args_all_modules args
                  then foldl (λ sel module, <[name module := true]> sel) ∅
                             AVAILABLE_MODULES
                  else ∅;
       region := default "us-east-1" (given (args_region args));
       environment := default "dev" (given (args_env args));
       tags := foldl (λ ts kv, <[kv.1 := kv.2]> ts)
                 (<["ManagedBy" := "Terraform"]>
                    (<["Environment" := default "dev" (given (args_env args))]> ∅))
                 (user_tags args) |}.
Proof.
  unfold build_config_from_args, user_tags.
  rewrite fold_all_modules_eq.
  destruct (args_all_modules args), (given (args_region args)),
    (given (args_env args)), (args_tags args) as [[|kv l]|];
    try reflexivity; cbn [foldl]; rewrite fold_user_tags_eq; reflexivity.
Qed.

Lemma validated_given_region (r : string) :
  validate_region (PyStr r) = true → given (Some r) = Some r.
Proof. by destruct r. Qed.

Lemma validated_given_environment (e : string) :
  validate_environment (PyStr e) = true → given (Some e) = Some e.
Proof. by destruct e. Qed.

Lemma all_modules_selected (b : bool) :
  dom (foldl (λ sel module, <[name module := b]> sel) (∅ : gmap string bool)
         AVAILABLE_MODULES) = EXPECTED_MODULE_NAMES
  ∧ map_Forall (λ _ v, v = b)
      (foldl (λ sel module, <[name module := b]> sel) (∅ : gmap string bool)
         AVAILABLE_MODULES).
Proof.
  split.
  - destruct b; vm_compute; reflexivity.
  - intros k v. rewrite (foldl_insert_names (λ _, b) AVAILABLE_MODULES ∅ k).
    destruct (decide _); [by intros [= <-]|by rewrite lookup_empty].
Qed.

Lemma fold_pairs_keys (l : list (string * string)) (init : gmap string string)
    (P : string → Prop) :
  Forall (λ kv, P kv.1) l → (∀ k, is_Some (init !! k) → P k) →
  ∀ k, is_Some (foldl (λ ts kv, <[kv.1 := kv.2]> ts) init l !! k) → P k.
Proof.
  revert init. induction l as [|kv l IH]; intros init Hl Hinit; simpl; [done|].
  apply Forall_cons_1 in Hl as [Hkv Hl]. apply IH; [done|].
  intros k. destruct (decide (kv.1 = k)) as [<-|Hne]; [done|].
  rewrite lookup_insert_ne by done. apply Hinit.
Qed.

(** X15: from a namespace whose values went through the converters of
    the argument parser, [build_config_from_args] builds a configuration
    with the given region and environment, [us-east-1] and [dev] when none
    is given, both accepted by their validators; with no empty tag key;
    and with a feature map that holds every registered feature when
    [--all-modules] was given and none otherwise, each one it holds
    enabled. *)
Theorem converted_args_give_valid_config (args : Namespace) :
  converted_args args →
  let c := build_config_from_args args in
  region c = default "us-east-1" (args_region args)
  ∧ validate_region (PyStr (region c)) = true
  ∧ environment c = default "dev" (args_env args)
  ∧ validate_environment (PyStr (environment c)) = true
  ∧ (∀ k, is_Some (tags c !! k) → k ≠ EmptyString)
  ∧ dom (modules c) = (if args_all_modules args then EXPECTED_MODULE_NAMES else ∅)
  ∧ map_Forall (λ _ enabled, enabled = true) (modules c).
Proof.
  intros (Hr & He & Ht) c. subst c. rewrite build_config_fields. simpl.
  assert (Hregion : default "us-east-1" (given (args_region args))
                    = default "us-east-1" (args_region args)
                    ∧ validate_region
                        (PyStr (default "us-east-1" (args_region args))) = true).
  { destruct (args_region args) as [r|]; [|done].
    destruct (Hr r eq_refl) as (raw & Hraw). unfold validate_region_arg in Hraw.
    destruct (validate_region (PyStr raw)) eqn:E; [|done]. injection Hraw as ->.
    by rewrite (validated_given_region r E). }
  assert (Henv : default "dev" (given (args_env args)) = default "dev" (args_env args)
                 ∧ validate_environment
                     (PyStr (default "dev" (args_env args))) = true).
  { destruct (args_env args) as [e|]; [|done].
    destruct (He e eq_refl) as (raw & Hraw). unfold validate_environment_arg in Hraw.
    destruct (validate_environment (PyStr raw)) eqn:E; [|done]. injection Hraw as ->.
    by rewrite (validated_given_environment e E). }
  destruct Hregion as [-> ?], Henv as [-> ?].
  repeat (split; [done|]). split; [|split].
  - apply fold_pairs_keys.
    + unfold user_tags. destruct (args_tags args) as [kvs|]; [|constructor].
      eapply Forall_impl; [exact (Ht kvs eq_refl)|]. intros [k v] (raw & Hraw).
      by apply parse_tag_converted in Hraw as (_ & ? & _).
    + intros k. rewrite !lookup_insert_is_Some, lookup_empty.
      intros [<-|[_ [<-|[_ []%is_Some_None]]]]; done.
  - destruct (args_all_modules args); [apply all_modules_selected|apply dom_empty_L].
  - destruct (args_all_modules args); [apply all_modules_selected|apply map_Forall_empty].
Qed.

Lemma converted_args_give_valid_config_witness :
  converted_args cli_args
  ∧ region (build_config_from_args cli_args) = default "us-east-1" (args_region cli_args)
  ∧ validate_region (PyStr (region (build_config_from_args cli_args))) = true
  ∧ environment (build_config_from_args cli_args) = default "dev" (args_env cli_args)
  ∧ validate_environment (PyStr (environment (build_config_from_args cli_args))) = true
  ∧ (∀ k, is_Some (tags (build_config_from_args cli_args) !! k) → k ≠ EmptyString)
  ∧ dom (modules (build_config_from_args cli_args))
    = (if args_all_modules cli_args then EXPECTED_MODULE_NAMES else ∅)
  ∧ map_Forall (λ _ enabled, enabled = true) (modules (build_config_from_args cli_args)).
Proof.
  assert (H : converted_args cli_args).
  { split; [|split].
    - intros r [= <-]. by exists "eu-west-1".
    - intros e [= <-]. by exists "prod".
    - intros kvs [= <-]. constructor; [|constructor]. by exists "Team=Security". }
  split; [exact H|]. apply (converted_args_give_valid_config cli_args). exact H.
Defined.

(** ** The prompts *)

Import Interactive.

Lemma confirm_each_registry (confirmed confirmed' : list bool)
    (sel : gmap string bool) :
  confirm_each AVAILABLE_MODULES ∅ confirmed = Some (sel, confirmed') →
  ∃ answers,
    confirmed = answers ++ confirmed'
    ∧ length answers = length AVAILABLE_MODULES
    ∧ dom sel = EXPECTED_MODULE_NAMES
    ∧ ∀ i m b, AVAILABLE_MODULES !! i = Some m → answers !! i = Some b →
               sel !! name m = Some b.
Proof.
  destruct confirmed as [|b1 [|b2 [|b3 [|b4 [|b5 [|b6 [|b7 [|b8 rest]]]]]]]];
    try done.
  intros [= <- <-]. exists [b1; b2; b3; b4; b5; b6; b7; b8].
  split; [done|]. split; [done|]. split; [vm_compute; reflexivity|].
  intros i m b Hm Hb.
  do 8 (destruct i as [|i]; [injection Hm as <-; injection Hb as <-; reflexivity|]).
  done.
Qed.

(** X16: whenever [select_modules] returns, its map has exactly the
    registered features as keys, and it has used one answer of
    [Prompt.ask]. When that answer, in upper case, is [A], every feature is
    enabled and no confirmation is used; when it is [N], none is enabled;
    otherwise one confirmation is used per feature, in the order of the
    registry, and each feature is enabled as its confirmation says. *)
Theorem select_modules_spec (asked : list string) (confirmed : list bool)
    (sel : gmap string bool) (asked' : list string) (confirmed' : list bool) :
  select_modules asked confirmed = Some (sel, asked', confirmed') →
  dom sel = EXPECTED_MODULE_NAMES
  ∧ ∃ answer,
      asked = answer :: asked'
      ∧ (Text.upper answer = "A" →
         map_Forall (λ _ enabled, enabled = true) sel ∧ confirmed' = confirmed)
      ∧ (Text.upper answer = "N" →
         map_Forall (λ _ enabled, enabled = false) sel ∧ confirmed' = confirmed)
      ∧ (Text.upper answer ≠ "A" → Text.upper answer ≠ "N" →
         ∃ answers,
           confirmed = answers ++ confirmed'
           ∧ length answers = length AVAILABLE_MODULES
           ∧ ∀ i m b, AVAILABLE_MODULES !! i = Some m → answers !! i = Some b →
                      sel !! name m = Some b).
Proof.
  unfold select_modules. destruct asked as [|answer asked0]; [done|].
  destruct (String.eqb_spec (Text.upper answer) "A") as [HA|HA].
  { intros [= <- <- <-]. split; [apply (all_modules_selected true)|].
    exists answer. split; [done|]. split; [intros _; split; [|done]|].
    - apply (all_modules_selected true).
    - rewrite HA. split; [done|]. done. }
  destruct (String.eqb_spec (Text.upper answer) "N") as [HN|HN].
  { intros [= <- <- <-]. split; [apply (all_modules_selected false)|].
    exists answer. split; [done|]. split; [done|]. split; [|done].
    intros _. split; [|done]. apply (all_modules_selected false). }
  destruct (confirm_each AVAILABLE_MODULES ∅ confirmed) as [[sel0 c0]|] eqn:E; [|done].
  intros [= <- <- <-].
  destruct (confirm_each_registry _ _ _ E) as (answers & -> & Hl & Hd & Hsel).
  split; [done|]. exists answer. split; [done|]. split; [done|]. split; [done|].
  intros _ _. by exists answers.
Qed.

Lemma select_modules_spec_witness :
  select_modules ["s"; "1"] [true; false; true; true; false; false; true; true; true]
  = Some ({[ "cloudtrail" := true; "config" := false; "guardduty" := true;
             "detective" := true; "securityhub" := false;
             "accessanalyzer" := false; "inspector" := true; "macie" := true ]},
          ["1"], [true])
  ∧ dom ({[ "cloudtrail" := true; "config" := false; "guardduty" := true;
            "detective" := true; "securityhub" := false;
            "accessanalyzer" := false; "inspector" := true; "macie" := true ]}
         : gmap string bool) = EXPECTED_MODULE_NAMES.
Proof.
  assert (H : select_modules ["s"; "1"]
                [true; false; true; true; false; false; true; true; true]
              = Some ({[ "cloudtrail" := true; "config" := false; "guardduty" := true;
                         "detective" := true; "securityhub" := false;
                         "accessanalyzer" := false; "inspector" := true;
                         "macie" := true ]}, ["1"], [true]))
    by (vm_compute; reflexivity).
  split; [exact H|]. exact (proj1 (select_modules_spec _ _ _ _ _ H)).
Defined.

Lemma common_regions_valid :
  Forall (λ r, validate_region (PyStr r) = true) COMMON_REGIONS.
Proof. repeat constructor. Qed.

Lemma suggested_environments_valid :
  Forall (λ e, validate_environment (PyStr e) = true) SUGGESTED_ENVIRONMENTS.
Proof. repeat constructor. Qed.

Lemma select_region_result (asked : list string) (r : string) (asked' : list string) :
  select_region asked = Some (r, asked') →
  validate_region (PyStr r) = true
  ∧ ∃ used, asked = used ++ asked' ∧ used ≠ []
            ∧ (r ∈ COMMON_REGIONS ∨ r ∈ used).
Proof.
  remember (length asked) as n eqn:Hn. revert asked Hn.
  induction n as [n IH] using lt_wf_ind. intros asked Hn.
  destruct asked as [|choice asked0]; [done|]. simpl.
  assert (Hrec : select_region asked0 = Some (r, asked') →
            validate_region (PyStr r) = true
            ∧ ∃ used, choice :: asked0 = used ++ asked' ∧ used ≠ []
                      ∧ (r ∈ COMMON_REGIONS ∨ r ∈ used)).
  { intros H. destruct (IH (length asked0)) with (asked := asked0)
      as (Hv & used & -> & _ & Hr); [simpl in Hn; lia|done|done|].
    split; [done|]. exists (choice :: used). split; [done|]. split; [done|].
    destruct Hr; [by left|right; by right]. }
  destruct (Text.int choice) as [choice_num|].
  - destruct ((1 <=? choice_num)%Z && _) eqn:Hrange.
    + destruct (COMMON_REGIONS !! Z.to_nat (choice_num - 1)) as [sel|] eqn:Hsel; [|done].
      intros [= <- <-]. split.
      * by apply (Forall_lookup_1 _ _ _ _ common_regions_valid Hsel).
      * exists [choice]. split; [done|]. split; [done|]. left.
        by apply list_elem_of_lookup_2 in Hsel.
    + destruct (choice_num =? _)%Z; [|exact Hrec].
      destruct asked0 as [|custom asked1]; [done|].
      destruct (validate_region (PyStr custom)) eqn:Hc.
      * intros [= <- <-]. split; [done|]. exists [choice; custom].
        split; [done|]. split; [done|]. right. right. by left.
      * intros H. destruct (IH (length asked1)) with (asked := asked1)
          as (Hv & used & -> & _ & Hr); [simpl in Hn; lia|done|done|].
        split; [done|]. exists (choice :: custom :: used).
        split; [done|]. split; [done|].
        destruct Hr; [by left|right; right; by right].
  - destruct (validate_region (PyStr choice)) eqn:Hc; [|exact Hrec].
    intros [= <- <-]. split; [done|]. exists [choice].
    split; [done|]. split; [done|]. right. by left.
Qed.

(** X17: whenever [select_region] returns, the region passes
    [validate_region]; it is one of the common regions or one of the
    answers used, and at least one answer was used. *)
Theorem select_region_valid (asked : list string) (r : string)
    (asked' : list string) :
  select_region asked = Some (r, asked') →
  validate_region (PyStr r) = true
  ∧ ∃ used, asked = used ++ asked' ∧ used ≠ []
            ∧ (r ∈ COMMON_REGIONS ∨ r ∈ used).
Proof. apply select_region_result. Qed.

Lemma select_region_valid_witness :
  select_region ["abc"; "11"; "x"; " 1_0 "; "zz"] = Some ("ap-northeast-1", ["zz"])
  ∧ validate_region (PyStr "ap-northeast-1") = true.
Proof.
  assert (H : select_region ["abc"; "11"; "x"; " 1_0 "; "zz"]
              = Some ("ap-northeast-1", ["zz"])) by (vm_compute; reflexivity).
  split; [exact H|]. exact (proj1 (select_region_valid _ _ _ H)).
Defined.

Lemma select_environment_result (asked : list string) (e : string)
    (asked' : list string) :
  select_environment asked = Some (e, asked') →
  validate_environment (PyStr e) = true
  ∧ ∃ used, asked = used ++ asked' ∧ used ≠ []
            ∧ (e ∈ SUGGESTED_ENVIRONMENTS ∨ e ∈ used).
Proof.
  induction asked as [|choice asked0 IH]; [done|]. simpl.
  assert (Hrec : select_environment asked0 = Some (e, asked') →
            validate_environment (PyStr e) = true
            ∧ ∃ used, choice :: asked0 = used ++ asked' ∧ used ≠ []
                      ∧ (e ∈ SUGGESTED_ENVIRONMENTS ∨ e ∈ used)).
  { intros H. destruct (IH H) as (Hv & used & -> & _ & Hr).
    split; [done|]. exists (choice :: used). split; [done|]. split; [done|].
    destruct Hr; [by left|right; by right]. }
  assert (Hown : (if validate_environment (PyStr choice)
                  then Some (choice, asked0) else select_environment asked0)
                 = Some (e, asked') →
            validate_environment (PyStr e) = true
            ∧ ∃ used, choice :: asked0 = used ++ asked' ∧ used ≠ []
                      ∧ (e ∈ SUGGESTED_ENVIRONMENTS ∨ e ∈ used)).
  { destruct (validate_environment (PyStr choice)) eqn:Hc; [|exact Hrec].
    intros [= <- <-]. split; [done|]. exists [choice].
    split; [done|]. split; [done|]. right. by left. }
  destruct (Text.int choice) as [choice_num|]; [|exact Hown].
  destruct ((1 <=? choice_num)%Z && _) eqn:Hrange; [|exact Hown].
  destruct (SUGGESTED_ENVIRONMENTS !! Z.to_nat (choice_num - 1)) as [sel|] eqn:Hsel;
    [|done].
  intros [= <- <-]. split.
  - by apply (Forall_lookup_1 _ _ _ _ suggested_environments_valid Hsel).
  - exists [choice]. split; [done|]. split; [done|]. left.
    by apply list_elem_of_lookup_2 in Hsel.
Qed.

(** X19: whenever [select_environment] returns, the environment passes
    [validate_environment]; it is one of the suggested environments or one
    of the answers used, and at least one answer was used. *)
Theorem select_environment_valid (asked : list string) (e : string)
    (asked' : list string) :
  select_environment asked = Some (e, asked') →
  validate_environment (PyStr e) = true
  ∧ ∃ used, asked = used ++ asked' ∧ used ≠ []
            ∧ (e ∈ SUGGESTED_ENVIRONMENTS ∨ e ∈ used).
Proof. apply select_environment_result. Qed.

Lemma select_environment_valid_witness :
  select_environment ["my env"; "7"; "2"] = Some ("7", ["2"])
  ∧ validate_environment (PyStr "7") = true.
Proof.
  assert (H : select_environment ["my env"; "7"; "2"] = Some ("7", ["2"]))
    by (vm_compute; reflexivity).
  split; [exact H|]. exact (proj1 (select_environment_valid _ _ _ H)).
Defined.

Lemma lower_not_a_number (x : ascii) (s : string) :
  atom_matches no_flags lower x = true → Text.int (String x s) = None.
Proof.
  destruct x as [[] [] [] [] [] [] [] []]; vm_compute; (discriminate || reflexivity).
Qed.

(** A text that passes [validate_region] is not a number for [int]. *)
Lemma region_not_a_number (a : string) :
  validate_region (PyStr a) = true → Text.int a = None.
Proof.
  unfold validate_region. simpl. destruct (negb _ || false); [done|].
  intros H%bool_decide_eq_true%re_match_is_Some. destruct H as [res Hres].
  destruct (run_spans _ _ _ _ _ _ Hres) as (c' & caps' & Hs & _).
  unfold AWS_REGION_PATTERN in Hs. simpl in Hs.
  destruct Hs as (ca & capsa & (-> & -> & _) &
                  cb & capsb & (t & (Ht & _) & Hl & Hm & ->) & _).
  simpl in Ht. destruct t as [|x t]; [done|]. rewrite append_cons in Ht.
  rewrite Ht. apply lower_not_a_number. simpl in Hm.
  by apply andb_true_iff in Hm as [? _].
Qed.

(** X18: [select_region] returns as soon as the answers hold a text that
    passes [validate_region]: it does not ask for ever. *)
Theorem select_region_returns (asked : list string) :
  Exists (λ a, validate_region (PyStr a) = true) asked →
  is_Some (select_region asked).
Proof.
  remember (length asked) as n eqn:Hn. revert asked Hn.
  induction n as [n IH] using lt_wf_ind. intros asked Hn Hex.
  destruct asked as [|choice asked0]; [by apply Exists_nil in Hex|]. simpl.
  apply Exists_cons in Hex as [Hc|Hex].
  { by rewrite (region_not_a_number _ Hc), Hc. }
  assert (Hrec : is_Some (select_region asked0))
    by (apply (IH (length asked0)); [simpl in Hn; lia|done|done]).
  destruct (Text.int choice) as [choice_num|].
  - destruct ((1 <=? choice_num)%Z && _) eqn:Hrange.
    + apply andb_true_iff in Hrange as [H1%Z.leb_le H2%Z.leb_le].
      destruct (lookup_lt_is_Some_2 COMMON_REGIONS (Z.to_nat (choice_num - 1)))
        as [sel ->]; [simpl in *; lia|done].
    + destruct (choice_num =? _)%Z; [|done].
      destruct asked0 as [|custom asked1]; [by apply Exists_nil in Hex|].
      destruct (validate_region (PyStr custom)) eqn:Hc; [done|].
      apply Exists_cons in Hex as [Hc'|Hex]; [congruence|].
      apply (IH (length asked1)); [simpl in Hn; lia|done|done].
  - by destruct (validate_region (PyStr choice)).
Qed.

Lemma select_region_returns_witness :
  Exists (λ a, validate_region (PyStr a) = true) ["0"; "11"; "east"; "eu-north-1"]
  ∧ is_Some (select_region ["0"; "11"; "east"; "eu-north-1"]).
Proof.
  assert (H : Exists (λ a, validate_region (PyStr a) = true)
                ["0"; "11"; "east"; "eu-north-1"])
    by (do 3 apply Exists_cons_tl; apply Exists_cons_hd; reflexivity).
  split; [exact H|]. apply select_region_returns. exact H.
Defined.

(** X20: [select_environment] returns as soon as the answers hold a text
    that passes [validate_environment]. *)
Theorem select_environment_returns (asked : list string) :
  Exists (λ a, validate_environment (PyStr a) = true) asked →
  is_Some (select_environment asked).
Proof.
  induction asked as [|choice asked0 IH]; intros Hex; [by apply Exists_nil in Hex|].
  simpl.
  assert (Hown : is_Some (if validate_environment (PyStr choice)
                          then Some (choice, asked0)
                          else select_environment asked0)).
  { destruct (validate_environment (PyStr choice)) eqn:Hc; [done|].
    apply Exists_cons in Hex as [Hc'|Hex]; [congruence|by apply IH]. }
  destruct (Text.int choice) as [choice_num|]; [|exact Hown].
  destruct ((1 <=? choice_num)%Z && _) eqn:Hrange; [|exact Hown].
  apply andb_true_iff in Hrange as [H1%Z.leb_le H2%Z.leb_le].
  destruct (lookup_lt_is_Some_2 SUGGESTED_ENVIRONMENTS (Z.to_nat (choice_num - 1)))
    as [sel ->]; [simpl in *; lia|done].
Qed.

Lemma select_environment_returns_witness :
  Exists (λ a, validate_environment (PyStr a) = true) ["a b"; "qa-1"]
  ∧ is_Some (select_environment ["a b"; "qa-1"]).
Proof.
  assert (H : Exists (λ a, validate_environment (PyStr a) = true) ["a b"; "qa-1"])
    by (apply Exists_cons_tl; apply Exists_cons_hd; reflexivity).
  split; [exact H|]. apply select_environment_returns. exact H.
Defined.

(** ** Tags and the whole dialogue *)

Lemma read_tags_cons (tags : gmap string string) (key : string)
    (asked' : list string) :
  read_tags tags (key :: asked')
  = if String.eqb key EmptyString then Some (tags, asked')
    else if negb (validate_tag_key (PyStr key)) then read_tags tags asked'
    else match asked' with
         | [] => None
         | value :: asked'' => read_tags (<[key := value]> tags) asked''
         end.
Proof. done. Qed.

Lemma read_tags_result (P : string → Prop) (asked : list string)
    (tags tags' : gmap string string) (asked' : list string) :
  (∀ k, validate_tag_key (PyStr k) = true → P k) →
  read_tags tags asked = Some (tags', asked') →
  (∀ k, is_Some (tags !! k) → P k) →
  (∀ k, is_Some (tags' !! k) → P k)
  ∧ (∀ k, is_Some (tags !! k) → is_Some (tags' !! k))
  ∧ ∃ used, asked = used ++ asked' ∧ used ≠ [].
Proof.
  intros HP. remember (length asked) as n eqn:Hn. revert asked tags Hn.
  induction n as [n IH] using lt_wf_ind. intros asked tags Hn.
  destruct asked as [|key asked0]; [done|]. rewrite read_tags_cons.
  destruct (String.eqb key EmptyString).
  { intros [= <- <-] Ht. split; [done|]. split; [done|]. by exists [key]. }
  destruct (validate_tag_key (PyStr key)) eqn:Hk; cbn [negb].
  - destruct asked0 as [|value asked1]; [done|]. intros H Ht.
    destruct (IH (length asked1)) with (asked := asked1) (tags := <[key := value]> tags)
      as (H1 & H2 & used & -> & _); [simpl in Hn; lia|done|done|..].
    + intros k. destruct (decide (key = k)) as [<-|Hne]; [auto|].
      rewrite lookup_insert_ne by done. apply Ht.
    + split; [done|]. split.
      * intros k Hsome. apply H2.
        destruct (decide (key = k)) as [<-|Hne]; [by rewrite lookup_insert_eq|].
        by rewrite lookup_insert_ne.
      * by exists (key :: value :: used).
  - intros H Ht.
    destruct (IH (length asked0)) with (asked := asked0) (tags := tags)
      as (H1 & H2 & used & -> & _); [simpl in Hn; lia|done|done|done|].
    split; [done|]. split; [done|]. by exists (key :: used).
Qed.

Lemma configure_tags_result (environment : string) (asked : list string)
    (confirmed : list bool) (tags : gmap string string) (asked' : list string)
    (confirmed' : list bool) :
  configure_tags environment asked confirmed = Some (tags, asked', confirmed') →
  is_Some (tags !! "Environment") ∧ is_Some (tags !! "ManagedBy")
  ∧ (∀ k, is_Some (tags !! k) → validate_tag_key (PyStr k) = true)
  ∧ ∃ add_custom,
      confirmed = add_custom :: confirmed'
      ∧ (add_custom = false →
         asked' = asked
         ∧ tags = {[ "Environment" := environment; "ManagedBy" := "Terraform" ]}).
Proof.
  unfold configure_tags. destruct confirmed as [|add_custom confirmed0]; [done|].
  set (tags0 := <["ManagedBy" := "Terraform"]> (<["Environment" := environment]> ∅)).
  assert (H0 : ∀ k, is_Some (tags0 !! k) → validate_tag_key (PyStr k) = true).
  { intros k. subst tags0. rewrite !lookup_insert_is_Some, lookup_empty.
    intros [<-|[_ [<-|[_ []%is_Some_None]]]]; reflexivity. }
  assert (HE : is_Some (tags0 !! "Environment")) by (by subst tags0).
  assert (HM : is_Some (tags0 !! "ManagedBy")) by (by subst tags0).
  destruct add_custom.
  - destruct (read_tags tags0 asked) as [[tags1 asked1]|] eqn:E; [|done].
    intros [= <- <- <-].
    destruct (read_tags_result (λ k, validate_tag_key (PyStr k) = true)
                _ _ _ _ (λ _ H, H) E H0) as (H1 & H2 & _).
    split; [auto|]. split; [auto|]. split; [done|]. by exists true.
  - intros [= <- <- <-]. split; [done|]. split; [done|]. split; [done|].
    exists false. split; [done|]. intros _. split; [done|].
    subst tags0. apply map_eq. intros k.
    destruct (decide (k = "ManagedBy")) as [->|H1]; [done|].
    destruct (decide (k = "Environment")) as [->|H2]; [done|].
    rewrite !lookup_insert_ne by done.
    by rewrite lookup_empty, lookup_singleton_ne.
Qed.

(** X21: whenever [configure_tags] returns, the tags hold the keys
    [Environment] and [ManagedBy], and every key passes [validate_tag_key];
    one confirmation was used, and when it declines custom tags no answer
    is used and the tags are the two auto-included ones. *)
Theorem configure_tags_spec (environment : string) (asked : list string)
    (confirmed : list bool) (tags : gmap string string) (asked' : list string)
    (confirmed' : list bool) :
  configure_tags environment asked confirmed = Some (tags, asked', confirmed') →
  is_Some (tags !! "Environment") ∧ is_Some (tags !! "ManagedBy")
  ∧ (∀ k, is_Some (tags !! k) → validate_tag_key (PyStr k) = true)
  ∧ ∃ add_custom,
      confirmed = add_custom :: confirmed'
      ∧ (add_custom = false →
         asked' = asked
         ∧ tags = {[ "Environment" := environment; "ManagedBy" := "Terraform" ]}).
Proof. apply configure_tags_result. Qed.

Lemma configure_tags_spec_witness :
  configure_tags "dev" ["  "; "Team"; "Sec"; "Environment"; "qa"; ""; "next"] [true]
  = Some ({[ "Environment" := "qa"; "ManagedBy" := "Terraform"; "Team" := "Sec" ]},
          ["next"], [])
  ∧ ∀ k, is_Some (({[ "Environment" := "qa"; "ManagedBy" := "Terraform";
                      "Team" := "Sec" ]} : gmap string string) !! k) →
         validate_tag_key (PyStr k) = true.
Proof.
  assert (H : configure_tags "dev"
                ["  "; "Team"; "Sec"; "Environment"; "qa"; ""; "next"] [true]
              = Some ({[ "Environment" := "qa"; "ManagedBy" := "Terraform";
                         "Team" := "Sec" ]}, ["next"], []))
    by (vm_compute; reflexivity).
  split; [exact H|].
  exact (proj1 (proj2 (proj2 (configure_tags_spec _ _ _ _ _ _ H)))).
Defined.

Lemma select_modules_confirmed (asked : list string) (confirmed : list bool)
    (sel : gmap string bool) (asked' : list string) (confirmed' : list bool) :
  select_modules asked confirmed = Some (sel, asked', confirmed') →
  dom sel = EXPECTED_MODULE_NAMES ∧ length confirmed' ≤ length confirmed.
Proof.
  unfold select_modules. destruct asked as [|answer asked0]; [done|].
  destruct (String.eqb (Text.upper answer) "A").
  { intros [= <- <- <-]. split; [apply (all_modules_selected true)|done]. }
  destruct (String.eqb (Text.upper answer) "N").
  { intros [= <- <- <-]. split; [apply (all_modules_selected false)|done]. }
  destruct (confirm_each AVAILABLE_MODULES ∅ confirmed) as [[sel0 c0]|] eqn:E; [|done].
  intros [= <- <- <-].
  destruct (confirm_each_registry _ _ _ E) as (answers & -> & Hl & Hd & _).
  split; [done|]. rewrite length_app. lia.
Qed.

Lemma interactive_rounds_result (rounds : nat) (asked : list string)
    (confirmed : list bool) (config : WizardConfig) (asked' : list string)
    (confirmed' : list bool) :
  interactive_rounds rounds asked confirmed = Some (config, asked', confirmed') →
  dom (modules config) = EXPECTED_MODULE_NAMES
  ∧ validate_region (PyStr (region config)) = true
  ∧ validate_environment (PyStr (environment config)) = true
  ∧ (∀ k, is_Some (tags config !! k) → validate_tag_key (PyStr k) = true)
  ∧ is_Some (tags config !! "Environment")
  ∧ is_Some (tags config !! "ManagedBy").
Proof.
  revert asked confirmed. induction rounds as [|rounds IH]; intros asked confirmed;
    [done|]. simpl.
  destruct (select_modules asked confirmed) as [[[sel asked1] confirmed1]|] eqn:E1;
    [|done].
  destruct (select_region asked1) as [[r asked2]|] eqn:E2; [|done].
  destruct (select_environment asked2) as [[e asked3]|] eqn:E3; [|done].
  destruct (configure_tags e asked3 confirmed1) as [[[ts asked4] confirmed4]|] eqn:E4;
    [|done].
  unfold display_summary. destruct confirmed4 as [|[] confirmed5]; [done| |apply IH].
  intros [= <- <- <-]. simpl.
  destruct (select_modules_confirmed _ _ _ _ _ E1) as [? _].
  destruct (select_region_result _ _ _ E2) as [? _].
  destruct (select_environment_result _ _ _ E3) as [? _].
  destruct (configure_tags_result _ _ _ _ _ _ E4) as (? & ? & ? & _).
  done.
Qed.

(** The rounds that [run_interactive_mode] allows are enough: more rounds
    give the same result. *)
Lemma interactive_rounds_enough (extra : nat) (asked : list string)
    (confirmed : list bool) :
  interactive_rounds (S (length confirmed) + extra) asked confirmed
  = run_interactive_mode asked confirmed.
Proof.
  unfold run_interactive_mode.
  assert (H : ∀ f1 f2 asked confirmed,
            length confirmed < f1 → length confirmed < f2 →
            interactive_rounds f1 asked confirmed = interactive_rounds f2 asked confirmed).
  { clear. induction f1 as [|f1 IH]; intros [|f2] asked confirmed H1 H2; try lia.
    simpl.
    destruct (select_modules asked confirmed) as [[[sel asked1] confirmed1]|] eqn:E1;
      [|done].
    destruct (select_region asked1) as [[r asked2]|]; [|done].
    destruct (select_environment asked2) as [[e asked3]|]; [|done].
    destruct (configure_tags e asked3 confirmed1) as [[[ts asked4] confirmed4]|] eqn:E4;
      [|done].
    unfold display_summary. destruct confirmed4 as [|[] confirmed5]; [done|done|].
    destruct (select_modules_confirmed _ _ _ _ _ E1) as [_ Hl1].
    destruct (configure_tags_result _ _ _ _ _ _ E4) as (_ & _ & _ & b & -> & _).
    simpl in Hl1. apply IH; lia. }
  apply H; lia.
Qed.

(** X22: whenever [run_interactive_mode] returns, the configuration has
    exactly the registered features in its feature map, a region and an
    environment that pass their validators, tag keys that all pass
    [validate_tag_key], and the tags [Environment] and [ManagedBy]. *)
Theorem interactive_config_valid (asked : list string) (confirmed : list bool)
    (config : WizardConfig) (asked' : list string) (confirmed' : list bool) :
  run_interactive_mode asked confirmed = Some (config, asked', confirmed') →
  dom (modules config) = EXPECTED_MODULE_NAMES
  ∧ validate_region (PyStr (region config)) = true
  ∧ validate_environment (PyStr (environment config)) = true
  ∧ (∀ k, is_Some (tags config !! k) → validate_tag_key (PyStr k) = true)
  ∧ is_Some (tags config !! "Environment")
  ∧ is_Some (tags config !! "ManagedBy").
Proof. apply interactive_rounds_result. Qed.

Lemma interactive_config_valid_witness :
  run_interactive_mode ["n"; "x"; "2"; "prod"; "a"; "eu-west-1"; "1"]
                       [false; false; false; true]
  = Some ({| modules := all_enabled; region := "eu-west-1"; environment := "dev";
             tags := {[ "Environment" := "dev"; "ManagedBy" := "Terraform" ]} |},
          [], [])
  ∧ dom all_enabled = EXPECTED_MODULE_NAMES.
Proof.
  assert (H : run_interactive_mode ["n"; "x"; "2"; "prod"; "a"; "eu-west-1"; "1"]
                                   [false; false; false; true]
              = Some ({| modules := all_enabled; region := "eu-west-1";
                         environment := "dev";
                         tags := {[ "Environment" := "dev";
                                    "ManagedBy" := "Terraform" ]} |}, [], []))
    by (vm_compute; reflexivity).
  split; [exact H|]. exact (proj1 (interactive_config_valid _ _ _ _ _ H)).
Defined.

(* ===================================================================== *)
(** * The audit report                                                   *)
(* ===================================================================== *)


(** ** The summary of a report *)

Section report.
Import Report.

Lemma summary_fold (fs : list Finding) (counts : Severity → nat)
    (mods : gset string) :
  let acc := foldl (λ '(severity_counts, modules) finding,
                      (increment (severity finding) severity_counts,
                       {[ module finding ]} ∪ modules))
                   (counts, mods) fs in
  (∀ s, acc.1 s = counts s + length (filter (λ f, severity f = s) fs))
  ∧ acc.2 = list_to_set (module <$> fs) ∪ mods.
Proof.
  revert counts mods. induction fs as [|f fs IH]; intros counts mods; simpl.
  - split; [intros s; lia|]. by rewrite (left_id_L ∅ (∪)).
  - destruct (IH (increment (severity f) counts) ({[ module f ]} ∪ mods)) as [H1 H2].
    split.
    + intros s. rewrite H1, filter_cons. unfold increment.
      destruct (decide (s = severity f)) as [->|Hne].
      * rewrite decide_True by done. simpl. lia.
      * rewrite decide_False by done. lia.
    + rewrite H2. apply leibniz_equiv. intros x. rewrite !elem_of_union. tauto.
Qed.

Lemma get_summary_fields (report : AuditReport) :
  let summary := get_summary report in
  total_findings summary = length (findings report)
  ∧ (∀ s, count_of s summary = length (get_findings_by_severity report s))
  ∧ modules_audited summary = sorted (list_to_set (module <$> findings report)).
Proof.
  unfold get_summary, get_findings_by_severity.
  pose proof (summary_fold (findings report) (λ _, 0) ∅) as H. simpl in H.
  destruct (foldl _ _ (findings report)) as [counts mods]. simpl in *.
  destruct H as [H1 ->]. split; [done|]. split.
  - intros []; simpl; by rewrite H1.
  - by rewrite (right_id_L ∅ (∪)).
Qed.

Lemma length_by_severity (fs : list Finding) :
  length fs
  = length (filter (λ f, severity f = CRITICAL) fs)
    + length (filter (λ f, severity f = HIGH) fs)
    + length (filter (λ f, severity f = MEDIUM) fs)
    + length (filter (λ f, severity f = LOW) fs).
Proof.
  induction fs as [|f fs IH]; [done|]. rewrite !filter_cons.
  destruct (severity f); simpl; lia.
Qed.

(** X23: in the summary of a report the total is the number of findings
    and the sum of the four counts, and the count of each severity is the
    number of findings that [get_findings_by_severity] returns for it. *)
Theorem summary_counts (report : AuditReport) :
  let summary := get_summary report in
  total_findings summary = length (findings report)
  ∧ total_findings summary
    = critical summary + high summary + medium summary + low summary
  ∧ ∀ s, count_of s summary = length (get_findings_by_severity report s).
Proof.
  intros summary. destruct (get_summary_fields report) as (Ht & Hc & _).
  fold summary in Ht, Hc. split; [done|]. split; [|done].
  pose proof (Hc CRITICAL) as H1. pose proof (Hc HIGH) as H2.
  pose proof (Hc MEDIUM) as H3. pose proof (Hc LOW) as H4.
  pose proof (length_by_severity (findings report)) as Hl.
  unfold get_findings_by_severity in *. simpl in H1, H2, H3, H4. lia.
Qed.

(** X24: the modules that a summary lists are in increasing order,
    without repetition, and are exactly the modules for which
    [get_findings_by_module] returns some finding. *)
Theorem summary_modules (report : AuditReport) :
  let audited := modules_audited (get_summary report) in
  StronglySorted String.le audited ∧ NoDup audited
  ∧ ∀ m, m ∈ audited ↔ get_findings_by_module report m ≠ [].
Proof.
  intros audited. destruct (get_summary_fields report) as (_ & _ & Hm).
  subst audited. rewrite Hm. unfold sorted.
  set (names := list_to_set (module <$> findings report) : gset string).
  split; [apply StronglySorted_merge_sort; apply _|].
  split.
  - rewrite merge_sort_Permutation. apply NoDup_elements.
  - intros m. rewrite merge_sort_Permutation, elem_of_elements.
    subst names. rewrite elem_of_list_to_set, list_elem_of_fmap.
    unfold get_findings_by_module. split.
    + intros (f & -> & Hf) Hnil.
      assert (f ∈ filter (λ f0, module f0 = module f) (findings report)) as Hin
        by (by apply list_elem_of_filter).
      rewrite Hnil in Hin. by apply elem_of_nil in Hin.
    + intros Hne. destruct (filter _ _) as [|f l] eqn:E; [done|].
      assert (f ∈ filter (λ f0, module f0 = m) (findings report)) as Hin
        by (rewrite E; by left).
      apply list_elem_of_filter in Hin as [<- ?]. by exists f.
Qed.

(** X25: [add_finding] raises the total of the summary by one and the
    count of the severity of the finding by one, leaving the other counts;
    the finding is the last of those of its module, which the summary then
    lists. *)
Theorem add_finding_summary (report : AuditReport) (finding : Finding) :
  let before := get_summary report in
  let after := get_summary (add_finding report finding) in
  total_findings after = S (total_findings before)
  ∧ (∀ s, count_of s after
          = count_of s before + (if decide (s = severity finding) then 1 else 0))
  ∧ get_findings_by_module (add_finding report finding) (module finding)
    = get_findings_by_module report (module finding) ++ [finding]
  ∧ module finding ∈ modules_audited after.
Proof.
  intros before after.
  destruct (get_summary_fields report) as (Ht & Hc & _).
  destruct (get_summary_fields (add_finding report finding)) as (Ht' & Hc' & Hm').
  fold before in Ht, Hc. fold after in Ht', Hc', Hm'.
  split; [rewrite Ht', Ht; simpl; rewrite length_app; simpl; lia|].
  split.
  - intros s. rewrite Hc', Hc. unfold get_findings_by_severity. simpl.
    rewrite filter_app, length_app, filter_cons, filter_nil.
    destruct (decide (s = severity finding)) as [->|Hne].
    + by rewrite decide_True.
    + by rewrite decide_False.
  - split.
    + unfold get_findings_by_module. simpl.
      by rewrite filter_app, filter_cons, filter_nil, decide_True.
    + rewrite Hm'. unfold sorted. rewrite merge_sort_Permutation, elem_of_elements.
      rewrite elem_of_list_to_set. simpl. rewrite fmap_app, elem_of_app.
      right. by left.
Qed.

End report.
